(** * The in-container I/O manager of the Modal client

    A shallow embedding of [modal/_runtime/container_io_manager.py]:
    the resizable input-slot semaphore, the per-input [IOContext], the
    heartbeat loop and its interlock with memory snapshots, the output
    pusher and the generator output task.

    Conventions.
    - Python integers are [Z]; Python [str] is [string]; [bytes] is
      [list Byte.byte].
    - Clock readings and durations ([time.monotonic()], [time.time()],
      [asyncio.sleep]) are exact rationals [Q]: the rounding of IEEE
      doubles is not modelled.
    - A Python exception is a value of [exn]; code that may raise returns
      [res A], and code that also mutates an object is a computation
      [M S A] over the state [S] of that object: what it wrote before it
      raised stays written.
    - asyncio is a cooperative scheduler: the code between two [await]s
      runs atomically, so every coroutine is cut at its suspension points
      into atomic steps. *)

From Stdlib Require Import ZArith QArith Qminmax String Ascii List Lia DecimalString.
From stdpp Require Import gmap strings list.
From Equations Require Import Equations.

Open Scope Z_scope.

(** ** Exceptions and fallible computations *)

Inductive exn : Type :=
  | InvalidError (msg : string)
  | RuntimeError (msg : string)
  | InvalidStateError
  | AssertionError
  | KeyError (key : string)
  | IndexError
  | InputCancellation
  | CancelledError
  | KeyboardInterrupt
  | GeneratorExit
  | ClientClosed
  | UserError (what : string).

Inductive res (A : Type) : Type :=
  | Ok (a : A)
  | Raise (e : exn).
Arguments Ok {A} a.
Arguments Raise {A} e.

#[global] Instance res_bind : MBind res :=
  fun A B (k : A -> res B) (c : res A) =>
    match c with
    | Ok a => k a
    | Raise e => Raise e
    end.

#[global] Instance res_ret : MRet res := fun A a => Ok a.

(** Stateful, fallible computations. *)
Definition M (S A : Type) : Type := S -> res A * S.

#[global] Instance M_bind {S : Type} : MBind (M S) :=
  fun A B (k : A -> M S B) (c : M S A) (s : S) =>
    match c s with
    | (Ok a, s') => k a s'
    | (Raise e, s') => (Raise e, s')
    end.

#[global] Instance M_ret {S : Type} : MRet (M S) := fun A a s => (Ok a, s).

Definition raise {S A : Type} (e : exn) : M S A := fun s => (Raise e, s).
Definition get {S : Type} : M S S := fun s => (Ok s, s).
Definition put {S : Type} (s : S) : M S unit := fun _ => (Ok tt, s).
Definition modify {S : Type} (f : S -> S) : M S unit := fun s => (Ok tt, f s).
Definition lift_res {S A : Type} (r : res A) : M S A := fun s => (r, s).

(** Run a computation over a component [T] of the state [S]. *)
Definition zoom {S T A : Type} (proj : S -> T) (upd : T -> S -> S) (c : M T A) : M S A :=
  fun s => let '(r, t) := c (proj s) in (r, upd t s).

(** [for x in l: body x] *)
Fixpoint for_each {S A : Type} (l : list A) (body : A -> M S unit) : M S unit :=
  match l with
  | [] => mret tt
  | x :: l' => body x ≫= fun _ => for_each l' body
  end.

(** [str(n)] for a Python integer. *)
Definition str_of_Z (n : Z) : string := NilZero.string_of_int (Z.to_int n).

(** [len(x)] as a Python integer. *)
Definition len {A : Type} (l : list A) : Z := Z.of_nat (length l).
Definition strlen (s : string) : Z := Z.of_nat (String.length s).

(** ** [InputSlots]: a semaphore with adjustable capacity *)

Module Slots.

(** An [asyncio.Future] parked on by the single waiter. *)
Inductive future_state : Type := Pending | Resolved | Cancelled.

(** The fields of [InputSlots]; [waiter] is a reference into the event
    loop's futures. *)
Record InputSlots : Type := mkSlots {
  active : Z;
  value : Z;
  waiter : option nat;
  closed : bool
}.

(** The semaphore together with the futures of the event loop it lives in. *)
Record world : Type := mkWorld {
  slots : InputSlots;
  futures : list future_state
}.

Definition set_active (a : Z) (w : world) : world :=
  let s := slots w in mkWorld (mkSlots a (value s) (waiter s) (closed s)) (futures w).
Definition set_capacity (v : Z) (w : world) : world :=
  let s := slots w in mkWorld (mkSlots (active s) v (waiter s) (closed s)) (futures w).
Definition set_waiter (o : option nat) (w : world) : world :=
  let s := slots w in mkWorld (mkSlots (active s) (value s) o (closed s)) (futures w).
Definition set_closed (b : bool) (w : world) : world :=
  let s := slots w in mkWorld (mkSlots (active s) (value s) (waiter s) b) (futures w).
Definition set_futures (futs : list future_state) (w : world) : world :=
  mkWorld (slots w) futs.

(** [InputSlots.__init__] *)
Definition init (v : Z) : world :=
  mkWorld (mkSlots 0 v None false) [].

(** What the caller of [acquire] observes: it took a slot at once, or it
    is suspended on the future it created. *)
Inductive acquired : Type :=
  | Entered
  | Parked (f : nat).

(** [loop.create_future()] *)
Definition create_future : M world nat :=
  fun w => (Ok (length (futures w)), set_futures (futures w ++ [Pending]) w).

(** [InputSlots.acquire], up to its suspension point. *)
Definition acquire : M world acquired :=
  w ← get;
  if active (slots w) <? value (slots w) then
    modify (set_active (active (slots w) + 1));; mret Entered
  else
    match waiter (slots w) with
    | None =>
        f ← create_future;
        modify (set_waiter (Some f));;
        mret (Parked f)
    | Some _ => raise (RuntimeError "Concurrent waiters are not supported.")
    end.

(** [Future.cancelled] *)
Definition cancelled (f : nat) : M world bool :=
  w ← get;
  mret (match futures w !! f with Some Cancelled => true | _ => false end).

(** [Future.set_result]: only a pending future accepts a result. *)
Definition set_result (f : nat) : M world unit :=
  w ← get;
  match futures w !! f with
  | Some Pending => put (set_futures (<[f := Resolved]> (futures w)) w)
  | _ => raise InvalidStateError
  end.

(** [InputSlots._wake_waiter] *)
Definition _wake_waiter : M world unit :=
  w ← get;
  match waiter (slots w) with
  | Some f =>
      if active (slots w) <? value (slots w) then
        c ← cancelled f;
        (* could have been cancelled during interpreter shutdown *)
        (if c : bool then mret tt else set_result f);;
        modify (set_waiter None);;
        modify (fun w => set_active (active (slots w) + 1) w)
      else mret tt
  | None => mret tt
  end.

(** [InputSlots.release] *)
Definition release : M world unit :=
  modify (fun w => set_active (active (slots w) - 1) w);;
  _wake_waiter.

(** [InputSlots.set_value] *)
Definition set_value (v : Z) : M world unit :=
  w ← get;
  if closed (slots w) then mret tt
  else modify (set_capacity v);; _wake_waiter.

(** The first statement of [InputSlots.close]; the loop that follows it
    is [range(self.value)] calls of [acquire], each of which may suspend. *)
Definition close_mark : M world unit :=
  modify (set_closed true).

(** The task suspended in [acquire] is cancelled: asyncio cancels the
    future it awaits, and [InputSlots] keeps the reference. *)
Definition cancel_waiter : M world unit :=
  w ← get;
  match waiter (slots w) with
  | Some f =>
      match futures w !! f with
      | Some Pending => put (set_futures (<[f := Cancelled]> (futures w)) w)
      | _ => mret tt
      end
  | None => mret tt
  end.

(** The operations a client of the semaphore can perform. *)
Inductive op : Type :=
  | OpAcquire
  | OpRelease
  | OpSetValue (v : Z)
  | OpCloseMark
  | OpCancelWaiter.

Definition run_op (o : op) : M world unit :=
  match o with
  | OpAcquire => acquire;; mret tt
  | OpRelease => release
  | OpSetValue v => set_value v
  | OpCloseMark => close_mark
  | OpCancelWaiter => cancel_waiter
  end.

(** The states of a semaphore created by [InputSlots(v)] and used through
    its methods, whether a call returned or raised. *)
Inductive reachable : world -> Prop :=
  | reach_init v : reachable (init v)
  | reach_step o w : reachable w -> reachable (run_op o w).2.

(** A parked waiter means the semaphore is full, and its future has not
    been resolved yet. *)
Definition slots_inv (w : world) : Prop :=
  forall f, waiter (slots w) = Some f ->
    value (slots w) <= active (slots w) /\
    (futures w !! f = Some Pending \/ futures w !! f = Some Cancelled).

(** The loop [for _ in range(self.value): await self.acquire()] of
    [close], with [n] iterations to go, up to its next suspension: [None]
    when the loop is over, [Some (f, n')] when an [acquire] parked on the
    future [f] with [n'] iterations left after it. When [f] is resolved
    the loop goes on with [close_loop n']. *)
Fixpoint close_loop (n : nat) : M world (option (nat * nat)) :=
  match n with
  | O => mret None
  | S n' =>
      a ← acquire;
      match a with
      | Entered => close_loop n'
      | Parked f => mret (Some (f, n'))
      end
  end.

(** [InputSlots.close], up to its first suspension. *)
Definition close : M world (option (nat * nat)) :=
  close_mark;;
  w ← get;
  close_loop (Z.to_nat (value (slots w))).

(** A semaphore being closed while [holders] callers still hold a slot
    each: the task in [close()] is parked on a future with some
    iterations left, or has returned. *)
Inductive closer : Type :=
  | Draining (f : nat) (n : nat)
  | Drained.

Record closing : Type := mkClosing {
  sem : world;
  closing_task : closer;
  holders : nat
}.

(** What happens while [close()] runs: a holder releases its slot, the
    closing task is resumed (its future must have been resolved), or
    somebody calls [set_value]. *)
Inductive closing_event : Type :=
  | HolderReleases
  | CloserResumes
  | Resized (v : Z).

Definition closer_of (r : option (nat * nat)) : closer :=
  match r with
  | Some (f, n) => Draining f n
  | None => Drained
  end.

(** One event; [None] when it cannot happen in this state or when the
    method called raised. *)
Definition closing_step (e : closing_event) (s : closing) : option closing :=
  match e with
  | HolderReleases =>
      match holders s with
      | O => None
      | S h =>
          match release (sem s) with
          | (Ok _, w') => Some (mkClosing w' (closing_task s) h)
          | (Raise _, _) => None
          end
      end
  | CloserResumes =>
      match closing_task s with
      | Draining f n =>
          match futures (sem s) !! f with
          | Some Resolved =>
              match close_loop n (sem s) with
              | (Ok r, w') => Some (mkClosing w' (closer_of r) (holders s))
              | (Raise _, _) => None
              end
          | _ => None
          end
      | Drained => None
      end
  | Resized v =>
      match set_value v (sem s) with
      | (Ok _, w') => Some (mkClosing w' (closing_task s) (holders s))
      | (Raise _, _) => None
      end
  end.

Fixpoint closing_run (events : list closing_event) (s : closing) : option closing :=
  match events with
  | [] => Some s
  | e :: rest =>
      match closing_step e s with
      | Some s' => closing_run rest s'
      | None => None
      end
  end.

(** [close()] is called on [w] while [h] callers hold a slot. *)
Definition start_closing (w : world) (h : nat) : option closing :=
  match close w with
  | (Ok r, w') => Some (mkClosing w' (closer_of r) h)
  | (Raise _, _) => None
  end.

(** The accounting of a closing semaphore of capacity [v]: [active]
    counts the holders and the slots the closing task has, which are all
    [v] but the iterations it still has to run. While the closing task
    is parked the semaphore is full, and it may be more than full: the
    holders can outnumber a capacity that was lowered before [close()]. *)
Definition closing_inv (v : Z) (s : closing) : Prop :=
  value (slots (sem s)) = v /\
  closed (slots (sem s)) = true /\
  match closing_task s with
  | Drained =>
      waiter (slots (sem s)) = None /\
      active (slots (sem s)) <= v /\
      active (slots (sem s)) = Z.of_nat (holders s) + v
  | Draining f n =>
      (futures (sem s) !! f = Some Pending /\
       waiter (slots (sem s)) = Some f /\
       v <= active (slots (sem s)) /\
       active (slots (sem s)) = Z.of_nat (holders s) + (v - Z.of_nat (S n)))
      \/
      (futures (sem s) !! f = Some Resolved /\
       waiter (slots (sem s)) = None /\
       active (slots (sem s)) <= v /\
       active (slots (sem s)) = Z.of_nat (holders s) + (v - Z.of_nat n))
  end.

End Slots.

(** ** Values, dictionaries and the collaborators of the manager *)

(** The Python values that flow through the manager. User values are
    opaque to it, except that it tells a list from anything else. *)
#[warnings="-register-all"]
Inductive pyval : Type :=
  | PyNone
  | PyInt (n : Z)
  | PyStr (s : string)
  | PyBytes (b : list Byte.byte)
  | PyList (l : list pyval).

(** A Python [dict] with [str] keys: the items in insertion order. *)
Definition dict (V : Type) : Type := list (string * V).

(** [k in d] *)
Fixpoint dict_has {V : Type} (k : string) (d : dict V) : bool :=
  match d with
  | [] => false
  | (k', _) :: d' => if String.eqb k k' then true else dict_has k d'
  end.

(** [d[k] = v]: an existing key keeps its place. *)
Fixpoint dict_set {V : Type} (k : string) (v : V) (d : dict V) : dict V :=
  match d with
  | [] => [(k, v)]
  | (k', v') :: d' =>
      if String.eqb k k' then (k, v) :: d' else (k', v') :: dict_set k v d'
  end.

(** [d[k]] *)
Fixpoint dict_get {V : Type} (k : string) (d : dict V) : res V :=
  match d with
  | [] => Raise (KeyError k)
  | (k', v) :: d' => if String.eqb k k' then Ok v else dict_get k d'
  end.

(** [{k: v for (k, v) in items}] *)
Definition dict_of_items {V : Type} (items : list (string * V)) : dict V :=
  foldl (fun d kv => dict_set kv.1 kv.2 d) [] items.

(** [x in l] for a list of strings. *)
Definition str_in (x : string) (l : list string) : bool :=
  existsb (String.eqb x) l.

(** The external collaborators: the codec, the blob store, the
    interpreter's [repr] and [traceback], and the constants imported from
    [modal._utils.blob_utils] and [modal.client].
    [serialize_SerializationError exc serialization_exc] is the pickle of
    the [SerializationError] that [serialize_exception] falls back to;
    [serialize_traceback exc] stands for the method of that name, which
    only combines [extract_traceback] and [serialize]; the blob store and
    the transport retry on their own and are taken to succeed. *)
Class Host : Type := {
  MAX_OBJECT_SIZE_BYTES : Z;
  HEARTBEAT_INTERVAL : Q;
  deserialize : list Byte.byte -> res (list pyval * dict pyval);
  serialize_data_format : pyval -> Z -> list Byte.byte;
  serialize : exn -> res (list Byte.byte);
  serialize_SerializationError : exn -> exn -> list Byte.byte;
  serialize_traceback : exn -> option (list Byte.byte) * option (list Byte.byte);
  repr : exn -> string;
  format_exc : exn -> string;
  blob_upload : list Byte.byte -> string;
  blob_download : string -> res (list Byte.byte)
}.

(** ** [IOContext] *)

Module Ctx.

(** [api_pb2.FunctionInput]: the arguments are inline or in a blob. *)
Inductive args_oneof : Type :=
  | ArgsUnset
  | Args (b : list Byte.byte)
  | ArgsBlobId (id : string).

Record FunctionInput : Type := mkInput {
  input_args : args_oneof;
  method_name : string;
  final_input : bool
}.

(** [input.args]: empty bytes unless the inline arm is set. *)
Definition args (i : FunctionInput) : list Byte.byte :=
  match input_args i with
  | Args b => b
  | _ => []
  end.

(** [FinalizedFunction]: the user callable with the name and the parameter
    names that [inspect.signature] reports for it. *)
Record FinalizedFunction : Type := mkFinalized {
  callable_name : string;
  parameters : list string;
  callable : list pyval -> dict pyval -> res pyval
}.

Record IOContext : Type := mkCtx {
  input_ids : list string;
  retry_counts : list Z;
  function_call_ids : list string;
  function_inputs : list FunctionInput;
  finalized_function : FinalizedFunction;
  _is_batched : bool;
  _cancel_issued : bool;
  _cancel_callback : option nat
}.

(** What a call leaves behind outside the context: a callback run (the
    callback is identified by a token) and the warnings logged. *)
Inductive effect : Type :=
  | Called (cb : nat)
  | WarnCancellation (ids : list string)
  | WarnCouldNotCancel.

(** [IOContext.__init__]; the class attributes give the two defaults. *)
Definition new (ids : list string) (retries : list Z) (fcids : list string)
    (ff : FinalizedFunction) (inputs : list FunctionInput) (is_batched : bool) : IOContext :=
  mkCtx ids retries fcids inputs ff is_batched false None.

(** [IOContext.set_cancel_callback] *)
Definition set_cancel_callback (cb : nat) (c : IOContext) : IOContext :=
  mkCtx (input_ids c) (retry_counts c) (function_call_ids c) (function_inputs c)
        (finalized_function c) (_is_batched c) (_cancel_issued c) (Some cb).

(** [IOContext.cancel]: the context after the call and what the call
    did. The callback is taken to return normally. *)
Definition cancel (c : IOContext) : IOContext * list effect :=
  if _cancel_issued c then (c, [])
  else
    match _cancel_callback c with
    | Some cb =>
        (mkCtx (input_ids c) (retry_counts c) (function_call_ids c) (function_inputs c)
               (finalized_function c) (_is_batched c) true (_cancel_callback c),
         [WarnCancellation (input_ids c); Called cb])
    | None => (c, [WarnCouldNotCancel])
    end.

(** [n] calls of [cancel] in a row: the context after the last one and
    everything the calls did. *)
Fixpoint cancel_n (n : nat) (c : IOContext) : IOContext * list effect :=
  match n with
  | O => (c, [])
  | S n' =>
      let (c1, e1) := cancel c in
      let (c2, e2) := cancel_n n' c1 in
      (c2, e1 ++ e2)
  end.

(** The callbacks run, in order. *)
Definition calls (effects : list effect) : list nat :=
  omap (fun e => match e with Called cb => Some cb | _ => None end) effects.

Section WithHost.
Context `{Host}.

(** [_populate_input_blobs] *)
Definition _populate_input_blobs (input : FunctionInput) : res FunctionInput :=
  match input_args input with
  | ArgsBlobId id =>
      a ← blob_download id;
      mret (mkInput (Args a) (method_name input) (final_input input))
  | _ => mret input
  end.

(** [IOContext.create] *)
Definition create (finalized_functions : gmap string FinalizedFunction)
    (inputs : list (string * Z * string * FunctionInput)) (is_batched : bool) : res IOContext :=
  if negb (if is_batched then 1 <=? len inputs else len inputs =? 1) then Raise AssertionError
  else
    let ids := map (fun i => i.1.1.1) inputs in
    let retries := map (fun i => i.1.1.2) inputs in
    let fcids := map (fun i => i.1.2) inputs in
    function_inputs ← mapM _populate_input_blobs (map snd inputs);
    match function_inputs with
    | [] => Raise IndexError
    | first :: _ =>
        let name := method_name first in
        if negb (forallb (fun i => String.eqb name (method_name i)) function_inputs)
        then Raise AssertionError
        else
          match finalized_functions !! name with
          | None => Raise (KeyError name)
          | Some ff => mret (new ids retries fcids ff function_inputs is_batched)
          end
    end.

(** The list comprehension at the head of [_args_and_kwargs]. *)
Definition deserialized_args (c : IOContext) : res (list (list pyval * dict pyval)) :=
  mapM (fun input =>
          match args input with
          | [] => Ok ([], [])
          | b => deserialize b
          end)
       (function_inputs c).

(** [kwargs_by_inputs[i][k] = v] *)
Definition kwargs_set (i : nat) (k : string) (v : pyval)
    (kwargs_by_inputs : list (dict pyval)) : res (list (dict pyval)) :=
  match kwargs_by_inputs !! i with
  | Some d => Ok (<[i := dict_set k v d]> kwargs_by_inputs)
  | None => Raise IndexError
  end.

(** [k in kwargs_by_inputs[i]] *)
Definition kwargs_has (i : nat) (k : string)
    (kwargs_by_inputs : list (dict pyval)) : res bool :=
  match kwargs_by_inputs !! i with
  | Some d => Ok (dict_has k d)
  | None => Raise IndexError
  end.

(** [for j, arg in enumerate(args): kwargs_by_inputs[i][param_names[j]] = arg],
    from position [j] on. *)
Fixpoint set_positional (param_names : list string) (i j : nat) (args : list pyval)
    (kwargs_by_inputs : list (dict pyval)) : res (list (dict pyval)) :=
  match args with
  | [] => Ok kwargs_by_inputs
  | arg :: rest =>
      match param_names !! j with
      | None => Raise IndexError
      | Some p =>
          kbi ← kwargs_set i p arg kwargs_by_inputs;
          set_positional param_names i (S j) rest kbi
      end
  end.

Definition unexpected_keyword (func_name k : string) : exn :=
  InvalidError ("Modal batched function " ++ func_name ++
    " got unexpected keyword argument " ++ k ++ " in one invocation in the batch.").

Definition multiple_values (func_name k : string) : exn :=
  InvalidError ("Modal batched function " ++ func_name ++
    " got multiple values for argument " ++ k ++ " in one invocation in the batch.").

Definition wrong_count (func_name : string) (declared given : Z) : exn :=
  InvalidError ("Modal batched function " ++ func_name ++ " takes " ++
    str_of_Z declared ++ " positional arguments, but one invocation in the batch has " ++
    str_of_Z given ++ ".").

(** [for k, v in kwargs.items(): ...] *)
Fixpoint set_keyword (func_name : string) (param_names : list string) (i : nat)
    (kwargs : dict pyval) (kwargs_by_inputs : list (dict pyval)) : res (list (dict pyval)) :=
  match kwargs with
  | [] => Ok kwargs_by_inputs
  | (k, v) :: rest =>
      if negb (str_in k param_names) then Raise (unexpected_keyword func_name k)
      else
        dup ← kwargs_has i k kwargs_by_inputs;
        if dup : bool then Raise (multiple_values func_name k)
        else
          kbi ← kwargs_set i k v kwargs_by_inputs;
          set_keyword func_name param_names i rest kbi
  end.

(** [for i, (args, kwargs) in enumerate(deserialized_args): ...], from
    input [i] on. *)
Fixpoint aggregate (func_name : string) (param_names : list string) (i : nat)
    (das : list (list pyval * dict pyval))
    (kwargs_by_inputs : list (dict pyval)) : res (list (dict pyval)) :=
  match das with
  | [] => Ok kwargs_by_inputs
  | (args, kwargs) :: rest =>
      let num_params := len args + len kwargs in
      if negb (num_params =? len param_names)
      then Raise (wrong_count func_name (len param_names) num_params)
      else
        kbi ← set_positional param_names i 0 args kwargs_by_inputs;
        kbi ← set_keyword func_name param_names i kwargs kbi;
        aggregate func_name param_names (S i) rest kbi
  end.

(** [IOContext._args_and_kwargs] *)
Definition _args_and_kwargs (c : IOContext) : res (list pyval * dict pyval) :=
  das ← deserialized_args c;
  if negb (_is_batched c) then
    match das with
    | first :: _ => Ok first
    | [] => Raise IndexError
    end
  else
    let func_name := callable_name (finalized_function c) in
    let param_names := parameters (finalized_function c) in
    let kwargs_by_inputs := replicate (length (input_ids c)) ([] : dict pyval) in
    kbi ← aggregate func_name param_names 0 das kwargs_by_inputs;
    items ← mapM (fun param_name =>
                    l ← mapM (dict_get param_name) kbi;
                    mret (param_name, PyList l))
                 param_names;
    mret ([], dict_of_items items).

(** [IOContext.call_finalized_function] *)
Definition call_finalized_function (c : IOContext) : res pyval :=
  ak ← _args_and_kwargs c;
  callable (finalized_function c) ak.1 ak.2.

End WithHost.



(** [IOContext.validate_output_data] *)
Definition validate_output_data (c : IOContext) (data : pyval) : res (list pyval) :=
  if negb (_is_batched c) then Ok [data]
  else
    let function_name := callable_name (finalized_function c) in
    match data with
    | PyList l =>
        if negb (len l =? len (input_ids c)) then
          Raise (InvalidError ("Output of batched function " ++ function_name ++
                   " must be a list of equal length as its inputs."))
        else Ok l
    | _ =>
        Raise (InvalidError ("Output of batched function " ++ function_name ++
                 " must be a list."))
    end.

End Ctx.

(** ** [_ContainerIOManager] *)

Module Manager.

Inductive status : Type :=
  | GENERIC_STATUS_SUCCESS
  | GENERIC_STATUS_FAILURE
  | GENERIC_STATUS_TERMINATED.

(** The payload of a result or of a data chunk: inline bytes or a blob. *)
Inductive data_oneof : Type :=
  | DataUnset
  | Data (b : list Byte.byte)
  | DataBlobId (id : string).

Record GenericResult : Type := mkResult {
  result_status : status;
  result_data : data_oneof;
  exception : string;
  traceback : string;
  serialized_tb : list Byte.byte;
  tb_line_cache : list Byte.byte
}.

Record FunctionPutOutputsItem : Type := mkItem {
  input_id : string;
  input_started_at : Q;
  output_created_at : Q;
  result : GenericResult;
  data_format : Z;
  retry_count : Z
}.

Record DataChunk : Type := mkChunk {
  chunk_data_format : Z;
  index : Z;
  chunk_data : data_oneof
}.

(** The requests the manager puts on the wire. *)
Inductive rpc : Type :=
  | FunctionPutOutputs (outputs : list FunctionPutOutputsItem)
  | FunctionCallPutDataOut (function_call_id : string) (data_chunks : list DataChunk).

(** What an observer of the container sees, in order. *)
Inductive event : Type :=
  | Rpc (r : rpc)
  | Sleep (d : Q)
  | Effect (e : Ctx.effect)
  | WarnHeartbeatFailed
  | WarnHeartbeatTrouble.

(** The manager's fields that the modelled methods read or write. The
    [IOContext] objects live in [heap]; [current_inputs] maps an input id
    to a reference, and the ids of one batch share a reference. The clock
    is an oracle: [clock n] is the n-th reading taken. *)
Record manager : Type := mkManager {
  calls_completed : Z;
  total_user_time : Q;
  current_inputs : gmap string nat;
  heap : list Ctx.IOContext;
  _input_slots : Slots.world;
  _max_concurrency : Z;
  _target_concurrency : Z;
  _stop_concurrency_loop : bool;
  clock : nat -> Q;
  readings : nat;
  trace : list event
}.

Definition set_calls_completed (x : Z) (m : manager) : manager :=
  mkManager x (total_user_time m) (current_inputs m) (heap m) (_input_slots m)
    (_max_concurrency m) (_target_concurrency m) (_stop_concurrency_loop m)
    (clock m) (readings m) (trace m).
Definition set_total_user_time (x : Q) (m : manager) : manager :=
  mkManager (calls_completed m) x (current_inputs m) (heap m) (_input_slots m)
    (_max_concurrency m) (_target_concurrency m) (_stop_concurrency_loop m)
    (clock m) (readings m) (trace m).
Definition set_current_inputs (x : gmap string nat) (m : manager) : manager :=
  mkManager (calls_completed m) (total_user_time m) x (heap m) (_input_slots m)
    (_max_concurrency m) (_target_concurrency m) (_stop_concurrency_loop m)
    (clock m) (readings m) (trace m).
Definition set_heap (x : list Ctx.IOContext) (m : manager) : manager :=
  mkManager (calls_completed m) (total_user_time m) (current_inputs m) x (_input_slots m)
    (_max_concurrency m) (_target_concurrency m) (_stop_concurrency_loop m)
    (clock m) (readings m) (trace m).
Definition set_input_slots (x : Slots.world) (m : manager) : manager :=
  mkManager (calls_completed m) (total_user_time m) (current_inputs m) (heap m) x
    (_max_concurrency m) (_target_concurrency m) (_stop_concurrency_loop m)
    (clock m) (readings m) (trace m).
Definition set_stop_concurrency_loop (x : bool) (m : manager) : manager :=
  mkManager (calls_completed m) (total_user_time m) (current_inputs m) (heap m)
    (_input_slots m) (_max_concurrency m) (_target_concurrency m) x
    (clock m) (readings m) (trace m).
Definition set_readings (x : nat) (m : manager) : manager :=
  mkManager (calls_completed m) (total_user_time m) (current_inputs m) (heap m)
    (_input_slots m) (_max_concurrency m) (_target_concurrency m)
    (_stop_concurrency_loop m) (clock m) x (trace m).
Definition set_trace (x : list event) (m : manager) : manager :=
  mkManager (calls_completed m) (total_user_time m) (current_inputs m) (heap m)
    (_input_slots m) (_max_concurrency m) (_target_concurrency m)
    (_stop_concurrency_loop m) (clock m) (readings m) x.

(** [time.monotonic()] and [time.time()]: the next reading of the clock. *)
Definition now : M manager Q :=
  m ← get;
  put (set_readings (S (readings m)) m);;
  mret (clock m (readings m)).

Definition emit (e : event) : M manager unit :=
  modify (fun m => set_trace (trace m ++ [e]) m).

(** [await asyncio.sleep(d)] *)
Definition sleep (d : Q) : M manager unit := emit (Sleep d).

(** A method of [self._input_slots]. *)
Definition on_slots {A : Type} (c : M Slots.world A) : M manager A :=
  zoom _input_slots set_input_slots c.

(** [try: c except ...: h e], for the exceptions that [catches] selects. *)
Definition try_except {S A : Type} (c : M S A) (catches : exn -> bool)
    (h : exn -> M S A) : M S A :=
  fun s =>
    match c s with
    | (Raise e, s') => if catches e then h e s' else (Raise e, s')
    | r => r
    end.

(** [isinstance(e, Exception)]: the cancellations, [KeyboardInterrupt]
    and [GeneratorExit] derive from [BaseException] only. *)
Definition is_Exception (e : exn) : bool :=
  match e with
  | InputCancellation | CancelledError | KeyboardInterrupt | GeneratorExit => false
  | _ => true
  end.

(** [s[:k]] *)
Definition str_prefix (k : Z) (s : string) : string :=
  if 0 <=? k then String.substring 0 (Z.to_nat k) s
  else String.substring 0 (Z.to_nat (strlen s + k)) s.

(** [range(0, n, step)] for a positive [step]. *)
Definition range_step (n step : nat) : list nat :=
  map (fun k => (k * step)%nat) (seq 0 (Nat.div (n + step - 1) step)).

(** [l[i : i + n]] *)
Definition slice {A : Type} (i n : nat) (l : list A) : list A :=
  take n (drop i l).

(** [zip(a, b, c)] *)
Fixpoint zip3 {A B C : Type} (a : list A) (b : list B) (c : list C) : list (A * B * C) :=
  match a, b, c with
  | x :: a', y :: b', z :: c' => (x, y, z) :: zip3 a' b' c'
  | _, _, _ => []
  end.

(** The outputs of the FunctionPutOutputs requests among some events, in
    the order sent. *)
Definition put_outputs_items (events : list event) : list FunctionPutOutputsItem :=
  concat (omap (fun e => match e with
                         | Rpc (FunctionPutOutputs outputs) => Some outputs
                         | _ => None
                         end) events).

(** The FunctionPutOutputs requests among some events, request by
    request. *)
Definition put_outputs_requests (events : list event) : list (list FunctionPutOutputsItem) :=
  omap (fun e => match e with
                 | Rpc (FunctionPutOutputs outputs) => Some outputs
                 | _ => None
                 end) events.

(** The sleeps among some events, in order. *)
Definition sleeps (events : list event) : list Q :=
  omap (fun e => match e with Sleep d => Some d | _ => None end) events.

(** The registration of a new context in [run_inputs_outputs]:
    [for input_id in io_context.input_ids: self.current_inputs[input_id] = io_context].
    The context is one object, referenced under each of its input ids. *)
Definition register_context (io_context : Ctx.IOContext) : M manager nat :=
  m ← get;
  let r := length (heap m) in
  put (set_heap (heap m ++ [io_context]) m);;
  for_each (Ctx.input_ids io_context)
    (fun input_id =>
       modify (fun m => set_current_inputs (<[input_id := r]> (current_inputs m)) m));;
  mret r.

(** The concurrency settings computed by [_init] from the container
    arguments: [(max_concurrency, target_concurrency)]. The two fields
    are unsigned in the protocol, and [x or y] is [y] when [x] is 0. *)
Definition concurrency_settings (pty_shell : bool)
    (max_concurrent_inputs target_concurrent_inputs : N) : Z * Z :=
  if pty_shell then (1, 1)
  else
    let max_concurrency :=
      if (max_concurrent_inputs =? 0)%N then 1 else Z.of_N max_concurrent_inputs in
    let target_concurrency :=
      if (target_concurrent_inputs =? 0)%N then max_concurrency
      else Z.of_N target_concurrent_inputs in
    (max_concurrency, target_concurrency).

(** [_init], for the fields of [manager]; the clock is the host's. *)
Definition _init (pty_shell : bool) (max_concurrent_inputs target_concurrent_inputs : N)
    (host_clock : nat -> Q) : manager :=
  let settings := concurrency_settings pty_shell max_concurrent_inputs target_concurrent_inputs in
  mkManager 0 0 ∅ [] (Slots.init settings.2) settings.1 settings.2 false host_clock 0 [].

(** [input_concurrency_enabled] *)
Definition input_concurrency_enabled (m : manager) : bool :=
  Z.max (_max_concurrency m) (_target_concurrency m) >? 1.

(** The [data_chunks] of the FunctionCallPutDataOut requests among some
    events, request by request. *)
Definition data_out_requests (events : list event) : list (list DataChunk) :=
  omap (fun e => match e with
                 | Rpc (FunctionCallPutDataOut _ data_chunks) => Some data_chunks
                 | _ => None
                 end) events.

(** The requests carry at least one chunk each, and their chunks are
    numbered consecutively from [i] on. *)
Fixpoint consecutive_from (i : Z) (requests : list (list DataChunk)) : Prop :=
  match requests with
  | [] => True
  | r :: rest =>
      r <> [] /\
      map index r = map (fun j => i + Z.of_nat j) (seq 0 (length r)) /\
      consecutive_from (i + len r) rest
  end.

Section WithHost.
Context `{Host}.

(** [format_blob_data] *)
Definition format_blob_data (data : list Byte.byte) : data_oneof :=
  if len data >? MAX_OBJECT_SIZE_BYTES then DataBlobId (blob_upload data)
  else Data data.

(** [_push_outputs]: [retry_transient_errors] retries each request until
    the server accepts it, so each request is seen once. *)
Definition _push_outputs (io_context : Ctx.IOContext) (started_at : Q) (fmt : Z)
    (results : list GenericResult) : M manager unit :=
  created ← now;
  let outputs :=
    map (fun t => match t with
                  | (id, retry, r) => mkItem id started_at created r fmt retry
                  end)
        (zip3 (Ctx.input_ids io_context) (Ctx.retry_counts io_context) results) in
  let output_batch_size := 20%nat in
  for_each (range_step (length outputs) output_batch_size)
    (fun i => emit (Rpc (FunctionPutOutputs (slice i output_batch_size outputs)))).

(** [serialize_exception] *)
Definition serialize_exception (exc : exn) : list Byte.byte :=
  match serialize exc with
  | Ok b => b
  | Raise serialization_exc => serialize_SerializationError exc serialization_exc
  end.

(** [self.current_inputs.pop(input_id)] *)
Definition pop_current_input (id : string) : M manager unit :=
  m ← get;
  match current_inputs m !! id with
  | Some _ => put (set_current_inputs (delete id (current_inputs m)) m)
  | None => raise (KeyError id)
  end.

(** [exit_context] *)
Definition exit_context (started_at : Q) (input_ids : list string) : M manager unit :=
  t ← now;
  modify (fun m => set_total_user_time (total_user_time m + (t - started_at))%Q m);;
  modify (fun m => set_calls_completed (calls_completed m + 1) m);;
  for_each input_ids pop_current_input;;
  on_slots Slots.release.

(** The text sent as the [exception] field of a failure. *)
Definition trimmed_repr (repr_exc : string) : string :=
  if strlen repr_exc >=? MAX_OBJECT_SIZE_BYTES then
    let trimmed_bytes := strlen repr_exc - MAX_OBJECT_SIZE_BYTES - 1000 in
    let repr_exc := str_prefix (MAX_OBJECT_SIZE_BYTES - 1000) repr_exc in
    (repr_exc ++ "..." ++ String "010" "Trimmed " ++ str_of_Z trimmed_bytes
       ++ " bytes from original exception")%string
  else repr_exc.

(** The result built in the last [except] clause of
    [handle_input_exception]. *)
Definition failure_result (exc : exn) : GenericResult :=
  let tb := serialize_traceback exc in
  let repr_exc := trimmed_repr (repr exc) in
  let data := serialize_exception exc in
  mkResult GENERIC_STATUS_FAILURE (format_blob_data data) repr_exc (format_exc exc)
    (default [] tb.1) (default [] tb.2).

Definition terminated_result : GenericResult :=
  mkResult GENERIC_STATUS_TERMINATED DataUnset "" "" [] [].

Definition DATA_FORMAT_PICKLE : Z := 1.

(** One failure output per input of the context, all carrying the result
    built from the exception [exc]. *)
Definition failure_items (io_context : Ctx.IOContext) (started_at created : Q)
    (exc : exn) : list FunctionPutOutputsItem :=
  map (fun p => mkItem p.1 started_at created (failure_result exc) DATA_FORMAT_PICKLE p.2)
      (zip (Ctx.input_ids io_context) (Ctx.retry_counts io_context)).

(** The [except] clauses of [handle_input_exception]. *)
Definition on_input_exception (io_context : Ctx.IOContext) (started_at : Q)
    (exc : exn) : M manager unit :=
  match exc with
  | KeyboardInterrupt | GeneratorExit => raise exc
  | InputCancellation | CancelledError =>
      let results := map (fun _ => terminated_result) (Ctx.input_ids io_context) in
      _push_outputs io_context started_at DATA_FORMAT_PICKLE results;;
      exit_context started_at (Ctx.input_ids io_context)
  | _ =>
      let r := failure_result exc in
      let results := map (fun _ => r) (Ctx.input_ids io_context) in
      _push_outputs io_context started_at DATA_FORMAT_PICKLE results;;
      exit_context started_at (Ctx.input_ids io_context)
  end.

(** [with self.handle_input_exception(io_context, started_at): body] *)
Definition handle_input_exception (io_context : Ctx.IOContext) (started_at : Q)
    (body : M manager unit) : M manager unit :=
  try_except body (fun _ => true) (on_input_exception io_context started_at).

(** [push_outputs] *)
Definition push_outputs (io_context : Ctx.IOContext) (started_at : Q)
    (data : pyval) (fmt : Z) : M manager unit :=
  data ← lift_res (Ctx.validate_output_data io_context data);
  let formatted_data :=
    map (fun d => format_blob_data (serialize_data_format d fmt)) data in
  let results :=
    map (fun d => mkResult GENERIC_STATUS_SUCCESS d "" "" [] []) formatted_data in
  _push_outputs io_context started_at fmt results;;
  exit_context started_at (Ctx.input_ids io_context).

(** *** The heartbeat loop *)

(** [api_pb2.ContainerHeartbeatResponse]: [cancel_input_event] is present
    or not ([HasField]), and carries input ids when present. *)
Record ContainerHeartbeatResponse : Type := mkHeartbeatResponse {
  cancel_input_event : option (list string)
}.

(** [if input_id in self.current_inputs: self.current_inputs[input_id].cancel()] *)
Definition cancel_input (input_id : string) : M manager unit :=
  m ← get;
  match current_inputs m !! input_id with
  | Some r =>
      match heap m !! r with
      | Some c =>
          let (c', effects) := Ctx.cancel c in
          put (set_trace (trace m ++ map Effect effects)
                 (set_heap (<[r := c']> (heap m)) m))
      | None => mret tt
      end
  | None => mret tt
  end.

(** [_heartbeat_handle_cancellations], from the arrival of the response
    (or of the exception that [retry_transient_errors] gave up with); the
    part under the heartbeat condition is the subject of [Interlock]. *)
Definition _heartbeat_handle_cancellations
    (response : res ContainerHeartbeatResponse) : M manager bool :=
  response ← lift_res response;
  match cancel_input_event response with
  | Some input_ids_to_cancel =>
      match input_ids_to_cancel with
      | [] => mret tt
      | _ => for_each input_ids_to_cancel cancel_input
      end;;
      mret true
  | None => mret false
  end.

(** How the body of [while 1] ends. *)
Inductive flow : Type :=
  | Continue
  | Break
  | FallThrough.

(** One iteration of the [while 1] of [_run_heartbeat_loop]; it returns
    how the iteration ended and the new [t_last_success]. *)
Definition heartbeat_tick (response : res ContainerHeartbeatResponse)
    (t_last_success : Q) : M manager (flow * Q) :=
  t0 ← now;
  r ← try_except
        (got_cancellation ← _heartbeat_handle_cancellations response;
         t_last_success ← now;
         if got_cancellation : bool then
           sleep 1;; mret (Continue, t_last_success)
         else mret (FallThrough, t_last_success))
        is_Exception
        (fun exc =>
           match exc with
           | ClientClosed => mret (Break, t_last_success)
           | _ =>
               t1 ← now;
               let attempt_dur := (t1 - t0)%Q in
               t2 ← now;
               let time_since_heartbeat_success := (t2 - t_last_success)%Q in
               emit WarnHeartbeatFailed;;
               (if negb (Qle_bool time_since_heartbeat_success (HEARTBEAT_INTERVAL * 50))
                then emit WarnHeartbeatTrouble else mret tt);;
               mret (FallThrough, t_last_success)
           end);
  match r.1 with
  | FallThrough =>
      t ← now;
      let heartbeat_duration := (t - t0)%Q in
      let time_until_next_heartbeat := Qmax 0 (HEARTBEAT_INTERVAL - heartbeat_duration) in
      sleep time_until_next_heartbeat;;
      mret (Continue, r.2)
  | _ => mret r
  end.

(** The [while 1] loop, for the responses of as many heartbeats. *)
Fixpoint heartbeat_loop (responses : list (res ContainerHeartbeatResponse))
    (t_last_success : Q) : M manager unit :=
  match responses with
  | [] => mret tt
  | response :: rest =>
      r ← heartbeat_tick response t_last_success;
      match r.1 with
      | Break => mret tt
      | _ => heartbeat_loop rest r.2
      end
  end.

(** [_run_heartbeat_loop] *)
Definition _run_heartbeat_loop (responses : list (res ContainerHeartbeatResponse)) :
    M manager unit :=
  t_last_success ← now;
  heartbeat_loop responses t_last_success.

(** *** Concurrency control *)

Definition DYNAMIC_CONCURRENCY_INTERVAL_SECS : Q := 3.

(** The [try] statement in the body of [_dynamic_concurrency_loop], from
    the arrival of the response. *)
Definition dynamic_concurrency_update (resp : res Z) : M manager unit :=
  try_except
    (concurrency ← lift_res resp;
     m ← get;
     if negb (concurrency =? Slots.value (Slots.slots (_input_slots m)))
        && negb (_stop_concurrency_loop m)
     then on_slots (Slots.set_value concurrency)
     else mret tt)
    is_Exception
    (fun _ => mret tt).

(** [_dynamic_concurrency_loop], for the responses of as many requests. *)
Fixpoint _dynamic_concurrency_loop (responses : list (res Z)) : M manager unit :=
  match responses with
  | [] => mret tt
  | resp :: rest =>
      m ← get;
      if _stop_concurrency_loop m then mret tt
      else
        dynamic_concurrency_update resp;;
        sleep DYNAMIC_CONCURRENCY_INTERVAL_SECS;;
        _dynamic_concurrency_loop rest
  end.

(** [get_input_concurrency], on the singleton. *)
Definition get_input_concurrency : M (option manager) Z :=
  fun singleton =>
    match singleton with
    | None => (Raise AssertionError, singleton)
    | Some io_manager =>
        let s := Slots.slots (_input_slots io_manager) in
        (Ok (Z.max (Slots.active s) (Slots.value s)), singleton)
    end.

(** [set_input_concurrency], on the singleton. *)
Definition set_input_concurrency (concurrency : Z) : M (option manager) unit :=
  fun singleton =>
    match singleton with
    | None => (Raise AssertionError, singleton)
    | Some io_manager =>
        let (r, io_manager') :=
          (modify (set_stop_concurrency_loop true);;
           let concurrency := Z.min concurrency (_max_concurrency io_manager) in
           on_slots (Slots.set_value concurrency)) io_manager in
        (r, Some io_manager')
    end.

(** *** Generator outputs *)

(** [put_data_out] *)
Definition put_data_out (function_call_id : string) (start_index : Z) (fmt : Z)
    (serialized_messages : list (list Byte.byte)) : M manager unit :=
  let data_chunks :=
    imap (fun i message_bytes =>
            mkChunk fmt (start_index + Z.of_nat i)
              (if len message_bytes >? MAX_OBJECT_SIZE_BYTES
               then DataBlobId (blob_upload message_bytes)
               else Data message_bytes))
         serialized_messages in
  emit (Rpc (FunctionCallPutDataOut function_call_id data_chunks)).

(** What successive reads of [message_rx] return: a message, the stop
    sentinel, or, for [get_nowait], nothing. *)
Inductive queue_item : Type :=
  | Message (m : pyval)
  | GENERATOR_STOP_SENTINEL
  | QueueEmpty.

(** The inner [while total_size < 16 MiB] loop: the messages collected,
    whether the sentinel was received, and the reads still to come. *)
Fixpoint drain (fmt : Z) (reads : list queue_item)
    (serialized_messages : list (list Byte.byte)) (total_size : Z) :
    list (list Byte.byte) * bool * list queue_item :=
  match reads with
  | [] => (serialized_messages, false, [])
  | item :: rest =>
      if total_size <? 16 * 1024 * 1024 then
        match item with
        | QueueEmpty => (serialized_messages, false, rest)
        | GENERATOR_STOP_SENTINEL => (serialized_messages, true, rest)
        | Message message =>
            let b := serialize_data_format message fmt in
            drain fmt rest (serialized_messages ++ [b]) (total_size + (len b + 512))
        end
      else (serialized_messages, false, reads)
  end.

Definition inspect {A : Type} (a : A) : {b : A | a = b} := exist _ a eq_refl.

(** Where the task is once the reads have been consumed: it has left its
    loop and returned, or it is suspended in [await message_rx.get()],
    waiting for a message that has not come. *)
Inductive task_state : Type :=
  | TaskReturned
  | AwaitingGet.

(** The [while not received_sentinel] loop of [generator_output_task],
    from the value [index] on. A blocking [get()] waits through the
    moments at which the queue is empty; when the reads run out without
    the stop sentinel the task has not returned: it is waiting in
    [get()]. *)
Equations? generator_output_loop (function_call_id : string) (fmt : Z)
    (reads : list queue_item) (index : Z) : M manager task_state
    by wf (length reads) lt :=
  generator_output_loop fcid fmt [] index := mret AwaitingGet;
  generator_output_loop fcid fmt (QueueEmpty :: rest) index :=
    generator_output_loop fcid fmt rest index;
  generator_output_loop fcid fmt (GENERATOR_STOP_SENTINEL :: rest) index :=
    mret TaskReturned;
  generator_output_loop fcid fmt (Message message :: rest) index
    with inspect (drain fmt rest [serialize_data_format message fmt]
                    (len (serialize_data_format message fmt) + 512)) := {
    | exist _ (serialized_messages, received_sentinel, rest') Hdrain :=
        (if index =? 1 then sleep (1 # 1000) else mret tt);;
        put_data_out fcid index fmt serialized_messages;;
        if received_sentinel then mret TaskReturned
        else generator_output_loop fcid fmt rest' (index + len serialized_messages) }.
Proof.
  assert (Hlen : forall rs ms ts ms' b rs',
             drain fmt rs ms ts = (ms', b, rs') -> (length rs' <= length rs)%nat).
  { induction rs as [|item rs IH]; intros ms ts ms' b rs' Hd; simpl in Hd.
    - injection Hd as _ _ <-. simpl. lia.
    - destruct (ts <? 16 * 1024 * 1024).
      + destruct item.
        * apply IH in Hd. simpl. lia.
        * injection Hd as _ _ <-. simpl. lia.
        * injection Hd as _ _ <-. simpl. lia.
      + injection Hd as _ _ <-. simpl. lia. }
  apply Hlen in Hdrain. lia.
Qed.

(** The messages that a sequence of reads of the queue delivers before
    the stop sentinel. *)
Fixpoint messages_before_stop (reads : list queue_item) : list pyval :=
  match reads with
  | [] => []
  | Message m :: rest => m :: messages_before_stop rest
  | QueueEmpty :: rest => messages_before_stop rest
  | GENERATOR_STOP_SENTINEL :: _ => []
  end.

(** What [put_data_out] puts in the chunk of a serialized message. *)
Definition chunk_payload (message_bytes : list Byte.byte) : data_oneof :=
  if len message_bytes >? MAX_OBJECT_SIZE_BYTES
  then DataBlobId (blob_upload message_bytes)
  else Data message_bytes.

(** The estimate of [generator_output_task] for the size of a request. *)
Definition estimated_size (serialized_messages : list (list Byte.byte)) : Z :=
  foldr (fun b acc => len b + 512 + acc) 0 serialized_messages.

(** [generator_output_task], for the reads of the queue that have
    been served so far. *)
Definition generator_output_task (function_call_id : string) (fmt : Z)
    (reads : list queue_item) : M manager task_state :=
  let index := 1 in
  generator_output_loop function_call_id fmt reads index.

End WithHost.

End Manager.

(** ** The input fetcher *)

Module Fetcher.
Import Manager.

(** [api_pb2.FunctionGetInputsItem] and [api_pb2.FunctionGetInputsResponse] *)
Record FunctionGetInputsItem : Type := mkGetItem {
  item_input_id : string;
  item_retry_count : Z;
  item_function_call_id : string;
  item_input : Ctx.FunctionInput;
  kill_switch : bool
}.

Record FunctionGetInputsResponse : Type := mkGetInputs {
  rate_limit_sleep_duration : Q;
  inputs : list FunctionGetInputsItem
}.

(** The tuple appended to [inputs] for an item. *)
Definition as_input (item : FunctionGetInputsItem)
    : string * Z * string * Ctx.FunctionInput :=
  (item_input_id item, item_retry_count item, item_function_call_id item, item_input item).

(** [for item in response.inputs: ...], with what was collected so far:
    [None] when a kill switch item makes the generator return, else the
    inputs collected and [final_input_received]. *)
Fixpoint collect (items : list FunctionGetInputsItem)
    (collected : list (string * Z * string * Ctx.FunctionInput))
    : option (list (string * Z * string * Ctx.FunctionInput) * bool) :=
  match items with
  | [] => Some (collected, false)
  | item :: rest =>
      if kill_switch item then None
      else
        let collected := collected ++ [as_input item] in
        if Ctx.final_input (item_input item) then Some (collected, true)
        else collect rest collected
  end.

(** How an iteration of the [while self._fetching_inputs] loop ends. *)
Inductive fetched : Type :=
  | Yield (inputs : list (string * Z * string * Ctx.FunctionInput)) (then_return : bool)
  | Again
  | Return
  | Suspended (f : nat).

(** The [try] block of an iteration, up to its [yield]: [response] is
    what [retry_transient_errors(FunctionGetInputs)] returned or raised. *)
Definition fetch_try (batch_max_size max_inputs : Z)
    (response : res FunctionGetInputsResponse) : M manager fetched :=
  response ← lift_res response;
  if negb (Qeq_bool (rate_limit_sleep_duration response) 0) then
    sleep (rate_limit_sleep_duration response);; mret Again
  else
    match inputs response with
    | [] => mret Again
    | _ =>
        if negb ((0 <? len (inputs response))
                 && (len (inputs response) <=? Z.max 1 batch_max_size))
        then raise AssertionError
        else
          match collect (inputs response) [] with
          | None => mret Return
          | Some (collected, final_input_received) =>
              mret (Yield collected (final_input_received || (max_inputs =? 1)))
          end
    end.

(** The [try ... finally] of an iteration, up to its [yield]. When the
    block ends before a yield (it raised, went round, or returned),
    [finally] finds [yielded] false and releases the slot. When the block
    yields, the generator is suspended inside [try] with the slot taken:
    [yielded] is still false, and what [finally] does is decided by the
    consumer, see [resume_iteration]. *)
Definition fetch_iteration (batch_max_size max_inputs : Z)
    (response : res FunctionGetInputsResponse) : M manager fetched :=
  fun m =>
    match fetch_try batch_max_size max_inputs response m with
    | (Ok (Yield collected then_return), m') => (Ok (Yield collected then_return), m')
    | (r, m') =>
        match on_slots Slots.release m' with
        | (Ok _, m'') => (r, m'')
        | (Raise e, m'') => (Raise e, m'')
        end
    end.

(** One turn of the loop of [_generate_inputs]: take a slot, then fetch;
    when the semaphore is full the generator is suspended in [acquire]. *)
Definition fetch_once (batch_max_size max_inputs : Z)
    (response : res FunctionGetInputsResponse) : M manager fetched :=
  a ← on_slots Slots.acquire;
  match a with
  | Slots.Entered => fetch_iteration batch_max_size max_inputs response
  | Slots.Parked f => mret (Suspended f)
  end.

(** What the consumer of the generator does while it is suspended at
    [yield inputs]: it asks for the next value, or it closes the
    generator ([aclose()], or the generator is collected), which raises
    [GeneratorExit] at the [yield]. *)
Inductive consumer : Type :=
  | Resumes
  | Closes.

(** How an iteration that yielded ends: the loop goes round, or the
    generator returns. *)
Inductive resumed : Type :=
  | GoesRound
  | GeneratorReturns.

(** The rest of an iteration that yielded. Resumed, it sets [yielded],
    returns if the final input was received or [max_inputs] is 1, and
    [finally] releases nothing. Closed at the [yield], [GeneratorExit]
    leaves the [try] block before [yielded = True]: [finally] releases
    the slot. *)
Definition resume_iteration (then_return : bool) (c : consumer) : M manager resumed :=
  match c with
  | Resumes => mret (if then_return then GeneratorReturns else GoesRound)
  | Closes => on_slots Slots.release;; raise GeneratorExit
  end.

(** The items of a response up to and including the first one flagged
    [final_input]. *)
Fixpoint until_final (items : list FunctionGetInputsItem) : list FunctionGetInputsItem :=
  match items with
  | [] => []
  | item :: rest =>
      if Ctx.final_input (item_input item) then [item] else item :: until_final rest
  end.

End Fetcher.

(** ** Interactive mode *)

Module Interactive.

(** The manager's [_is_interactivity_enabled] flag, and the number of
    FunctionStartPtyShell requests sent so far. *)
Record state : Type := mkState {
  _is_interactivity_enabled : bool;
  pty_shell_requests : nat
}.

(** [interact]: [pty_type] is [function_def.pty_info.pty_type], and
    [started] what the FunctionStartPtyShell request returns or raises. *)
Definition interact (pty_type : N) (from_breakpoint : bool) (started : res unit)
    : M state unit :=
  s ← get;
  if _is_interactivity_enabled s then mret tt
  else
    put (mkState true (pty_shell_requests s));;
    if (pty_type =? 0)%N then
      let trigger :=
        if from_breakpoint then "breakpoint()"%string else "modal.interact()"%string in
      raise (InvalidError ("Cannot use " ++ trigger
                             ++ " without running Modal in interactive mode."))
    else
      modify (fun s => mkState (_is_interactivity_enabled s) (S (pty_shell_requests s)));;
      lift_res started.

(** Calls of [interact] one after the other, whether they return or
    raise: what each call returned. *)
Fixpoint interact_all (pty_type : N) (calls : list (bool * res unit)) (s : state)
    : list (res unit) * state :=
  match calls with
  | [] => ([], s)
  | (from_breakpoint, started) :: rest =>
      let (r, s') := interact pty_type from_breakpoint started s in
      let (rs, s'') := interact_all pty_type rest s' in
      (r :: rs, s'')
  end.

End Interactive.

(** ** The heartbeat condition: heartbeats against memory snapshots *)

(** [_heartbeat_handle_cancellations] and [memory_snapshot] run as two
    tasks of one event loop and share [heartbeat_condition] (an
    [asyncio.Condition], that is a lock and a set of waiters) and the flag
    [_waiting_for_memory_snapshot]. Each coroutine is cut at its [await]s;
    a step below is the code one task runs between two suspensions. *)

Module Interlock.

Inductive task : Type := Heartbeat | Snapshot.

(** Where the heartbeat task is suspended. *)
Inductive hb_pc : Type :=
  | HbIdle        (* outside [async with]: sleeping until the next tick *)
  | HbAcquiring   (* in [async with heartbeat_condition], the lock is taken *)
  | HbWaiting     (* in [heartbeat_condition.wait()], lock released, parked *)
  | HbNotified    (* in [wait()], woken up, has to take the lock again *)
  | HbOnWire      (* holds the lock, awaits the ContainerHeartbeat response *)
  | HbStopped.    (* the task was cancelled *)

(** Where [memory_snapshot] is suspended. *)
Inductive sn_pc : Type :=
  | SnNotStarted
  | SnAcquiring     (* in [async with heartbeat_condition], the lock is taken *)
  | SnCheckpointing (* holds the lock, awaits ContainerCheckpoint *)
  | SnClosing       (* holds the lock, awaits [_client._close] *)
  | SnRestoring     (* holds the lock, awaits [memory_restore] *)
  | SnDone
  | SnFailed.

Record state : Type := mkState {
  _waiting_for_memory_snapshot : bool;
  lock : option task;
  hb : hb_pc;
  sn : sn_pc
}.

(** The heartbeat task is created by [heartbeats(wait_for_mem_snap)],
    which sets the flag before the task first runs. *)
Definition init (wait_for_mem_snap : bool) : state :=
  mkState wait_for_mem_snap None HbIdle SnNotStarted.

(** What the scheduler and the environment choose next. *)
Inductive action : Type :=
  | HbEnter       (* the tick starts: enter [async with] *)
  | HbWake        (* the parked heartbeat is woken: a notification or a spurious wakeup *)
  | HbResume      (* the heartbeat runs again and takes the lock if it is free *)
  | HbRetry       (* [retry_transient_errors] sends the request again *)
  | HbReturn      (* the response, or the final exception, arrives *)
  | HbCancel      (* the heartbeat task is cancelled *)
  | SnEnter (gpu_ok : bool)  (* [memory_snapshot] enters [async with] *)
  | SnAdvance     (* the RPC or coroutine awaited by the snapshot returns *)
  | SnRaise       (* the RPC or coroutine awaited by the snapshot raises *)
  | SnAgain.      (* [memory_snapshot] is called once more *)

(** [heartbeat_condition.notify_all()] *)
Definition notify_all (p : hb_pc) : hb_pc :=
  match p with
  | HbWaiting => HbNotified
  | _ => p
  end.

(** With the lock just taken, the heartbeat evaluates
    [while self._waiting_for_memory_snapshot: await wait()] and, if the
    loop exits, builds and sends the request. The boolean tells whether a
    ContainerHeartbeat request was put on the wire. *)
Definition hb_check_and_send (s : state) : state * bool :=
  if _waiting_for_memory_snapshot s then
    (mkState (_waiting_for_memory_snapshot s) None HbWaiting (sn s), false)
  else
    (mkState (_waiting_for_memory_snapshot s) (Some Heartbeat) HbOnWire (sn s), true).

Definition hb_step (a : action) (s : state) : option (state * bool) :=
  match a, hb s with
  | HbEnter, HbIdle | HbResume, HbAcquiring | HbResume, HbNotified =>
      match lock s with
      | None => Some (hb_check_and_send s)
      | Some _ =>
          Some (mkState (_waiting_for_memory_snapshot s) (lock s)
                  (match hb s with HbIdle => HbAcquiring | p => p end) (sn s), false)
      end
  | HbWake, HbWaiting =>
      Some (mkState (_waiting_for_memory_snapshot s) (lock s) HbNotified (sn s), false)
  | HbRetry, HbOnWire => Some (s, true)
  | HbReturn, HbOnWire =>
      Some (mkState (_waiting_for_memory_snapshot s) None HbIdle (sn s), false)
  | HbCancel, HbOnWire =>
      Some (mkState (_waiting_for_memory_snapshot s) None HbStopped (sn s), false)
  | HbCancel, (HbIdle | HbAcquiring) =>
      Some (mkState (_waiting_for_memory_snapshot s) (lock s) HbStopped (sn s), false)
  | HbCancel, (HbWaiting | HbNotified) =>
      (* [wait()] takes the lock again before the cancellation leaves
         [async with], which releases it *)
      match lock s with
      | None => Some (mkState (_waiting_for_memory_snapshot s) None HbStopped (sn s), false)
      | Some _ => None
      end
  | _, _ => None
  end.

Definition sn_step (a : action) (s : state) : option (state * bool) :=
  match a, sn s with
  | SnEnter gpu_ok, (SnNotStarted | SnAcquiring) =>
      match lock s with
      | Some _ =>
          Some (mkState (_waiting_for_memory_snapshot s) (lock s) (hb s) SnAcquiring, false)
      | None =>
          if gpu_ok then
            (* flag set, [notify_all()], then await ContainerCheckpoint *)
            Some (mkState true (Some Snapshot) (notify_all (hb s)) SnCheckpointing, false)
          else
            (* the GPU checkpoint raised: leave [async with] *)
            Some (mkState (_waiting_for_memory_snapshot s) None (hb s) SnFailed, false)
      end
  | SnAdvance, SnCheckpointing =>
      Some (mkState (_waiting_for_memory_snapshot s) (lock s) (hb s) SnClosing, false)
  | SnAdvance, SnClosing =>
      Some (mkState (_waiting_for_memory_snapshot s) (lock s) (hb s) SnRestoring, false)
  | SnAdvance, SnRestoring =>
      (* flag cleared, [notify_all()], leave [async with] *)
      Some (mkState false None (notify_all (hb s)) SnDone, false)
  | SnRaise, (SnCheckpointing | SnClosing | SnRestoring) =>
      Some (mkState (_waiting_for_memory_snapshot s) None (hb s) SnFailed, false)
  | SnAgain, (SnDone | SnFailed) =>
      Some (mkState (_waiting_for_memory_snapshot s) (lock s) (hb s) SnNotStarted, false)
  | _, _ => None
  end.

(** One step of the event loop: the next state and whether a
    ContainerHeartbeat request went out; [None] when the action cannot
    happen in this state. *)
Definition exec (a : action) (s : state) : option (state * bool) :=
  match a with
  | HbEnter | HbWake | HbResume | HbRetry | HbReturn | HbCancel => hb_step a s
  | SnEnter _ | SnAdvance | SnRaise | SnAgain => sn_step a s
  end.

(** An execution: the states visited and, for each step, whether it sent
    a heartbeat. *)
Fixpoint run (actions : list action) (s : state) : option (list (state * bool * state)) :=
  match actions with
  | [] => Some []
  | a :: rest =>
      match exec a s with
      | None => None
      | Some (s', sent) =>
          match run rest s' with
          | None => None
          | Some steps => Some ((s, sent, s') :: steps)
          end
      end
  end.

(** A heartbeat request is on the wire. *)
Definition on_wire (s : state) : bool :=
  match hb s with
  | HbOnWire => true
  | _ => false
  end.

Definition holds_lock (s : state) : option task :=
  match hb s, sn s with
  | HbOnWire, _ => Some Heartbeat
  | _, (SnCheckpointing | SnClosing | SnRestoring) => Some Snapshot
  | _, _ => None
  end.

(** The lock is held by the task that is inside its critical section,
    and a heartbeat in flight excludes the flag. *)
Definition inv (s : state) : Prop :=
  lock s = holds_lock s /\
  (on_wire s = true -> _waiting_for_memory_snapshot s = false) /\
  (hb s = HbOnWire ->
   sn s <> SnCheckpointing /\ sn s <> SnClosing /\ sn s <> SnRestoring).

(** The states of an event loop that runs the heartbeat loop next to
    [memory_snapshot]. *)
Inductive reachable : state -> Prop :=
  | reach_init b : reachable (init b)
  | reach_exec a s s' sent : reachable s -> exec a s = Some (s', sent) -> reachable s'.

End Interlock.

(** ** A concrete host, for running the model *)

Module Demo.

(** A toy codec: a lower-case letter is a keyword argument of that name,
    any other byte a positional argument. *)
Definition is_letter (b : Byte.byte) : bool :=
  let n := Byte.to_N b in ((97 <=? n) && (n <=? 122))%N.

Definition letter (b : Byte.byte) : string :=
  String (ascii_of_byte b) EmptyString.

Definition demo_deserialize (bs : list Byte.byte) : res (list pyval * dict pyval) :=
  Ok (map (fun b => PyInt (Z.of_N (Byte.to_N b))) (filter (fun b => is_letter b = false) bs),
      map (fun b => (letter b, PyNone)) (filter (fun b => is_letter b = true) bs)).

Definition demo_repr (e : exn) : string :=
  match e with
  | InvalidError msg => "InvalidError('" ++ msg ++ "')"
  | RuntimeError msg => "RuntimeError('" ++ msg ++ "')"
  | KeyError k => "KeyError('" ++ k ++ "')"
  | UserError what => what
  | InvalidStateError => "InvalidStateError()"
  | AssertionError => "AssertionError()"
  | IndexError => "IndexError()"
  | InputCancellation => "InputCancellation()"
  | CancelledError => "CancelledError()"
  | KeyboardInterrupt => "KeyboardInterrupt()"
  | GeneratorExit => "GeneratorExit()"
  | ClientClosed => "ClientClosed()"
  end.

Definition demo_serialize_value (v : pyval) (fmt : Z) : list Byte.byte :=
  match v with
  | PyBytes b => b
  | PyInt n => [Byte.x49]
  | _ => [Byte.x4e]
  end.

Definition host (max_object_size_bytes : Z) : Host := {|
  MAX_OBJECT_SIZE_BYTES := max_object_size_bytes;
  HEARTBEAT_INTERVAL := 15;
  deserialize := demo_deserialize;
  serialize_data_format := demo_serialize_value;
  serialize := fun e => Ok [Byte.x80];
  serialize_SerializationError := fun _ _ => [Byte.x80];
  serialize_traceback := fun _ => (None, None);
  repr := demo_repr;
  format_exc := fun e => ("Traceback (most recent call last): " ++ demo_repr e)%string;
  blob_upload := fun _ => "bl-1"%string;
  blob_download := fun _ => Ok []
|}.



(** [def f(x, y)], batched. *)
Definition f_xy : Ctx.FinalizedFunction :=
  Ctx.mkFinalized "f" ["x"; "y"]%string (fun _ kwargs => Ok (PyList [PyInt 1; PyInt 2])).

Definition input (b : list Byte.byte) : Ctx.FunctionInput :=
  Ctx.mkInput (Ctx.Args b) "" false.


(** A batch of two well-formed inputs. *)
Definition batch22 : list (string * Z * string * Ctx.FunctionInput) :=
  [("in-000", 0, "fc-1", input [Byte.x01; Byte.x02]);
   ("in-001", 3, "fc-1", input [Byte.x01; Byte.x79])]%string.

Definition ctx_of (inputs : list (string * Z * string * Ctx.FunctionInput)) : Ctx.IOContext :=
  match @Ctx.create (host 2097152) {[ ""%string := f_xy ]} inputs true with
  | Ok c => c
  | Raise _ => Ctx.new [] [] [] f_xy [] true
  end.

(** A text of [n] characters, and an exception whose [repr] is that text. *)
Definition text (n : nat) : string :=
  Nat.iter n (String "A") EmptyString.

Definition long_exception (n : nat) : exn := UserError (text n).

(** A manager at start-up, with [target_concurrency] input slots. *)
Definition manager0 (target_concurrency max_concurrency : Z) : Manager.manager :=
  Manager.mkManager 0 0 ∅ [] (Slots.init target_concurrency)
    max_concurrency target_concurrency false (fun n => inject_Z (Z.of_nat n)) 0 [].

(** The manager once [run_inputs_outputs] registered the context [c]. *)
Definition with_context (c : Ctx.IOContext) (m : Manager.manager) : Manager.manager :=
  let r := length (Manager.heap m) in
  Manager.set_current_inputs
    (foldl (fun ci id => <[id := r]> ci) (Manager.current_inputs m) (Ctx.input_ids c))
    (Manager.set_heap (Manager.heap m ++ [c]) m).

(** A manager whose input generator finished and began [close()] while
    inputs are still running. *)
Definition closing_manager (target_concurrency max_concurrency : Z) : Manager.manager :=
  (Manager.on_slots Slots.close_mark (manager0 target_concurrency max_concurrency)).2.

(** A schedule in which the snapshot starts while the heartbeat is parked
    and the heartbeat is sent once the snapshot is over. *)
Definition snapshot_schedule : list Interlock.action :=
  [Interlock.HbEnter; Interlock.SnEnter true; Interlock.HbResume;
   Interlock.SnAdvance; Interlock.SnAdvance; Interlock.SnAdvance;
   Interlock.HbResume; Interlock.HbReturn].

Definition snapshot_steps : list (Interlock.state * bool * Interlock.state) :=
  default [] (Interlock.run snapshot_schedule (Interlock.init true)).

End Demo.

(** * Properties *)

(** Unfold the monadic plumbing so that a computation applied to a state
    reduces. *)
Ltac run_M :=
  cbv [mbind mret M_bind M_ret res_bind res_ret get put modify raise lift_res zoom
       Manager.try_except Manager.on_slots Manager.emit Manager.sleep Manager.now] in *.

Module SlotsFacts.
Import Slots.

Lemma wake_waiter_inv (w : world) :
  (forall f, waiter (slots w) = Some f ->
     futures w !! f = Some Pending \/ futures w !! f = Some Cancelled) ->
  exists w', _wake_waiter w = (Ok tt, w') /\ slots_inv w' /\
    value (slots w') = value (slots w) /\ closed (slots w') = closed (slots w).
Proof.
  intros Hf. unfold _wake_waiter, cancelled, set_result. run_M.
  destruct w as [[a v [f|] c] futs]; simpl in *.
  - destruct (a <? v) eqn:Hlt.
    + simpl. destruct (Hf f eq_refl) as [Hp | Hp];
        repeat (progress (rewrite ?Hp; simpl));
        (eexists; split; [reflexivity|]; split; [|split; reflexivity]);
        intros g Hg; discriminate.
    + eexists; split; [reflexivity|]. split; [|split; reflexivity].
      intros g Hg. simpl in *. injection Hg as <-.
      apply Z.ltb_ge in Hlt. split; [lia|]. apply Hf. reflexivity.
  - eexists; split; [reflexivity|]. split; [|split; reflexivity].
    intros g Hg. discriminate.
Qed.

Lemma run_op_inv (o : op) (w : world) : slots_inv w -> slots_inv (run_op o w).2.
Proof.
  intros Hinv. destruct o; simpl.
  - (* acquire *)
    unfold acquire, create_future. run_M.
    destruct w as [[a v wt c] futs]; simpl in *.
    destruct (a <? v) eqn:Hlt; simpl.
    + intros f Hf. simpl in *. destruct (Hinv f Hf) as [Hge _].
      simpl in Hge. apply Z.ltb_lt in Hlt. lia.
    + destruct wt as [g|]; simpl.
      * exact Hinv.
      * intros f Hf. simpl in *. injection Hf as <-.
        apply Z.ltb_ge in Hlt. split; [lia|]. left.
        rewrite lookup_app_r by lia. rewrite Nat.sub_diag. reflexivity.
  - (* release *)
    unfold release. run_M.
    destruct (wake_waiter_inv (set_active (active (slots w) - 1) w)) as (w' & -> & Hw' & _).
    + intros f Hf. destruct w as [[a v wt c] futs]; simpl in *.
      apply (Hinv f Hf).
    + exact Hw'.
  - (* set_value *)
    unfold set_value. run_M.
    destruct (closed (slots w)) eqn:Hc; [exact Hinv|].
    destruct (wake_waiter_inv (set_capacity v w)) as (w' & -> & Hw' & _).
    + intros f Hf. destruct w as [[a v0 wt c] futs]; simpl in *.
      apply (Hinv f Hf).
    + exact Hw'.
  - (* close *)
    unfold close_mark. run_M. destruct w as [[a v wt c] futs]. exact Hinv.
  - (* the waiter is cancelled *)
    unfold cancel_waiter. run_M.
    destruct w as [[a v [g|] c] futs]; simpl in *; [|exact Hinv].
    destruct (futs !! g) as [[]|] eqn:Hg; simpl; try exact Hinv.
    intros f Hf. simpl in *. injection Hf as <-.
    destruct (Hinv g eq_refl) as [Hge _]. split; [exact Hge|]. right.
    apply list_lookup_insert_eq. apply lookup_lt_Some in Hg. exact Hg.
Qed.

Lemma slots_reachable_inv (w : world) : reachable w -> slots_inv w.
Proof.
  induction 1 as [v | o w Hw IH].
  - intros f Hf. discriminate.
  - apply run_op_inv, IH.
Qed.

(** [set_value] returns normally; it sets the capacity unless [close()]
    has begun, in which case it changes nothing. *)
Lemma set_value_returns (w : world) (n : Z) :
  reachable w ->
  exists w',
    set_value n w = (Ok tt, w') /\
    (closed (slots w) = false -> value (slots w') = n) /\
    (closed (slots w) = true -> w' = w).
Proof.
  intros Hr. pose proof (slots_reachable_inv w Hr) as Hinv.
  unfold set_value. run_M. destruct (closed (slots w)) eqn:Hc.
  - exists w. split; [reflexivity|]. split; [discriminate | reflexivity].
  - destruct (wake_waiter_inv (set_capacity n w)) as (w' & -> & _ & Hv & _).
    + intros f Hf. destruct w as [[a v wt c] futs]; simpl in *. apply (Hinv f Hf).
    + exists w'. split; [reflexivity|]. split; [|discriminate].
      intros _. rewrite Hv. destruct w as [[a v wt c] futs]. reflexivity.
Qed.

(** C9. In every state of the semaphore in which [acquire()] takes a
    slot without parking ([active < value]; whether or not [close()] has
    begun), [acquire(); release()] succeeds and leaves [(active, value)]
    as it was; indeed it leaves the whole semaphore as it was. *)
Theorem acquire_release_roundtrip (w : world) :
  reachable w ->
  active (slots w) < value (slots w) ->
  exists w1 w2,
    acquire w = (Ok Entered, w1) /\
    release w1 = (Ok tt, w2) /\
    (active (slots w2), value (slots w2)) = (active (slots w), value (slots w)) /\
    w2 = w.
Proof.
  intros Hr Hlt. pose proof (slots_reachable_inv w Hr) as Hinv.
  destruct w as [[a v wt c] futs]; simpl in *.
  assert (wt = None) as ->.
  { destruct wt as [f|]; [|reflexivity]. destruct (Hinv f eq_refl) as [Hge _].
    simpl in Hge. lia. }
  apply Z.ltb_lt in Hlt.
  exists (mkWorld (mkSlots (a + 1) v None c) futs), (mkWorld (mkSlots a v None c) futs).
  unfold acquire, release, _wake_waiter. run_M. simpl. rewrite Hlt.
  unfold set_active. simpl. replace (a + 1 - 1) with a by lia.
  repeat split; reflexivity.
Qed.

Lemma acquire_release_roundtrip_witness :
  exists w1 w2,
    acquire (run_op (OpSetValue 3) (init 0)).2 = (Ok Entered, w1) /\
    release w1 = (Ok tt, w2) /\
    (active (slots w2), value (slots w2)) = (0, 3) /\
    w2 = (run_op (OpSetValue 3) (init 0)).2.
Proof.
  apply (acquire_release_roundtrip (run_op (OpSetValue 3) (init 0)).2).
  - apply reach_step, reach_init.
  - reflexivity.
Defined.

End SlotsFacts.

Module SlotsAmended.
Import Slots.

(** C3, refuted as stated. Once [close()] has begun, [set_value] returns
    without touching the capacity: a request to shrink from 10 to 1 is
    refused. *)
Lemma set_value_refused_after_close :
  reachable (run_op OpCloseMark (init 10)).2 /\
  closed (slots (run_op OpCloseMark (init 10)).2) = true /\
  set_value 1 (run_op OpCloseMark (init 10)).2 = (Ok tt, (run_op OpCloseMark (init 10)).2) /\
  value (slots (set_value 1 (run_op OpCloseMark (init 10)).2).2) = 10 /\
  value (slots (set_value 1 (run_op OpCloseMark (init 10)).2).2) <> 1.
Proof.
  split; [apply reach_step, reach_init|].
  repeat split; try reflexivity. vm_compute. discriminate.
Qed.

(** C3, amended. In every state of the semaphore, [set_value n] returns
    normally. Before [close()] it sets the capacity to [n], whether that
    grows or shrinks it; if a waiter is parked and [active < n] it wakes
    the waiter (the reference is cleared, a slot is taken on its behalf
    and its future is resolved unless it had been cancelled), and
    otherwise [active], the waiter and the futures are untouched. Once
    [close()] has begun, [set_value n] changes nothing. *)
Theorem set_value_spec (w : world) (n : Z) :
  reachable w ->
  exists w',
    set_value n w = (Ok tt, w') /\
    closed (slots w') = closed (slots w) /\
    (closed (slots w) = true -> w' = w) /\
    (closed (slots w) = false ->
       value (slots w') = n /\
       match waiter (slots w) with
       | Some f =>
           if active (slots w) <? n then
             waiter (slots w') = None /\
             active (slots w') = active (slots w) + 1 /\
             (futures w !! f = Some Pending ->
              futures w' = <[f := Resolved]> (futures w)) /\
             (futures w !! f = Some Cancelled -> futures w' = futures w)
           else
             active (slots w') = active (slots w) /\
             waiter (slots w') = Some f /\
             futures w' = futures w
       | None =>
           active (slots w') = active (slots w) /\
           waiter (slots w') = None /\
           futures w' = futures w
       end).
Proof.
  intros Hr. pose proof (SlotsFacts.slots_reachable_inv w Hr) as Hinv.
  destruct w as [[a v wt c] futs]. unfold set_value, _wake_waiter, cancelled, set_result.
  run_M. simpl in *. destruct c; simpl.
  - eexists. split; [reflexivity|]. split; [reflexivity|].
    split; [reflexivity|]. discriminate.
  - destruct wt as [f|]; simpl.
    + destruct (a <? n) eqn:Hlt; simpl.
      * destruct (Hinv f eq_refl) as [_ [Hp | Hp]]; simpl in Hp;
          repeat (progress (rewrite ?Hp; simpl));
          (eexists; split; [reflexivity|]; split; [reflexivity|];
           split; [discriminate|]; intros _; repeat split; try reflexivity;
           intros; congruence).
      * eexists; split; [reflexivity|]. split; [reflexivity|].
        split; [discriminate|]. intros _. repeat split; reflexivity.
    + eexists; split; [reflexivity|]. split; [reflexivity|].
      split; [discriminate|]. intros _. repeat split; reflexivity.
Qed.

Lemma set_value_spec_witness :
  exists w',
    set_value 2 (run_op OpAcquire (init 0)).2 = (Ok tt, w') /\
    value (slots w') = 2 /\ waiter (slots w') = None /\ active (slots w') = 1 /\
    futures w' = [Resolved].
Proof.
  destruct (set_value_spec (run_op OpAcquire (init 0)).2 2) as (w' & Hs & _ & _ & Hopen).
  - apply reach_step, reach_init.
  - exists w'. split; [exact Hs|].
    destruct (Hopen eq_refl) as (Hv & Hw & Ha & Hp & _).
    repeat split; try assumption. apply Hp. reflexivity.
Defined.

End SlotsAmended.

Module CancelFacts.
Import Ctx.

Lemma cancel_issued_noop (c : IOContext) :
  _cancel_issued c = true -> cancel c = (c, []).
Proof. intros Hc. unfold cancel. rewrite Hc. reflexivity. Qed.

Lemma cancel_n_issued (n : nat) (c : IOContext) :
  _cancel_issued c = true -> cancel_n n c = (c, []).
Proof.
  intros Hc. induction n as [|n IH]; simpl; [reflexivity|].
  rewrite (cancel_issued_noop c Hc), IH. reflexivity.
Qed.

(** C8. For a context with a registered callback, [cancel(); cancel()]
    leaves the same context as [cancel()] and has done the same things
    (callbacks run, warnings logged); and on a context as [__init__]
    makes it, once its callback [cb] is registered, any number [n + 1] of
    [cancel()] calls runs [cb] exactly once and nothing else. *)
Theorem cancel_idempotent (c : IOContext) (cb : nat) (n : nat)
    (ids : list string) (retries : list Z) (fcids : list string)
    (ff : FinalizedFunction) (inputs : list FunctionInput) (is_batched : bool) :
  cancel_n 2 (set_cancel_callback cb c) = cancel_n 1 (set_cancel_callback cb c) /\
  calls (cancel_n (S n)
           (set_cancel_callback cb (new ids retries fcids ff inputs is_batched))).2 = [cb].
Proof.
  split.
  - simpl. unfold cancel at 1 3. simpl. destruct (_cancel_issued c) eqn:Hc.
    + rewrite cancel_issued_noop by exact Hc. reflexivity.
    + rewrite cancel_issued_noop by reflexivity. reflexivity.
  - simpl. rewrite cancel_n_issued by reflexivity. reflexivity.
Qed.

End CancelFacts.

Module TrimFacts.
Import Manager.

Lemma length_prefix (n : nat) (s : string) :
  String.length (String.substring 0 n s) = Nat.min n (String.length s).
Proof.
  revert n. induction s as [|c s IH]; intros [|n]; simpl; try reflexivity.
  rewrite IH. reflexivity.
Qed.

Section WithHost.
Context `{Host}.

(** C2 (the code against the claim). For an exception whose [repr] has at
    least [MAX_OBJECT_SIZE_BYTES] characters, the [exception] field of the
    failure is the first [MAX_OBJECT_SIZE_BYTES - 1000] characters of the
    [repr] followed by a note; but the number in the note is
    [len - MAX_OBJECT_SIZE_BYTES - 1000], which is 2000 less than the
    number of characters removed, [len - (MAX_OBJECT_SIZE_BYTES - 1000)]. *)
Theorem trimmed_note_off_by_2000 (exc : exn) :
  1000 <= MAX_OBJECT_SIZE_BYTES ->
  MAX_OBJECT_SIZE_BYTES <= strlen (repr exc) ->
  let kept := String.substring 0 (Z.to_nat (MAX_OBJECT_SIZE_BYTES - 1000)) (repr exc) in
  let noted := strlen (repr exc) - MAX_OBJECT_SIZE_BYTES - 1000 in
  exception (failure_result exc) =
    (kept ++ "..." ++ String "010" "Trimmed " ++ str_of_Z noted
       ++ " bytes from original exception")%string /\
  strlen kept = MAX_OBJECT_SIZE_BYTES - 1000 /\
  noted = (strlen (repr exc) - strlen kept) - 2000 /\
  noted <> strlen (repr exc) - strlen kept.
Proof.
  intros Hmax Hlen kept noted.
  assert (Hkept : strlen kept = MAX_OBJECT_SIZE_BYTES - 1000).
  { unfold kept, strlen in *. rewrite length_prefix. lia. }
  split.
  - unfold failure_result, trimmed_repr, str_prefix. simpl.
    replace (strlen (repr exc) >=? MAX_OBJECT_SIZE_BYTES) with true
      by (symmetry; apply Z.geb_le; lia).
    replace (0 <=? MAX_OBJECT_SIZE_BYTES - 1000) with true
      by (symmetry; apply Z.leb_le; lia).
    reflexivity.
  - split; [exact Hkept|]. unfold noted. rewrite Hkept. split; lia.
Qed.

End WithHost.

Lemma trimmed_note_off_by_2000_witness :
  exception (@failure_result (Demo.host 1024) (Demo.long_exception 1500)) =
    (Demo.text 24 ++ "..." ++ String "010" "Trimmed -524 bytes from original exception")%string /\
  strlen (Demo.text 24) = 24 /\
  -524 = (1500 - 24) - 2000 /\
  -524 <> 1500 - 24.
Proof.
  pose proof (@trimmed_note_off_by_2000 (Demo.host 1024) (Demo.long_exception 1500)) as Ht.
  assert (H1 : 1000 <= @MAX_OBJECT_SIZE_BYTES (Demo.host 1024)) by (vm_compute; discriminate).
  assert (H2 : @MAX_OBJECT_SIZE_BYTES (Demo.host 1024)
               <= strlen (@repr (Demo.host 1024) (Demo.long_exception 1500)))
    by (vm_compute; discriminate).
  specialize (Ht H1 H2). exact Ht.
Defined.

End TrimFacts.

Module HeartbeatFacts.
Import Manager.

Section WithHost.
Context `{Host}.

(** Cancelling inputs only rewrites contexts in the heap and appends what
    the cancellations did to the trace. *)
Lemma cancel_input_effects (id : string) (m : manager) :
  exists effects heap',
    cancel_input id m =
      (Ok tt, set_trace (trace m ++ map Effect effects) (set_heap heap' m)).
Proof.
  unfold cancel_input. run_M.
  destruct (current_inputs m !! id) as [r|].
  - destruct (heap m !! r) as [c|].
    + destruct (Ctx.cancel c) as [c' e1]. exists e1, (<[r:=c']> (heap m)). reflexivity.
    + exists [], (heap m). destruct m; simpl. rewrite app_nil_r. reflexivity.
  - exists [], (heap m). destruct m; simpl. rewrite app_nil_r. reflexivity.
Qed.

Lemma cancel_inputs_effects (ids : list string) (m : manager) :
  exists effects heap',
    for_each ids cancel_input m =
      (Ok tt, set_trace (trace m ++ map Effect effects) (set_heap heap' m)).
Proof.
  revert m. induction ids as [|id ids IH]; intros m.
  - exists [], (heap m). simpl. run_M. destruct m; simpl.
    rewrite app_nil_r. reflexivity.
  - simpl. run_M.
    destruct (cancel_input_effects id m) as (e1 & h1 & ->).
    destruct (IH (set_trace (trace m ++ map Effect e1) (set_heap h1 m))) as (e2 & h2 & ->).
    exists (e1 ++ e2), h2. destruct m; simpl.
    rewrite map_app, app_assoc. reflexivity.
Qed.

Lemma handle_cancellations_event (ids : list string) (m : manager) :
  exists effects heap',
    _heartbeat_handle_cancellations (Ok (mkHeartbeatResponse (Some ids))) m =
      (Ok true, set_trace (trace m ++ map Effect effects) (set_heap heap' m)).
Proof.
  unfold _heartbeat_handle_cancellations. run_M. cbn [cancel_input_event].
  destruct ids as [|id ids].
  - exists [], (heap m). destruct m; simpl. rewrite app_nil_r. reflexivity.
  - destruct (cancel_inputs_effects (id :: ids) m) as (effects & heap' & ->).
    exists effects, heap'. reflexivity.
Qed.

(** C4, amended. One iteration of the heartbeat loop, started at the
    clock reading [t0]:
    - when the response carries a [cancel_input_event], whatever its
      input ids and whether or not any input was cancelled, the only
      things done are cancellations and the loop then sleeps exactly 1
      second before the next tick;
    - when the response carries none, nothing is cancelled and the loop
      sleeps [max(0, HEARTBEAT_INTERVAL - elapsed)], [elapsed] being the
      clock reading after the tick minus [t0];
    - when the attempt failed with an [Exception] other than
      [ClientClosed], a warning is logged and the loop sleeps
      [max(0, HEARTBEAT_INTERVAL - elapsed)] likewise;
    - on [ClientClosed] the loop stops without sleeping. *)
Theorem heartbeat_tick_schedule (m : manager) (t_last_success : Q)
    (response : res ContainerHeartbeatResponse) :
  let n := readings m in
  let t0 := clock m n in
  match response with
  | Ok resp =>
      match cancel_input_event resp with
      | Some ids =>
          exists effects m',
            heartbeat_tick response t_last_success m
              = (Ok (Continue, clock m (S n)), m') /\
            trace m' = trace m ++ map Effect effects ++ [Sleep 1]
      | None =>
          exists m',
            heartbeat_tick response t_last_success m
              = (Ok (Continue, clock m (S n)), m') /\
            trace m' =
              trace m ++ [Sleep (Qmax 0 (HEARTBEAT_INTERVAL - (clock m (S (S n)) - t0)))]
      end
  | Raise ClientClosed =>
      exists m',
        heartbeat_tick response t_last_success m = (Ok (Break, t_last_success), m') /\
        trace m' = trace m
  | Raise e =>
      if is_Exception e then
        exists warnings m',
          heartbeat_tick response t_last_success m
            = (Ok (Continue, t_last_success), m') /\
          trace m' =
            trace m ++ warnings ++
              [Sleep (Qmax 0 (HEARTBEAT_INTERVAL - (clock m (S (S (S n))) - t0)))] /\
          (warnings = [WarnHeartbeatFailed] \/
           warnings = [WarnHeartbeatFailed; WarnHeartbeatTrouble])
      else
        exists m',
          heartbeat_tick response t_last_success m = (Raise e, m') /\
          trace m' = trace m
  end.
Proof.
  intros n t0. subst n t0.
  destruct response as [resp | e].
  - destruct resp as [[ids|]]; simpl.
    + unfold heartbeat_tick. run_M.
      destruct (handle_cancellations_event ids (set_readings (S (readings m)) m))
        as (effects & heap' & ->).
      simpl. exists effects. eexists. split; [reflexivity|].
      destruct m; simpl. rewrite <- app_assoc. reflexivity.
    + unfold heartbeat_tick, _heartbeat_handle_cancellations. run_M. simpl.
      eexists. split; [reflexivity|]. destruct m; reflexivity.
  - destruct e; simpl;
      unfold heartbeat_tick, _heartbeat_handle_cancellations; run_M; simpl;
      try (eexists; split; [reflexivity|]; destruct m; reflexivity).
    all: destruct (Qle_bool _ _); simpl;
      [ exists [WarnHeartbeatFailed] | exists [WarnHeartbeatFailed; WarnHeartbeatTrouble] ];
      (eexists; split; [reflexivity|]; split; [|auto]);
      destruct m; simpl; rewrite <- ?app_assoc; reflexivity.
Qed.

End WithHost.

(** C4, refuted as stated. A heartbeat response that carries a
    [cancel_input_event] for an input that is not running, or one that
    names no input at all, cancels nothing, and yet the loop sleeps 1
    second instead of [max(0, HEARTBEAT_INTERVAL - elapsed)], here 14
    seconds. *)
Lemma empty_cancellation_sleeps_one_second :
  trace (@heartbeat_tick (Demo.host 2097152)
           (Ok (mkHeartbeatResponse (Some ["in-001"%string]))) 0
           (Demo.manager0 1 1)).2 = [Sleep 1] /\
  trace (@heartbeat_tick (Demo.host 2097152)
           (Ok (mkHeartbeatResponse (Some []))) 0
           (Demo.manager0 1 1)).2 = [Sleep 1] /\
  Qmax 0 (@HEARTBEAT_INTERVAL (Demo.host 2097152) - (1 - 0)) = 14%Q /\
  ~ (1 == 14)%Q.
Proof.
  split; [reflexivity|]. split; [reflexivity|]. split; [reflexivity|].
  intros Heq. discriminate Heq.
Qed.

End HeartbeatFacts.

Module ConcurrencyFacts.
Import Manager.

(** C10, refuted as stated. On a manager whose semaphore is closing
    (3 slots, at most 6), [set_input_concurrency(1)] leaves the capacity
    at 3, not at [min(1, 6)]. *)
Lemma set_input_concurrency_after_close :
  Slots.reachable (_input_slots (Demo.closing_manager 3 6)) /\
  (exists m',
     set_input_concurrency 1 (Some (Demo.closing_manager 3 6)) = (Ok tt, Some m') /\
     Slots.value (Slots.slots (_input_slots m')) = 3) /\
  3 <> Z.min 1 (_max_concurrency (Demo.closing_manager 3 6)).
Proof.
  split; [apply (Slots.reach_step Slots.OpCloseMark), Slots.reach_init|].
  split; [eexists; split; reflexivity|]. vm_compute. discriminate.
Qed.

(** With the stop flag set, the control loop does nothing. *)
Lemma stopped_loop_noop (responses : list (res Z)) (m : manager) :
  _stop_concurrency_loop m = true ->
  _dynamic_concurrency_loop responses m = (Ok tt, m).
Proof.
  intros Hs. destruct responses as [|r rest]; simpl; run_M; [reflexivity|].
  rewrite Hs. reflexivity.
Qed.

(** With the stop flag set, a response that was in flight is dropped. *)
Lemma stopped_update_noop (resp : res Z) (m : manager) :
  _stop_concurrency_loop m = true ->
  (dynamic_concurrency_update resp m).2 = m.
Proof.
  intros Hs. unfold dynamic_concurrency_update. run_M.
  destruct resp as [c | e]; simpl.
  - rewrite Hs, andb_false_r. reflexivity.
  - destruct (is_Exception e); reflexivity.
Qed.

(** C10, amended. On a manager whose semaphore has not begun [close()],
    [set_input_concurrency(n)] sets the capacity to
    [min(n, _max_concurrency)]; once [close()] has begun it leaves the
    semaphore as it is. In both cases it returns normally, sets the stop
    flag and changes nothing else but the semaphore, after which the
    control loop exits at its next test and a response still in flight no
    longer changes anything. *)
Theorem set_input_concurrency_spec (m : manager) (n : Z) :
  Slots.reachable (_input_slots m) ->
  exists w',
    Slots.set_value (Z.min n (_max_concurrency m)) (_input_slots m) = (Ok tt, w') /\
    set_input_concurrency n (Some m)
      = (Ok tt, Some (set_input_slots w' (set_stop_concurrency_loop true m))) /\
    (Slots.closed (Slots.slots (_input_slots m)) = false ->
     Slots.value (Slots.slots w') = Z.min n (_max_concurrency m)) /\
    (Slots.closed (Slots.slots (_input_slots m)) = true -> w' = _input_slots m) /\
    (forall responses,
       _dynamic_concurrency_loop responses
         (set_input_slots w' (set_stop_concurrency_loop true m))
       = (Ok tt, set_input_slots w' (set_stop_concurrency_loop true m))) /\
    (forall resp,
       (dynamic_concurrency_update resp
          (set_input_slots w' (set_stop_concurrency_loop true m))).2
       = set_input_slots w' (set_stop_concurrency_loop true m)).
Proof.
  intros Hr.
  destruct (SlotsFacts.set_value_returns (_input_slots m) (Z.min n (_max_concurrency m)) Hr)
    as (w' & Hset & Hopen & Hclosed).
  exists w'. split; [exact Hset|]. split.
  - unfold set_input_concurrency. run_M. simpl. rewrite Hset. reflexivity.
  - split; [intros Hc; apply (Hopen Hc)|]. split; [exact Hclosed|]. split.
    + intros responses. apply stopped_loop_noop. reflexivity.
    + intros resp. apply stopped_update_noop. reflexivity.
Qed.

Lemma set_input_concurrency_spec_witness :
  exists w',
    set_input_concurrency 9 (Some (Demo.manager0 3 6))
      = (Ok tt, Some (set_input_slots w'
                        (set_stop_concurrency_loop true (Demo.manager0 3 6)))) /\
    Slots.value (Slots.slots w') = 6.
Proof.
  destruct (set_input_concurrency_spec (Demo.manager0 3 6) 9 (Slots.reach_init 3))
    as (w' & _ & Hrun & Hopen & _).
  exists w'. split; [exact Hrun|]. exact (Hopen eq_refl).
Defined.

End ConcurrencyFacts.

Module InterlockFacts.
Import Interlock.

Lemma init_inv (b : bool) : inv (init b).
Proof. unfold inv, holds_lock, on_wire; simpl. repeat split; intros; congruence. Qed.

Ltac crush_step :=
  match goal with
  | H : Some _ = Some _ |- _ => injection H as <- <-
  | H : (_, _) = (_, _) |- _ => injection H as <- <-
  end.

(** Every step preserves the invariant, and a step that sends a heartbeat
    starts and ends with the flag down. *)
Lemma exec_inv (a : action) (s s' : state) (sent : bool) :
  inv s -> exec a s = Some (s', sent) ->
  inv s' /\ (sent = true ->
             _waiting_for_memory_snapshot s = false /\
             _waiting_for_memory_snapshot s' = false /\ on_wire s' = true).
Proof.
  intros (Hlock & Hwire & Hexcl) Hexec.
  destruct s as [flag l h n]. unfold inv, holds_lock, on_wire in *. simpl in *.
  destruct a; simpl in Hexec; unfold hb_step, sn_step, hb_check_and_send in Hexec;
    simpl in Hexec;
    destruct h; try discriminate Hexec;
    destruct n; try discriminate Hexec; simpl in *;
    destruct l as [[|]|]; try discriminate Hlock; try discriminate Hexec;
    destruct flag; try (specialize (Hwire eq_refl); discriminate Hwire);
    try destruct gpu_ok;
    simpl in Hexec; try discriminate Hexec; crush_step; simpl;
    repeat split; intros; try congruence.
  all: exfalso; destruct (Hexcl eq_refl) as (? & ? & ?); congruence.
Qed.

Lemma interlock_reachable_inv (s : state) : reachable s -> inv s.
Proof.
  induction 1 as [b | a s s' sent Hs IH Hexec].
  - apply init_inv.
  - apply (exec_inv a s s' sent IH Hexec).
Qed.

Lemma run_steps (actions : list action) :
  forall s steps, inv s -> run actions s = Some steps ->
  forall p q sent, In (p, sent, q) steps ->
    inv p /\ exists a, exec a p = Some (q, sent).
Proof.
  induction actions as [|a rest IH]; intros s steps Hinv Hrun p q sent Hin; simpl in Hrun.
  - injection Hrun as <-. destruct Hin.
  - destruct (exec a s) as [[s' b]|] eqn:Hexec; [|discriminate].
    destruct (run rest s') as [tl|] eqn:Htl; [|discriminate].
    injection Hrun as <-. destruct Hin as [Heq | Hin].
    + injection Heq as <- <- <-. split; [exact Hinv|]. exists a. exact Hexec.
    + apply (IH s' tl); [|exact Htl|exact Hin].
      apply (exec_inv a s s' b Hinv Hexec).
Qed.

(** C1. In every execution of the heartbeat loop interleaved with
    [memory_snapshot], whatever the flag [heartbeats()] started with,
    whatever the scheduling, the wakeups (spurious ones included), the
    retries, failures and cancellations: a step that puts a
    ContainerHeartbeat request on the wire starts in a state where
    [_waiting_for_memory_snapshot] is false and ends in one, and in no
    state visited is a heartbeat in flight while the flag is true. *)
Theorem no_heartbeat_while_waiting (wait_for_mem_snap : bool) (actions : list action)
    (steps : list (state * bool * state)) :
  run actions (init wait_for_mem_snap) = Some steps ->
  forall p q sent, In (p, sent, q) steps ->
    (sent = true ->
     _waiting_for_memory_snapshot p = false /\ _waiting_for_memory_snapshot q = false) /\
    (on_wire p = true -> _waiting_for_memory_snapshot p = false) /\
    (on_wire q = true -> _waiting_for_memory_snapshot q = false).
Proof.
  intros Hrun p q sent Hin.
  destruct (run_steps actions (init wait_for_mem_snap) steps (init_inv _) Hrun p q sent Hin)
    as (Hp & a & Hexec).
  destruct (exec_inv a p q sent Hp Hexec) as (Hq & Hsent).
  split.
  - intros Hs. destruct (Hsent Hs) as (H1 & H2 & _). split; assumption.
  - split; [apply Hp | apply Hq].
Qed.

End InterlockFacts.

Module InterlockWitness.
Import Interlock.

Lemma no_heartbeat_while_waiting_witness :
  (true = true ->
   _waiting_for_memory_snapshot (mkState false None HbNotified SnDone) = false /\
   _waiting_for_memory_snapshot (mkState false (Some Heartbeat) HbOnWire SnDone) = false) /\
  (on_wire (mkState false None HbNotified SnDone) = true ->
   _waiting_for_memory_snapshot (mkState false None HbNotified SnDone) = false) /\
  (on_wire (mkState false (Some Heartbeat) HbOnWire SnDone) = true ->
   _waiting_for_memory_snapshot (mkState false (Some Heartbeat) HbOnWire SnDone) = false).
Proof.
  apply (InterlockFacts.no_heartbeat_while_waiting true Demo.snapshot_schedule
           Demo.snapshot_steps).
  - reflexivity.
  - simpl. tauto.
Defined.

End InterlockWitness.

Module GeneratorFacts.
Import Manager.

Section WithHost.
Context `{Host}.

(** What one run of the inner loop takes from the queue. *)
Lemma drain_batches (fmt : Z) (reads : list queue_item) :
  forall ms ts ms' b rest,
    drain fmt reads ms ts = (ms', b, rest) ->
    exists taken,
      ms' = ms ++ map (fun msg => serialize_data_format msg fmt) taken /\
      messages_before_stop reads
      = taken ++ (if b : bool then [] else messages_before_stop rest) /\
      (In GENERATOR_STOP_SENTINEL reads <-> b = true \/ In GENERATOR_STOP_SENTINEL rest).
Proof.
  induction reads as [|item reads IH]; intros ms ts ms' b rest Hd; simpl in Hd.
  - injection Hd as <- <- <-. exists []. simpl. rewrite app_nil_r.
    split; [reflexivity|]. split; [reflexivity|]. split; [tauto|].
    intros [Hf | Hf]; [discriminate Hf | exact Hf].
  - destruct (ts <? 16 * 1024 * 1024).
    + destruct item as [msg| |].
      * apply IH in Hd as (taken & -> & Hm & Hstop). exists (msg :: taken).
        split; [rewrite <- app_assoc; reflexivity|].
        split; [simpl; rewrite Hm; reflexivity|].
        rewrite <- Hstop. simpl. split; [intros [Hf | Hin]; [discriminate Hf | exact Hin]|].
        intros Hin. right. exact Hin.
      * injection Hd as <- <- <-. exists []. simpl. rewrite app_nil_r.
        split; [reflexivity|]. split; [reflexivity|]. split; intros _; left; reflexivity.
      * injection Hd as <- <- <-. exists []. simpl. rewrite app_nil_r.
        split; [reflexivity|]. split; [reflexivity|]. split.
        -- intros [Hf | Hin]; [discriminate Hf | right; exact Hin].
        -- intros [Hf | Hin]; [discriminate Hf | right; exact Hin].
    + injection Hd as <- <- <-. exists []. simpl. rewrite app_nil_r.
      split; [reflexivity|]. split; [reflexivity|]. split; [tauto|].
      intros [Hf | Hin]; [discriminate Hf | exact Hin].
Qed.

Lemma estimated_size_app (a b : list (list Byte.byte)) :
  estimated_size (a ++ b) = estimated_size a + estimated_size b.
Proof.
  unfold estimated_size. induction a as [|x a IH]; simpl; [reflexivity|].
  rewrite IH. lia.
Qed.

Lemma drain_size (fmt : Z) (reads : list queue_item) :
  forall ms ts ms' b rest,
    drain fmt reads ms ts = (ms', b, rest) ->
    ts = estimated_size ms ->
    estimated_size (removelast ms) < 16 * 1024 * 1024 ->
    estimated_size (removelast ms') < 16 * 1024 * 1024.
Proof.
  induction reads as [|item reads IH]; intros ms ts ms' b rest Hd Hts Hms; simpl in Hd.
  - injection Hd as <- _ _. exact Hms.
  - destruct (Z.ltb_spec ts (16 * 1024 * 1024)) as [Hlt|Hge].
    + destruct item as [msg| |].
      * apply IH in Hd; [exact Hd| |].
        -- rewrite estimated_size_app, <- Hts. unfold estimated_size. simpl. lia.
        -- rewrite removelast_last, <- Hts. exact Hlt.
      * injection Hd as <- _ _. exact Hms.
      * injection Hd as <- _ _. exact Hms.
    + injection Hd as <- _ _. exact Hms.
Qed.

Lemma imap_index {A : Type} (fmt : Z) (payload : A -> data_oneof) (l : list A) :
  forall i : Z,
    map index (imap (fun j x => mkChunk fmt (i + Z.of_nat j) (payload x)) l)
    = map (fun j => i + Z.of_nat j) (seq 0 (length l)).
Proof.
  induction l as [|x l IH]; intros i; simpl; [reflexivity|].
  f_equal. rewrite <- seq_shift, map_map.
  rewrite <- (map_ext (fun j => i + 1 + Z.of_nat j)) by (intros; lia).
  rewrite <- IH. f_equal. apply imap_ext. intros j y _. simpl. f_equal. lia.
Qed.

Lemma chunks_payload (fmt start : Z) (l : list (list Byte.byte)) :
  map chunk_data
    (imap (fun i message_bytes => mkChunk fmt (start + Z.of_nat i) (chunk_payload message_bytes))
          l)
  = map chunk_payload l.
Proof.
  revert start. induction l as [|x l IH]; intros start; simpl; [reflexivity|].
  f_equal. rewrite <- (IH (start + 1)). f_equal.
  apply imap_ext. intros j y _. simpl. f_equal. lia.
Qed.

Lemma chunks_format (fmt start : Z) (l : list (list Byte.byte)) :
  Forall (fun c => chunk_data_format c = fmt)
    (imap (fun i message_bytes => mkChunk fmt (start + Z.of_nat i) (chunk_payload message_bytes))
          l).
Proof.
  apply Forall_forall. intros c Hc.
  apply elem_of_lookup_imap in Hc as (i & y & -> & _). reflexivity.
Qed.

(** What the loop sends from any value of [index] on: the messages read
    before the stop sentinel, batch by batch, one chunk per message,
    numbered from [index] on; and whether it returns. *)
Lemma generator_output_loop_sends (fcid : string) (fmt : Z)
    (reads : list queue_item) (index : Z) :
  forall m, 1 <= index ->
    exists new batches outcome,
      generator_output_loop fcid fmt reads index m
        = (Ok outcome, set_trace (trace m ++ new) m) /\
      (outcome = TaskReturned <-> In GENERATOR_STOP_SENTINEL reads) /\
      consecutive_from index (data_out_requests new) /\
      concat batches
      = map (fun msg => serialize_data_format msg fmt) (messages_before_stop reads) /\
      concat (data_out_requests new)
      = imap (fun k message_bytes =>
                mkChunk fmt (index + Z.of_nat k) (chunk_payload message_bytes))
             (concat batches) /\
      map (map chunk_data) (data_out_requests new) = map (map chunk_payload) batches /\
      Forall (fun c => chunk_data_format c = fmt) (concat (data_out_requests new)) /\
      Forall (fun b => b <> [] /\ estimated_size (removelast b) < 16 * 1024 * 1024) batches /\
      sleeps new = (if (index =? 1) && negb (length batches =? 0)%nat
                    then [1 # 1000] else []) /\
      Forall (fun e => match e with
                       | Sleep _ => True
                       | Rpc (FunctionCallPutDataOut f _) => f = fcid
                       | _ => False
                       end) new.
Proof.
  funelim (generator_output_loop fcid fmt reads index); intros m Hidx.
  - exists [], [], AwaitingGet. run_M. destruct m; simpl. rewrite app_nil_r.
    rewrite andb_false_r.
    split; [reflexivity|]. split; [split; [discriminate | intros []]|].
    repeat split; constructor.
  - exists [], [], TaskReturned. run_M. destruct m; simpl. rewrite app_nil_r.
    rewrite andb_false_r.
    split; [reflexivity|]. split; [split; [intros _; left; reflexivity | reflexivity]|].
    repeat split; constructor.
  - destruct (H0 m m Hidx) as (new & batches & outcome & Hrun & Hout & Hrest).
    exists new, batches, outcome. split; [exact Hrun|]. split; [|exact Hrest].
    rewrite Hout. simpl. split; [intros Hin; right; exact Hin|].
    intros [Hf | Hin]; [discriminate Hf | exact Hin].
  - pose proof (drain_batches _ _ _ _ _ _ _ Hdrain) as (taken & Hsm & Hmsgs & Hstop).
    assert (Hsize : estimated_size (removelast serialized_messages) < 16 * 1024 * 1024).
    { apply (drain_size _ _ _ _ _ _ _ Hdrain); unfold estimated_size, len; simpl; lia. }
    assert (Hne : serialized_messages <> []) by (rewrite Hsm; discriminate).
    assert (Hidx' : 1 <= index0 + len serialized_messages).
    { unfold len. destruct serialized_messages; [congruence | simpl; lia]. }
    assert (Hnext : (index0 + len serialized_messages =? 1) = false).
    { apply Z.eqb_neq. unfold len in *.
      destruct serialized_messages; [congruence | simpl; lia]. }
    pose proof (fun s => H0 tt tt m s Hidx') as IH.
    clear H0 H1 Heqcall Hdrain.
    unfold put_data_out. run_M.
    change (imap _ serialized_messages)
      with (imap (fun i message_bytes =>
                    mkChunk fmt (index0 + Z.of_nat i) (chunk_payload message_bytes))
                 serialized_messages).
    set (chunks := imap _ serialized_messages).
    assert (Hexact : chunks = imap (fun i message_bytes =>
                                      mkChunk fmt (index0 + Z.of_nat i)
                                        (chunk_payload message_bytes))
                                   serialized_messages) by reflexivity.
    assert (Hpay : map chunk_data chunks = map chunk_payload serialized_messages)
      by apply chunks_payload.
    assert (Hfmt : Forall (fun c => chunk_data_format c = fmt) chunks)
      by apply chunks_format.
    assert (Hi : map Manager.index chunks
                 = map (fun j => index0 + Z.of_nat j) (seq 0 (length chunks))).
    { unfold chunks. rewrite length_imap. apply imap_index. }
    assert (Hc : chunks <> []).
    { intros Hnil. apply (f_equal length) in Hnil. unfold chunks in Hnil.
      rewrite length_imap in Hnil. destruct serialized_messages; [congruence | discriminate]. }
    assert (Hlen : len chunks = len serialized_messages).
    { unfold len, chunks. rewrite length_imap. reflexivity. }
    clearbody chunks. unfold data_out_requests, sleeps in *.
    destruct received_sentinel.
    + destruct (index0 =? 1) eqn:Hi1; simpl;
        [ exists [Sleep (1 # 1000); Rpc (FunctionCallPutDataOut fcid chunks)]
        | exists [Rpc (FunctionCallPutDataOut fcid chunks)] ];
        exists [serialized_messages], TaskReturned;
        (split; [destruct m; simpl; rewrite <- ?app_assoc; reflexivity|]);
        (split; [split; [intros _; right; apply Hstop; left; reflexivity | reflexivity]|]);
        (split; [simpl; repeat split; assumption|]);
        (split; [simpl; rewrite Hmsgs, !app_nil_r, Hsm; reflexivity|]);
        (split; [simpl; rewrite !app_nil_r; exact Hexact|]);
        (split; [simpl; rewrite Hpay; reflexivity|]);
        (split; [simpl; rewrite app_nil_r; exact Hfmt|]);
        (split; [repeat constructor; assumption|]);
        (split; [reflexivity | repeat constructor]).
    + assert (Hshift : forall batches',
                 chunks ++ imap (fun k message_bytes =>
                                   mkChunk fmt (index0 + len serialized_messages + Z.of_nat k)
                                     (chunk_payload message_bytes))
                                (concat batches')
                 = imap (fun k message_bytes =>
                           mkChunk fmt (index0 + Z.of_nat k) (chunk_payload message_bytes))
                        (serialized_messages ++ concat batches')).
      { intros batches'. rewrite imap_app, <- Hexact. f_equal.
        apply imap_ext. intros k y _. simpl. f_equal. unfold len. lia. }
      destruct (index0 =? 1) eqn:Hi1; simpl;
        match goal with
        | |- context [generator_output_loop _ _ _ _ ?s] =>
            destruct (IH s)
              as (new' & batches' & outcome & -> & Hout & Hcons & Hcat & Hex & Hreq & Hf
                  & Hb & Hs & He)
        end;
        [ exists ([Sleep (1 # 1000); Rpc (FunctionCallPutDataOut fcid chunks)] ++ new')
        | exists ([Rpc (FunctionCallPutDataOut fcid chunks)] ++ new') ];
        exists (serialized_messages :: batches'), outcome;
        (split; [destruct m; simpl; rewrite <- !app_assoc; reflexivity|]);
        (split; [rewrite Hout; simpl; split;
                 [ intros Hin; right; apply Hstop; right; exact Hin
                 | intros [Hf' | Hin]; [discriminate Hf'|];
                   apply Hstop in Hin as [Hf' | Hin]; [discriminate Hf' | exact Hin] ]|]);
        (split; [simpl; rewrite Hlen; repeat split; assumption|]);
        (split; [simpl; rewrite Hcat, Hmsgs, Hsm, map_app; reflexivity|]);
        (split; [simpl; etrans; [|apply Hshift]; f_equal; exact Hex|]);
        (split; [simpl; f_equal; [exact Hpay | exact Hreq]|]);
        (split; [simpl; apply Forall_app; split; assumption|]);
        (split; [constructor; [split; assumption | exact Hb]|]);
        (split; [rewrite omap_app, Hs, Hnext; reflexivity
                | simpl; repeat constructor; assumption]).
Qed.

Lemma consecutive_from_lookup (requests : list (list DataChunk)) :
  forall i k r,
    consecutive_from i requests -> requests !! k = Some r ->
    r <> [] /\
    map Manager.index r
    = map (fun j => i + len (concat (take k requests)) + Z.of_nat j) (seq 0 (length r)).
Proof.
  induction requests as [|r0 requests IH]; intros i k r Hc Hk; [discriminate|].
  destruct Hc as (Hne & Hidx & Hrest). destruct k as [|k]; simpl in *.
  - injection Hk as <-. split; [exact Hne|]. rewrite Hidx.
    apply map_ext. intros j. unfold len. simpl. lia.
  - destruct (IH _ _ _ Hrest Hk) as (Hr & Hmap). split; [exact Hr|].
    rewrite Hmap. apply map_ext. intros j. unfold len. rewrite !length_app. lia.
Qed.

Lemma seq_from (a n : nat) : seq a n = map (fun j => (a + j)%nat) (seq 0 n).
Proof.
  revert a. induction n as [|n IH]; intros a; simpl; [reflexivity|].
  rewrite Nat.add_0_r. f_equal. rewrite (IH (S a)), (IH 1%nat), map_map.
  apply map_ext. intros j. lia.
Qed.

Lemma consecutive_from_concat (requests : list (list DataChunk)) :
  forall i,
    consecutive_from i requests ->
    map Manager.index (concat requests)
    = map (fun j => i + Z.of_nat j) (seq 0 (length (concat requests))).
Proof.
  induction requests as [|r0 requests IH]; intros i Hc; [reflexivity|].
  destruct Hc as (_ & Hidx & Hrest). simpl.
  rewrite map_app, length_app, seq_app, map_app, Hidx, (IH _ Hrest). f_equal.
  simpl. rewrite (seq_from (length r0)), map_map.
  apply map_ext. intros j. unfold len. lia.
Qed.

(** C7. Whatever the queue delivers and when, the generator output task
    does not raise, and it returns exactly when the stop sentinel has been
    delivered (until then it waits in [get()]). What it has sent by then
    is exactly one chunk per message delivered before the sentinel, in the
    order delivered, and the k-th of these messages (counting from 0) is
    sent with index k + 1: the first message of the call has index 1.
    Chunk by request: every request carries at least one chunk, the first
    chunk of the k-th request has index 1 plus the number of chunks in the
    requests before it, the chunks within a request are numbered
    consecutively, and so the indices are 1, 2, 3, ... and strictly
    increasing along the stream. *)
Theorem generator_chunk_indices (fcid : string) (fmt : Z)
    (reads : list queue_item) (m : manager) :
  exists new outcome,
    generator_output_task fcid fmt reads m = (Ok outcome, set_trace (trace m ++ new) m) /\
    (outcome = TaskReturned <-> In GENERATOR_STOP_SENTINEL reads) /\
    concat (data_out_requests new)
    = imap (fun k message =>
              mkChunk fmt (1 + Z.of_nat k)
                (chunk_payload (serialize_data_format message fmt)))
           (messages_before_stop reads) /\
    (forall k r, data_out_requests new !! k = Some r ->
       r <> [] /\
       map Manager.index r
       = map (fun j => 1 + len (concat (take k (data_out_requests new))) + Z.of_nat j)
             (seq 0 (length r))) /\
    map Manager.index (concat (data_out_requests new))
    = map (fun j => 1 + Z.of_nat j) (seq 0 (length (concat (data_out_requests new)))) /\
    (forall i j a b,
       (i < j)%nat ->
       map Manager.index (concat (data_out_requests new)) !! i = Some a ->
       map Manager.index (concat (data_out_requests new)) !! j = Some b ->
       a < b).
Proof.
  unfold generator_output_task.
  destruct (generator_output_loop_sends fcid fmt reads 1 m ltac:(lia))
    as (new & batches & outcome & Hrun & Hout & Hc & Hcat & Hex & _).
  exists new, outcome. split; [exact Hrun|]. split; [exact Hout|]. split; [|split; [|split]].
  - rewrite Hex, Hcat. rewrite imap_fmap. reflexivity.
  - intros k r Hk. apply (consecutive_from_lookup _ _ _ _ Hc Hk).
  - apply (consecutive_from_concat _ _ Hc).
  - intros i j a b Hij. rewrite (consecutive_from_concat _ _ Hc).
    rewrite !list_lookup_fmap. intros Ha Hb.
    destruct (seq 0 _ !! i) as [x|] eqn:Hx; [|discriminate].
    destruct (seq 0 _ !! j) as [y|] eqn:Hy; [|discriminate].
    apply lookup_seq in Hx as [-> _]. apply lookup_seq in Hy as [-> _].
    simpl in Ha, Hb. injection Ha as <-. injection Hb as <-. lia.
Qed.

End WithHost.

End GeneratorFacts.

Module BatchFacts.
Import Ctx.

Lemma mapM_res_length {A B : Type} (f : A -> res B) (l : list A) (k : list B) :
  mapM f l = Ok k -> length k = length l.
Proof.
  revert k. induction l as [|x l IH]; intros k Hk; simpl in Hk.
  - injection Hk as <-. reflexivity.
  - unfold mbind, res_bind in Hk. destruct (f x) as [y|]; [|discriminate].
    fold (mapM f l) in Hk. destruct (mapM f l) as [k'|]; [|discriminate].
    injection Hk as <-. simpl. f_equal. apply IH. reflexivity.
Qed.








End BatchFacts.

Module OutputFacts.
Import Manager.

Lemma for_each_emit {A : Type} (f : A -> event) (l : list A) (m : manager) :
  for_each l (fun x => emit (f x)) m = (Ok tt, set_trace (trace m ++ map f l) m).
Proof.
  revert m. induction l as [|x l IH]; intros m; simpl; run_M.
  - destruct m; simpl. rewrite app_nil_r. reflexivity.
  - rewrite IH. destruct m; simpl. rewrite <- app_assoc. reflexivity.
Qed.

Lemma take_slices {A : Type} (l : list A) (s c : nat) :
  concat (map (fun i => slice i s l) (map (fun k => (k * s)%nat) (seq 0 c)))
  = take (c * s) l.
Proof.
  induction c as [|c IH]; [reflexivity|].
  rewrite seq_S, !map_app, concat_app, IH. simpl. rewrite app_nil_r.
  unfold slice. rewrite take_take_drop. f_equal. lia.
Qed.

Lemma concat_slices {A : Type} (l : list A) (s : nat) :
  (0 < s)%nat ->
  concat (map (fun i => slice i s l) (range_step (length l) s)) = l.
Proof.
  intros Hs. unfold range_step. rewrite take_slices. apply take_ge.
  pose proof (Nat.div_mod_eq (length l + s - 1) s) as Hdiv.
  pose proof (Nat.mod_upper_bound (length l + s - 1) s ltac:(lia)) as Hmod.
  nia.
Qed.

Lemma put_outputs_items_sent {A : Type} (g : A -> list FunctionPutOutputsItem) (l : list A) :
  put_outputs_items (map (fun i => Rpc (FunctionPutOutputs (g i))) l) = concat (map g l).
Proof.
  unfold put_outputs_items. induction l as [|x l IH]; [reflexivity|].
  simpl. f_equal. exact IH.
Qed.

Lemma zip3_const {A B C : Type} (a : list A) (b : list B) (c : C) :
  zip3 a b (map (fun _ => c) a) = map (fun p => (p.1, p.2, c)) (zip a b).
Proof.
  revert b. induction a as [|x a IH]; intros [|y b]; simpl; try reflexivity.
  f_equal. apply IH.
Qed.

Lemma zip3_zip {A B C : Type} (a : list A) (b : list B) (c : list C) :
  length b = length a -> length c = length a ->
  length (zip3 a b c) = length a /\ map (fun t => t.1) (zip3 a b c) = zip a b.
Proof.
  revert b c. induction a as [|x a IH]; intros [|y b] [|z c] Hb Hc;
    simpl in *; try discriminate; [split; reflexivity|].
  destruct (IH b c ltac:(lia) ltac:(lia)) as [Hl Hm]. split; [lia|]. f_equal. exact Hm.
Qed.

Lemma zip_fst {A B : Type} (a : list A) (b : list B) :
  length b = length a -> map fst (zip a b) = a.
Proof.
  revert b. induction a as [|x a IH]; intros [|y b] Hb; simpl in *;
    try discriminate; [reflexivity|].
  f_equal. apply IH. lia.
Qed.

Section WithHost.
Context `{Host}.

(** [_push_outputs] reads the clock once and sends the composed outputs,
    all of them and in order. *)
Lemma push_outputs_sent (c : Ctx.IOContext) (t : Q) (fmt : Z)
    (results : list GenericResult) (m : manager) :
  exists new,
    _push_outputs c t fmt results m
      = (Ok tt, set_trace (trace m ++ new) (set_readings (S (readings m)) m)) /\
    put_outputs_items new =
      map (fun x => mkItem x.1.1 t (clock m (readings m)) x.2 fmt x.1.2)
          (zip3 (Ctx.input_ids c) (Ctx.retry_counts c) results).
Proof.
  unfold _push_outputs. run_M.
  set (outputs := map _ (zip3 _ _ results)).
  pose proof (for_each_emit (fun i => Rpc (FunctionPutOutputs (slice i 20 outputs))))
    as Hemit.
  run_M. rewrite Hemit.
  eexists. split; [destruct m; reflexivity|].
  rewrite put_outputs_items_sent, concat_slices by lia.
  unfold outputs. destruct m; simpl. apply map_ext. intros [[id retry] r]. reflexivity.
Qed.

Lemma pop_current_input_trace (id : string) (m : manager) :
  trace (pop_current_input id m).2 = trace m.
Proof.
  unfold pop_current_input. run_M. destruct (current_inputs m !! id); destruct m; reflexivity.
Qed.

Lemma pop_current_inputs_trace (ids : list string) (m : manager) :
  trace (for_each ids pop_current_input m).2 = trace m.
Proof.
  revert m. induction ids as [|id ids IH]; intros m; simpl; run_M; [reflexivity|].
  pose proof (pop_current_input_trace id m) as Hp.
  destruct (pop_current_input id m) as [[[]|e] m1]; simpl in *.
  - rewrite IH. exact Hp.
  - exact Hp.
Qed.

Lemma exit_context_trace (t : Q) (ids : list string) (m : manager) :
  trace (exit_context t ids m).2 = trace m.
Proof.
  unfold exit_context. run_M.
  match goal with
  | |- context [for_each ids pop_current_input ?s] =>
      pose proof (pop_current_inputs_trace ids s) as Hp;
      destruct (for_each ids pop_current_input s) as [[[]|e] m1]
  end; simpl in *.
  - destruct (Slots.release (_input_slots m1)) as [r w]. simpl.
    rewrite <- Hp. destruct m1, m; reflexivity.
  - rewrite Hp. destruct m; reflexivity.
Qed.

(** An [Exception] raised while an input is processed is answered with
    one failure output per input of the context. *)
Lemma failure_broadcast (c : Ctx.IOContext) (t : Q) (e : exn) (m : manager) :
  is_Exception e = true ->
  exists new,
    trace (on_input_exception c t e m).2 = trace m ++ new /\
    put_outputs_items new = failure_items c t (clock m (readings m)) e.
Proof.
  intros He.
  destruct (push_outputs_sent c t DATA_FORMAT_PICKLE
              (map (fun _ => failure_result e) (Ctx.input_ids c)) m)
    as (new & Hpush & Hitems).
  exists new. split.
  - destruct e; try discriminate He; unfold on_input_exception; run_M;
      rewrite Hpush; cbv beta iota;
      match goal with
      | |- context [exit_context ?a ?b ?s] =>
          pose proof (exit_context_trace a b s) as Hx;
          destruct (exit_context a b s) as [r m1]
      end; simpl in *; rewrite Hx; destruct m; reflexivity.
  - rewrite Hitems, zip3_const, map_map. unfold failure_items. reflexivity.
Qed.

Lemma failure_items_cover (c : Ctx.IOContext) (t created : Q) (e : exn) :
  length (Ctx.retry_counts c) = length (Ctx.input_ids c) ->
  map input_id (failure_items c t created e) = Ctx.input_ids c /\
  length (failure_items c t created e) = length (Ctx.input_ids c) /\
  Forall (fun o => result_status (result o) = GENERIC_STATUS_FAILURE /\
                   exception (result o) = trimmed_repr (repr e))
         (failure_items c t created e).
Proof.
  intros Hlen. unfold failure_items. split; [|split].
  - rewrite map_map. simpl. apply zip_fst. exact Hlen.
  - rewrite length_map, length_zip. lia.
  - apply Forall_map. apply Forall_forall. intros p _. split; reflexivity.
Qed.

End WithHost.

End OutputFacts.

Module BatchClaims.
Import Ctx Manager.

Section WithHost.
Context `{Host}.

(** A context made by [IOContext.create] has one retry count and one
    function input per input id, and a batched one has at least one
    input. *)
Lemma create_shape (ffs : gmap string FinalizedFunction)
    (inputs : list (string * Z * string * FunctionInput)) (b : bool) (c : IOContext) :
  create ffs inputs b = Ok c ->
  _is_batched c = b /\
  length (retry_counts c) = length (input_ids c) /\
  length (function_inputs c) = length (input_ids c) /\
  (1 <= length (input_ids c))%nat.
Proof.
  unfold create. intros Hc.
  destruct (negb _) eqn:Hassert; [discriminate|].
  unfold mbind, res_bind in Hc.
  destruct (mapM _populate_input_blobs (map snd inputs)) as [fis|] eqn:Hfis; [|discriminate].
  apply BatchFacts.mapM_res_length in Hfis. rewrite length_map in Hfis.
  destruct fis as [|first fis]; [discriminate|].
  destruct (negb (forallb _ _)); [discriminate|].
  destruct (ffs !! method_name first) as [ff|]; [|discriminate].
  injection Hc as <-. simpl in *. rewrite !length_map. repeat split; lia.
Qed.



(** C6. For a batched context made by [IOContext.create] over N inputs:
    when the function returned a list of N values, [push_outputs] sends
    exactly N outputs, the k-th one a SUCCESS for the k-th input id with
    the k-th retry count; when it returned something that is not a list,
    or a list of another length, [validate_output_data] raises an
    [InvalidError], nothing is sent by [push_outputs], and under
    [handle_input_exception] every input of the batch gets one FAILURE
    output carrying that error. *)
Theorem batched_output_records (ffs : gmap string FinalizedFunction)
    (inputs : list (string * Z * string * FunctionInput)) (c : IOContext)
    (started_at : Q) (fmt : Z) (data : pyval) (m : manager) :
  create ffs inputs true = Ok c ->
  if match data with
     | PyList l => len l =? len (input_ids c)
     | _ => false
     end
  then
    exists l new,
      data = PyList l /\
      validate_output_data c data = Ok l /\
      trace (push_outputs c started_at data fmt m).2 = trace m ++ new /\
      length (put_outputs_items new) = length (input_ids c) /\
      map (fun o => (input_id o, retry_count o)) (put_outputs_items new)
        = zip (input_ids c) (retry_counts c) /\
      map (fun o => result_data (result o)) (put_outputs_items new)
        = map (fun d => format_blob_data (serialize_data_format d fmt)) l /\
      Forall (fun o => result_status (result o) = GENERIC_STATUS_SUCCESS)
             (put_outputs_items new)
  else
    exists msg new,
      validate_output_data c data = Raise (InvalidError msg) /\
      push_outputs c started_at data fmt m = (Raise (InvalidError msg), m) /\
      trace (handle_input_exception c started_at
               (push_outputs c started_at data fmt) m).2 = trace m ++ new /\
      put_outputs_items new
        = failure_items c started_at (clock m (readings m)) (InvalidError msg) /\
      map input_id (put_outputs_items new) = input_ids c /\
      length (put_outputs_items new) = length (input_ids c) /\
      Forall (fun o => result_status (result o) = GENERIC_STATUS_FAILURE /\
                       exception (result o) = trimmed_repr (repr (InvalidError msg)))
             (put_outputs_items new).
Proof.
  intros Hcreate.
  destruct (create_shape _ _ _ _ Hcreate) as (Hb & Hretries & _ & _).
  assert (Hfail : forall msg,
            validate_output_data c data = Raise (InvalidError msg) ->
            exists msg new,
              validate_output_data c data = Raise (InvalidError msg) /\
              push_outputs c started_at data fmt m = (Raise (InvalidError msg), m) /\
              trace (handle_input_exception c started_at
                       (push_outputs c started_at data fmt) m).2 = trace m ++ new /\
              put_outputs_items new
                = failure_items c started_at (clock m (readings m)) (InvalidError msg) /\
              map input_id (put_outputs_items new) = input_ids c /\
              length (put_outputs_items new) = length (input_ids c) /\
              Forall (fun o => result_status (result o) = GENERIC_STATUS_FAILURE /\
                               exception (result o) = trimmed_repr (repr (InvalidError msg)))
                     (put_outputs_items new)).
  { intros msg Hv.
    destruct (OutputFacts.failure_broadcast c started_at (InvalidError msg) m eq_refl)
      as (new & Htrace & Hitems).
    assert (Hpush : push_outputs c started_at data fmt m = (Raise (InvalidError msg), m)).
    { unfold push_outputs. run_M. rewrite Hv. reflexivity. }
    exists msg, new. split; [exact Hv|]. split; [exact Hpush|]. split.
    - unfold handle_input_exception. run_M. rewrite Hpush. exact Htrace.
    - split; [exact Hitems|]. rewrite Hitems.
      apply (OutputFacts.failure_items_cover c started_at _ (InvalidError msg) Hretries). }
  destruct data as [| n | s | b | l];
    try (eapply Hfail; unfold validate_output_data; rewrite Hb; reflexivity).
  destruct (len l =? len (input_ids c)) eqn:Hlen;
    [|eapply Hfail; unfold validate_output_data; rewrite Hb; simpl; rewrite Hlen; reflexivity].
  assert (Hv : validate_output_data c (PyList l) = Ok l).
  { unfold validate_output_data. rewrite Hb. simpl. rewrite Hlen. reflexivity. }
  apply Z.eqb_eq in Hlen. unfold len in Hlen.
  set (results := map (fun d => mkResult GENERIC_STATUS_SUCCESS d "" "" [] [])
                      (map (fun d => format_blob_data (serialize_data_format d fmt)) l)).
  destruct (OutputFacts.push_outputs_sent c started_at fmt results m)
    as (new & Hpush & Hitems).
  destruct (OutputFacts.zip3_zip (input_ids c) (retry_counts c) results)
    as (Hlen3 & Hzip); [exact Hretries | unfold results; rewrite !length_map; lia |].
  exists l, new. split; [reflexivity|]. split; [exact Hv|]. split.
  - unfold push_outputs. run_M. rewrite Hv. fold results. rewrite Hpush. cbv beta iota.
    match goal with
    | |- context [exit_context ?a ?b ?s] =>
        pose proof (OutputFacts.exit_context_trace a b s) as Hx;
        destruct (exit_context a b s) as [r m1]
    end. simpl in *. rewrite Hx. destruct m; reflexivity.
  - rewrite Hitems. split; [rewrite length_map; exact Hlen3|]. split; [|split].
    + rewrite map_map. simpl. rewrite <- Hzip. apply map_ext. intros [[id retry] r].
      reflexivity.
    + rewrite map_map. simpl.
      assert (Hres : forall (a : list string) (b : list Z) (rs : list GenericResult),
                 length b = length a -> length rs = length a ->
                 map (fun x => result_data x.2) (zip3 a b rs) = map result_data rs).
      { induction a as [|x a IH]; intros [|y b'] [|z rs] Hb' Hrs; simpl in *;
          try discriminate; [reflexivity|]. f_equal. apply IH; lia. }
      rewrite Hres; [|exact Hretries | unfold results; rewrite !length_map; lia].
      unfold results. rewrite map_map. simpl. apply map_id.
    + apply Forall_map. apply Forall_forall. intros [[id retry] r] Hin. simpl.
      assert (Hall : Forall (fun r => result_status r = GENERIC_STATUS_SUCCESS) results).
      { unfold results. apply Forall_map. apply Forall_forall. intros; reflexivity. }
      assert (Hin3 : forall (a : list string) (b : list Z) (rs : list GenericResult) x,
                 x ∈ zip3 a b rs -> x.2 ∈ rs).
      { induction a as [|x0 a IH]; intros [|y b'] [|z rs] x Hx; simpl in *;
          try (apply elem_of_nil in Hx; destruct Hx).
        apply elem_of_cons in Hx as [-> | Hx]; [left | right; apply (IH _ _ _ Hx)]. }
      apply Hin3 in Hin. simpl in Hin.
      rewrite Forall_forall in Hall. apply Hall, Hin.
Qed.

End WithHost.


Lemma batched_output_records_witness :
  exists l new,
    PyList [PyInt 1; PyInt 2] = PyList l /\
    validate_output_data (Demo.ctx_of Demo.batch22) (PyList [PyInt 1; PyInt 2]) = Ok l /\
    trace (@push_outputs (Demo.host 2097152) (Demo.ctx_of Demo.batch22) 0
             (PyList [PyInt 1; PyInt 2]) 1
             (Demo.with_context (Demo.ctx_of Demo.batch22) (Demo.manager0 1 1))).2
      = trace (Demo.with_context (Demo.ctx_of Demo.batch22) (Demo.manager0 1 1)) ++ new /\
    length (put_outputs_items new) = 2%nat.
Proof.
  pose proof (@batched_output_records (Demo.host 2097152)
                {[ ""%string := Demo.f_xy ]} Demo.batch22 (Demo.ctx_of Demo.batch22)
                0 1 (PyList [PyInt 1; PyInt 2])
                (Demo.with_context (Demo.ctx_of Demo.batch22) (Demo.manager0 1 1))
                eq_refl) as Hrec.
  simpl in Hrec. destruct Hrec as (l & new & Hl & Hv & Htrace & Hlen & _).
  exists l, new. repeat split; assumption.
Defined.


End BatchClaims.

(** * Further properties of the code *)

Module SlotsExtra.
Import Slots.

(** X1. In every state of the semaphore, a parked waiter means that the
    semaphore is full, and the future it is parked on has not been
    resolved: it is pending, or cancelled. *)
Theorem parked_waiter_means_full (w : world) (f : nat) :
  reachable w ->
  waiter (slots w) = Some f ->
  value (slots w) <= active (slots w) /\
  (futures w !! f = Some Pending \/ futures w !! f = Some Cancelled).
Proof. intros Hr Hf. apply (SlotsFacts.slots_reachable_inv w Hr f Hf). Qed.

Lemma parked_waiter_means_full_witness :
  value (slots (run_op OpAcquire (init 0)).2) <= active (slots (run_op OpAcquire (init 0)).2) /\
  (futures (run_op OpAcquire (init 0)).2 !! 0%nat = Some Pending \/
   futures (run_op OpAcquire (init 0)).2 !! 0%nat = Some Cancelled).
Proof.
  apply (parked_waiter_means_full (run_op OpAcquire (init 0)).2 0).
  - apply reach_step, reach_init.
  - reflexivity.
Defined.

(** X2. While a waiter is parked, another [acquire()] raises [RuntimeError]
    and leaves the semaphore as it is. *)
Theorem second_waiter_fails_fast (w : world) (f : nat) :
  reachable w ->
  waiter (slots w) = Some f ->
  acquire w = (Raise (RuntimeError "Concurrent waiters are not supported."), w).
Proof.
  intros Hr Hf. destruct (SlotsFacts.slots_reachable_inv w Hr f Hf) as [Hge _].
  unfold acquire. run_M. apply Z.ltb_ge in Hge. rewrite Hge, Hf. reflexivity.
Qed.

Lemma second_waiter_fails_fast_witness :
  acquire (run_op OpAcquire (init 0)).2
  = (Raise (RuntimeError "Concurrent waiters are not supported."),
     (run_op OpAcquire (init 0)).2).
Proof.
  apply (second_waiter_fails_fast (run_op OpAcquire (init 0)).2 0).
  - apply reach_step, reach_init.
  - reflexivity.
Defined.

(** On a full semaphore with nobody parked, [acquire()] takes no slot: it
    parks the caller on a new pending future and records it as the
    waiter. *)
Theorem acquire_parks_when_full (w : world) :
  value (slots w) <= active (slots w) ->
  waiter (slots w) = None ->
  exists w',
    acquire w = (Ok (Parked (length (futures w))), w') /\
    active (slots w') = active (slots w) /\
    value (slots w') = value (slots w) /\
    waiter (slots w') = Some (length (futures w)) /\
    futures w' = futures w ++ [Pending].
Proof.
  intros Hge Hw. unfold acquire, create_future. run_M.
  apply Z.ltb_ge in Hge. rewrite Hge, Hw. simpl.
  eexists. split; [reflexivity|]. repeat split.
Qed.

Lemma acquire_parks_when_full_witness :
  exists w',
    acquire (init 0) = (Ok (Parked 0), w') /\
    active (slots w') = 0 /\ value (slots w') = 0 /\
    waiter (slots w') = Some 0%nat /\ futures w' = [Pending].
Proof.
  apply (acquire_parks_when_full (init 0)); [simpl; lia | reflexivity].
Defined.

(** X3. When a waiter is parked on a semaphore that is exactly full,
    [release()] hands the slot over: [active] is the same after the call,
    the waiter reference is cleared, and the waiter's future is resolved
    unless the waiter had been cancelled. *)
Theorem release_hands_slot_to_waiter (w : world) (f : nat) :
  reachable w ->
  waiter (slots w) = Some f ->
  active (slots w) = value (slots w) ->
  exists w',
    release w = (Ok tt, w') /\
    active (slots w') = active (slots w) /\
    value (slots w') = value (slots w) /\
    waiter (slots w') = None /\
    (futures w !! f = Some Pending -> futures w' = <[f := Resolved]> (futures w)) /\
    (futures w !! f = Some Cancelled -> futures w' = futures w).
Proof.
  intros Hr Hf Hfull.
  destruct (SlotsFacts.slots_reachable_inv w Hr f Hf) as [_ Hfut].
  destruct w as [[a v wt c] futs]. simpl in *. subst wt v.
  unfold release, _wake_waiter, cancelled, set_result. run_M. simpl.
  replace (a - 1 <? a) with true by (symmetry; apply Z.ltb_lt; lia).
  destruct Hfut as [Hp | Hp]; repeat (progress (rewrite ?Hp; simpl));
    (eexists; split; [reflexivity|]); unfold set_active; simpl;
    (repeat split; try lia; intros; congruence).
Qed.

Lemma release_hands_slot_to_waiter_witness :
  exists w',
    release (run_op OpAcquire (init 0)).2 = (Ok tt, w') /\
    active (slots w') = 0 /\ waiter (slots w') = None /\ futures w' = [Resolved].
Proof.
  destruct (release_hands_slot_to_waiter (run_op OpAcquire (init 0)).2 0)
    as (w' & Hrel & Ha & _ & Hw & Hp & _).
  - apply reach_step, reach_init.
  - reflexivity.
  - reflexivity.
  - exists w'. split; [exact Hrel|]. split; [exact Ha|]. split; [exact Hw|].
    apply Hp. reflexivity.
Defined.

End SlotsExtra.

Module ClosingFacts.
Import Slots.

(** The closing loop takes the free slots one by one and parks on the
    first iteration that finds none. *)
Lemma close_loop_spec (n : nat) :
  forall w,
    waiter (slots w) = None ->
    active (slots w) <= value (slots w) ->
    if (n <=? Z.to_nat (value (slots w) - active (slots w)))%nat then
      close_loop n w = (Ok None, set_active (active (slots w) + Z.of_nat n) w)
    else
      close_loop n w =
        (Ok (Some (length (futures w),
                   (n - Z.to_nat (value (slots w) - active (slots w)) - 1)%nat)),
         mkWorld (mkSlots (value (slots w)) (value (slots w))
                    (Some (length (futures w))) (closed (slots w)))
                 (futures w ++ [Pending])).
Proof.
  induction n as [|n IH]; intros [[a v wt c] futs] Hw Hle; simpl in *; subst wt.
  - run_M. unfold set_active. simpl. rewrite Z.add_0_r. reflexivity.
  - unfold acquire, create_future. run_M. simpl.
    destruct (a <? v) eqn:Hlt.
    + apply Z.ltb_lt in Hlt. simpl.
      specialize (IH (set_active (a + 1) (mkWorld (mkSlots a v None c) futs))
                     eq_refl ltac:(simpl; lia)).
      simpl in IH. unfold set_active in *. simpl in *.
      replace (Z.to_nat (v - a)) with (S (Z.to_nat (v - (a + 1)))) by lia.
      destruct (n <=? Z.to_nat (v - (a + 1)))%nat eqn:Hn.
      * apply Nat.leb_le in Hn.
        replace (S n <=? S (Z.to_nat (v - (a + 1))))%nat with true
          by (symmetry; apply Nat.leb_le; lia).
        rewrite IH. do 3 f_equal. lia.
      * apply Nat.leb_gt in Hn.
        replace (S n <=? S (Z.to_nat (v - (a + 1))))%nat with false
          by (symmetry; apply Nat.leb_gt; lia).
        rewrite IH. reflexivity.
    + apply Z.ltb_ge in Hlt. assert (a = v) as -> by lia. simpl.
      rewrite Z.sub_diag. simpl. rewrite Nat.sub_0_r. reflexivity.
Qed.

Lemma closing_step_inv (v : Z) (e : closing_event) (s s' : closing) :
  closing_inv v s -> closing_step e s = Some s' -> closing_inv v s'.
Proof.
  intros (Hv & Hc & Htask) Hstep.
  destruct s as [[[a v0 wt c] futs] task h]. simpl in *. subst v0 c.
  destruct e; simpl in Hstep.
  - (* a holder releases *)
    destruct h as [|h]; [discriminate|].
    unfold release, _wake_waiter, cancelled, set_result in Hstep. run_M. simpl in Hstep.
    destruct task as [f n|].
    + destruct Htask as [(Hf & Hw & Ha & Hacc) | (Hf & Hw & Hle & Hacc)]; subst wt.
      * destruct (Z.ltb_spec (a - 1) v) as [Hlt | Hge].
        -- repeat (progress (rewrite ?Hf in Hstep; simpl in Hstep)).
           injection Hstep as <-. unfold closing_inv, set_active; simpl.
           split; [reflexivity|]. split; [reflexivity|].
           right. split; [|split; [reflexivity | split; lia]].
           apply list_lookup_insert_eq. apply lookup_lt_Some in Hf. exact Hf.
        -- injection Hstep as <-. unfold closing_inv, set_active; simpl.
           split; [reflexivity|]. split; [reflexivity|].
           left. split; [exact Hf|]. split; [reflexivity | split; lia].
      * injection Hstep as <-. unfold closing_inv, set_active; simpl.
        split; [reflexivity|]. split; [reflexivity|].
        right. split; [exact Hf|]. split; [reflexivity | split; lia].
    + destruct Htask as (Hw & Hle & Hacc). lia.
  - (* the closing task resumes *)
    destruct task as [f n|]; [|discriminate].
    destruct (futs !! f) as [[]|] eqn:Hf; try discriminate.
    destruct Htask as [(Hf' & _) | (_ & Hw & Hle & Hacc)]; [congruence|]. subst wt.
    pose proof (close_loop_spec n (mkWorld (mkSlots a v None true) futs) eq_refl Hle)
      as Hloop. simpl in Hloop.
    destruct (n <=? Z.to_nat (v - a))%nat eqn:Hn; rewrite Hloop in Hstep;
      injection Hstep as <-; unfold closing_inv, set_active; simpl.
    + apply Nat.leb_le in Hn.
      split; [reflexivity|]. split; [reflexivity|].
      split; [reflexivity | split; lia].
    + apply Nat.leb_gt in Hn.
      split; [reflexivity|]. split; [reflexivity|].
      left. split; [|split; [reflexivity | split; lia]].
      rewrite lookup_app_r by lia. rewrite Nat.sub_diag. reflexivity.
  - (* somebody resizes: the semaphore is closed *)
    unfold set_value in Hstep. run_M. simpl in Hstep. injection Hstep as <-.
    unfold closing_inv; simpl. repeat split; assumption.
Qed.

Lemma closing_run_inv (v : Z) (events : list closing_event) :
  forall s s', closing_inv v s -> closing_run events s = Some s' -> closing_inv v s'.
Proof.
  induction events as [|e rest IH]; intros s s' Hinv Hrun; simpl in Hrun.
  - injection Hrun as <-. exact Hinv.
  - destruct (closing_step e s) as [s1|] eqn:Hstep; [|discriminate].
    apply (IH s1 s'); [|exact Hrun]. apply (closing_step_inv v e s s1 Hinv Hstep).
Qed.

Lemma start_closing_inv (w : world) (h : nat) :
  waiter (slots w) = None ->
  active (slots w) = Z.of_nat h ->
  1 <= value (slots w) ->
  exists s0, start_closing w h = Some s0 /\ closing_inv (value (slots w)) s0.
Proof.
  intros Hw Ha Hv. destruct w as [[a v wt c] futs]. simpl in *. subst wt a.
  unfold start_closing, close, close_mark. run_M. simpl. unfold set_closed. simpl.
  destruct (Z.le_gt_cases (Z.of_nat h) v) as [Hle | Hgt].
  - (* the holders fit in the capacity *)
    pose proof (close_loop_spec (Z.to_nat v)
                  (mkWorld (mkSlots (Z.of_nat h) v None true) futs) eq_refl Hle) as Hloop.
    simpl in Hloop.
    destruct (Z.to_nat v <=? Z.to_nat (v - Z.of_nat h))%nat eqn:Hn; rewrite Hloop;
      eexists; (split; [reflexivity|]); unfold closing_inv, set_active; simpl.
    + apply Nat.leb_le in Hn.
      split; [reflexivity|]. split; [reflexivity|].
      split; [reflexivity | split; lia].
    + apply Nat.leb_gt in Hn.
      split; [reflexivity|]. split; [reflexivity|].
      left. split; [|split; [reflexivity | split; lia]].
      rewrite lookup_app_r by lia. rewrite Nat.sub_diag. reflexivity.
  - (* more holders than slots: the first [acquire] of the loop parks *)
    destruct (Z.to_nat v) as [|n] eqn:Hn; [lia|].
    cbn [close_loop]. unfold acquire, create_future. run_M. simpl.
    replace (Z.of_nat h <? v) with false by (symmetry; apply Z.ltb_ge; lia).
    simpl. eexists. split; [reflexivity|]. unfold closing_inv; simpl.
    split; [reflexivity|]. split; [reflexivity|].
    left. split; [|split; [reflexivity | split; lia]].
    rewrite lookup_app_r by lia. rewrite Nat.sub_diag. reflexivity.
Qed.

(** X4. [close()] drains the semaphore. Called on a semaphore of capacity
    at least 1 while [h] callers hold a slot and nobody is parked ([h] is
    any number: the holders may outnumber the capacity, as after a
    downsizing), it marks the semaphore closed and, whatever the order in
    which the holders release, the closing task resumes and [set_value]
    is called: the capacity never changes any more; as long as a holder
    has not released, [close()] has not returned; once it has returned no
    holder is left and [active] equals the capacity; a holder can always
    release; and when the last holder has released, [close()] has returned
    or returns as soon as its task resumes. *)
Theorem close_returns_when_holders_released (w : world) (h : nat) :
  waiter (slots w) = None ->
  active (slots w) = Z.of_nat h ->
  1 <= value (slots w) ->
  exists s0,
    start_closing w h = Some s0 /\
    forall events s,
      closing_run events s0 = Some s ->
      value (slots (sem s)) = value (slots w) /\
      closed (slots (sem s)) = true /\
      (holders s <> O -> closing_task s <> Drained) /\
      (closing_task s = Drained ->
       holders s = O /\ active (slots (sem s)) = value (slots w)) /\
      (holders s <> O -> exists s', closing_step HolderReleases s = Some s') /\
      (holders s = O ->
       closing_task s = Drained \/
       exists s', closing_step CloserResumes s = Some s' /\ closing_task s' = Drained).
Proof.
  intros Hw Ha Hle.
  destruct (start_closing_inv w h Hw Ha Hle) as (s0 & Hstart & Hinv0).
  exists s0. split; [exact Hstart|]. intros events s Hrun.
  pose proof (closing_run_inv _ events s0 s Hinv0 Hrun) as Hinv.
  set (v := value (slots w)) in *. clearbody v.
  destruct Hinv as (Hv & Hc & Htask).
  split; [exact Hv|]. split; [exact Hc|].
  destruct s as [[[a v0 wt c] futs] task k]. simpl in *. subst v0 c.
  split; [|split; [|split]].
  - intros Hk Hd. subst task. destruct Htask as (_ & Hav & Hacc). lia.
  - intros ->. destruct Htask as (_ & Hav & Hacc). split; lia.
  - intros Hk. destruct k as [|k]; [congruence|]. simpl.
    unfold release, _wake_waiter, cancelled, set_result. run_M. simpl.
    destruct task as [f n|].
    + destruct Htask as [(Hf & -> & Hge & Hacc) | (Hf & -> & Hav & Hacc)].
      * destruct (a - 1 <? v);
          repeat (progress (rewrite ?Hf; simpl)); eexists; reflexivity.
      * eexists. reflexivity.
    + destruct Htask as (-> & Hav & Hacc). eexists. reflexivity.
  - intros ->. destruct task as [f n|]; [right | left; reflexivity].
    destruct Htask as [(Hf & _ & Hge & Hacc) | (Hf & -> & Hav & Hacc)]; [lia|].
    simpl. rewrite Hf.
    pose proof (close_loop_spec n (mkWorld (mkSlots a v None true) futs) eq_refl Hav)
      as Hloop. simpl in Hloop.
    replace (n <=? Z.to_nat (v - a))%nat with true in Hloop
      by (symmetry; apply Nat.leb_le; lia).
    rewrite Hloop. eexists. split; reflexivity.
Qed.

Lemma close_returns_when_holders_released_witness :
  exists s0,
    start_closing
      (run_op (OpSetValue 1) (run_op OpAcquire (run_op OpAcquire (init 3)).2).2).2 2
      = Some s0 /\
    forall events s,
      closing_run events s0 = Some s ->
      value (slots (sem s)) = 1 /\
      closed (slots (sem s)) = true /\
      (holders s <> O -> closing_task s <> Drained) /\
      (closing_task s = Drained -> holders s = O /\ active (slots (sem s)) = 1) /\
      (holders s <> O -> exists s', closing_step HolderReleases s = Some s') /\
      (holders s = O ->
       closing_task s = Drained \/
       exists s', closing_step CloserResumes s = Some s' /\ closing_task s' = Drained).
Proof.
  apply (close_returns_when_holders_released
           (run_op (OpSetValue 1) (run_op OpAcquire (run_op OpAcquire (init 3)).2).2).2 2).
  - reflexivity.
  - reflexivity.
  - simpl. lia.
Defined.

(** X5. On a semaphore that nobody holds and nobody waits on, [close()]
    returns without suspending, having taken every slot: afterwards
    [active] equals the capacity and the semaphore is closed. *)
Theorem close_idle_takes_every_slot (w : world) :
  waiter (slots w) = None ->
  active (slots w) = 0 ->
  0 <= value (slots w) ->
  exists w',
    close w = (Ok None, w') /\
    active (slots w') = value (slots w) /\
    value (slots w') = value (slots w) /\
    closed (slots w') = true /\
    waiter (slots w') = None /\
    futures w' = futures w.
Proof.
  intros Hw Ha Hv. destruct w as [[a v wt c] futs]. simpl in *. subst wt a.
  unfold close, close_mark. run_M. simpl. unfold set_closed. simpl.
  pose proof (close_loop_spec (Z.to_nat v)
                (mkWorld (mkSlots 0 v None true) futs) eq_refl Hv) as Hloop.
  simpl in Hloop.
  replace (Z.to_nat v <=? Z.to_nat (v - 0))%nat with true in Hloop
    by (symmetry; apply Nat.leb_le; lia).
  rewrite Hloop. eexists. split; [reflexivity|]. unfold set_active. simpl.
  repeat split. lia.
Qed.

Lemma close_idle_takes_every_slot_witness :
  exists w',
    close (init 10) = (Ok None, w') /\
    active (slots w') = 10 /\ value (slots w') = 10 /\ closed (slots w') = true /\
    waiter (slots w') = None /\ futures w' = [].
Proof.
  apply (close_idle_takes_every_slot (init 10)); [reflexivity | reflexivity | simpl; lia].
Defined.

End ClosingFacts.

Module CtxExtra.
Import Ctx.

Lemma mapM_res_Forall2 {A B : Type} (f : A -> res B) (l : list A) (k : list B) :
  mapM f l = Ok k -> Forall2 (fun x y => f x = Ok y) l k.
Proof.
  revert k. induction l as [|x l IH]; intros k Hk; simpl in Hk.
  - injection Hk as <-. constructor.
  - unfold mbind, res_bind in Hk. destruct (f x) as [y|] eqn:Hy; [|discriminate].
    fold (mapM f l) in Hk. destruct (mapM f l) as [k'|]; [|discriminate].
    injection Hk as <-. constructor; [exact Hy | apply IH; reflexivity].
Qed.

Lemma mapM_res_id {A : Type} (f : A -> res A) (l : list A) :
  Forall (fun x => f x = Ok x) l -> mapM f l = Ok l.
Proof.
  induction 1 as [|x l Hx Hl IH]; [reflexivity|].
  change (mapM f (x :: l)) with (y ← f x; k ← mapM f l; mret (y :: k)).
  rewrite Hx, IH. reflexivity.
Qed.

Section WithHost.
Context `{Host}.

(** X6. A context made by [IOContext.create] lists the input ids, retry
    counts and function call ids of the inputs in their order; every
    function input in it carries its arguments inline: a blob handle has
    been replaced by the bytes downloaded for it, and an input that was
    inline already is untouched; all its inputs name the same method, and
    its function is the one registered under that name; and no
    cancellation has been issued on it nor any callback attached. *)
Theorem create_hydrates_inputs (ffs : gmap string FinalizedFunction)
    (inputs : list (string * Z * string * FunctionInput)) (b : bool) (c : IOContext) :
  create ffs inputs b = Ok c ->
  input_ids c = map (fun i => i.1.1.1) inputs /\
  retry_counts c = map (fun i => i.1.1.2) inputs /\
  function_call_ids c = map (fun i => i.1.2) inputs /\
  Forall2 (fun before after =>
             method_name after = method_name before /\
             final_input after = final_input before /\
             match input_args before with
             | ArgsBlobId id =>
                 exists bytes, blob_download id = Ok bytes /\ input_args after = Args bytes
             | _ => after = before
             end)
          (map snd inputs) (function_inputs c) /\
  Forall (fun i => forall id, input_args i <> ArgsBlobId id) (function_inputs c) /\
  (exists first, head (function_inputs c) = Some first /\
     Forall (fun i => method_name i = method_name first) (function_inputs c) /\
     ffs !! method_name first = Some (finalized_function c)) /\
  _is_batched c = b /\ _cancel_issued c = false /\ _cancel_callback c = None.
Proof.
  unfold create. intros Hc.
  destruct (negb _) eqn:Hassert; [discriminate|].
  unfold mbind, res_bind in Hc.
  destruct (mapM _populate_input_blobs (map snd inputs)) as [fis|] eqn:Hfis; [|discriminate].
  apply mapM_res_Forall2 in Hfis.
  destruct fis as [|first fis]; [discriminate|].
  destruct (negb (forallb _ _)) eqn:Hall; [discriminate|].
  destruct (ffs !! method_name first) as [ff|] eqn:Hff; [|discriminate].
  injection Hc as <-. simpl.
  assert (Hpop : forall before after,
             _populate_input_blobs before = Ok after ->
             (method_name after = method_name before /\
              final_input after = final_input before /\
              match input_args before with
              | ArgsBlobId id =>
                  exists bytes, blob_download id = Ok bytes /\ input_args after = Args bytes
              | _ => after = before
              end) /\
             forall id, input_args after <> ArgsBlobId id).
  { intros before after Hp. unfold _populate_input_blobs in Hp.
    destruct (input_args before) as [|bs|id] eqn:Hargs.
    - injection Hp as <-. split; [repeat split|]. intros id. rewrite Hargs. discriminate.
    - injection Hp as <-. split; [repeat split|]. intros id. rewrite Hargs. discriminate.
    - unfold mbind, res_bind in Hp. destruct (blob_download id) as [bytes|]; [|discriminate].
      injection Hp as <-. simpl. split; [|discriminate].
      split; [reflexivity|]. split; [reflexivity|]. exists bytes. split; reflexivity. }
  repeat split; try reflexivity.
  - eapply Forall2_impl; [exact Hfis|]. intros x y Hxy. apply (Hpop x y Hxy).
  - apply Forall2_Forall_r with (P := fun x y => _populate_input_blobs x = Ok y)
                                (l := map snd inputs); [exact Hfis|].
    apply Forall_forall. intros x _ y Hxy. apply (Hpop x y Hxy).
  - exists first. split; [reflexivity|]. split; [|exact Hff].
    apply negb_false_iff in Hall. rewrite forallb_forall in Hall.
    apply Forall_forall. intros i Hi. apply list_elem_of_In in Hi.
    specialize (Hall i Hi). apply String.eqb_eq in Hall. symmetry. exact Hall.
Qed.

(** X7. [IOContext.create] refuses, with an [AssertionError], an empty list
    of inputs, more than one input when the function is not batched, and
    inputs (already inline) that do not all name the same method; and it
    raises a [KeyError] when no function is registered under the method
    the inputs name. *)
Theorem create_rejects (ffs : gmap string FinalizedFunction)
    (inputs : list (string * Z * string * FunctionInput)) (b : bool) :
  (inputs = [] -> create ffs inputs b = Raise AssertionError) /\
  (b = false -> length inputs <> 1%nat -> create ffs inputs b = Raise AssertionError) /\
  (Forall (fun i => forall id, input_args i.2 <> ArgsBlobId id) inputs ->
   (if b then 1 <= len inputs else len inputs = 1) ->
   forall first,
     head inputs = Some first ->
     (Exists (fun i => method_name i.2 <> method_name first.2) inputs ->
      create ffs inputs b = Raise AssertionError) /\
     (Forall (fun i => method_name i.2 = method_name first.2) inputs ->
      ffs !! method_name first.2 = None ->
      create ffs inputs b = Raise (KeyError (method_name first.2)))).
Proof.
  split; [|split].
  - intros ->. unfold create. destruct b; reflexivity.
  - intros -> Hlen. unfold create. simpl.
    replace (len inputs =? 1) with false; [reflexivity|].
    symmetry. apply Z.eqb_neq. unfold len. lia.
  - intros Hinline Hcount first Hfirst.
    assert (Hmap : mapM _populate_input_blobs (map snd inputs) = Ok (map snd inputs)).
    { apply mapM_res_id. apply Forall_forall. intros x Hx.
      apply list_elem_of_In, in_map_iff in Hx as (i & <- & Hi).
      rewrite Forall_forall in Hinline. apply list_elem_of_In in Hi.
      specialize (Hinline i Hi). unfold _populate_input_blobs.
      destruct (input_args i.2) as [| |id] eqn:Hargs; try reflexivity.
      exfalso. apply (Hinline id). reflexivity. }
    assert (Hassert : negb (if b then 1 <=? len inputs else len inputs =? 1) = false).
    { apply negb_false_iff. destruct b; [apply Z.leb_le | apply Z.eqb_eq]; exact Hcount. }
    destruct inputs as [|i0 inputs]; [discriminate|]. injection Hfirst as <-.
    split.
    + intros Hex. unfold create. rewrite Hassert, Hmap.
      unfold mbind, res_bind. cbn [map]. cbv zeta.
      match goal with
      | |- context [forallb ?f ?l] =>
          assert (Hfa : forallb f l = false); [|rewrite Hfa; reflexivity]
      end.
      apply not_true_iff_false. intros Hall. rewrite forallb_forall in Hall.
      apply Exists_exists in Hex as (i & Hi & Hne). apply Hne.
      apply list_elem_of_In in Hi.
      specialize (Hall i.2 (in_map snd (i0 :: inputs) _ Hi)). apply String.eqb_eq in Hall.
      symmetry. exact Hall.
    + intros Hall Hnone. unfold create. rewrite Hassert, Hmap.
      unfold mbind, res_bind. cbn [map]. cbv zeta.
      match goal with
      | |- context [forallb ?f ?l] =>
          assert (Hfa : forallb f l = true);
            [|rewrite Hfa; cbn [negb]; rewrite Hnone; reflexivity]
      end.
      apply forallb_forall. intros x Hx.
      change (i0.2 :: map snd inputs) with (map snd (i0 :: inputs)) in Hx.
      apply in_map_iff in Hx as (i & <- & Hi).
      apply String.eqb_eq. rewrite Forall_forall in Hall.
      symmetry. apply Hall. apply list_elem_of_In. exact Hi.
Qed.

End WithHost.

Lemma create_hydrates_inputs_witness :
  input_ids (Demo.ctx_of Demo.batch22) = ["in-000"; "in-001"]%string /\
  retry_counts (Demo.ctx_of Demo.batch22) = [0; 3] /\
  Forall (fun i => forall id, input_args i <> ArgsBlobId id)
         (function_inputs (Demo.ctx_of Demo.batch22)).
Proof.
  assert (Hc : @create (Demo.host 2097152) {[ ""%string := Demo.f_xy ]} Demo.batch22 true
               = Ok (Demo.ctx_of Demo.batch22)) by reflexivity.
  destruct (@create_hydrates_inputs (Demo.host 2097152) {[ ""%string := Demo.f_xy ]}
              Demo.batch22 true (Demo.ctx_of Demo.batch22) Hc)
    as (Hids & Hretries & _ & _ & Hinline & _).
  split; [exact Hids|]. split; [exact Hretries | exact Hinline].
Defined.

(** X8. A cancellation that arrives before the callback is attached is lost:
    on a context as [__init__] makes it, any number of [cancel()] calls
    leave the context as it was, run nothing and only log the warning;
    attaching the callback afterwards does not run it, and the next
    [cancel()] does, once. *)
Theorem cancel_before_callback_is_lost (n : nat) (cb : nat)
    (ids : list string) (retries : list Z) (fcids : list string)
    (ff : FinalizedFunction) (inputs : list FunctionInput) (is_batched : bool) :
  cancel_n n (new ids retries fcids ff inputs is_batched)
    = (new ids retries fcids ff inputs is_batched, replicate n WarnCouldNotCancel) /\
  _cancel_issued
    (set_cancel_callback cb (cancel_n n (new ids retries fcids ff inputs is_batched)).1)
    = false /\
  calls (cancel (set_cancel_callback cb
                   (cancel_n n (new ids retries fcids ff inputs is_batched)).1)).2 = [cb].
Proof.
  assert (Hn : cancel_n n (new ids retries fcids ff inputs is_batched)
               = (new ids retries fcids ff inputs is_batched, replicate n WarnCouldNotCancel)).
  { induction n as [|n IH]; [reflexivity|]. simpl. rewrite IH. reflexivity. }
  rewrite Hn. repeat split.
Qed.

End CtxExtra.

Module CtxExtraWitness.
Import Ctx.

Lemma create_rejects_witness :
  @create (Demo.host 2097152) {[ ""%string := Demo.f_xy ]} [] true = Raise AssertionError /\
  @create (Demo.host 2097152) {[ ""%string := Demo.f_xy ]} Demo.batch22 false
    = Raise AssertionError.
Proof.
  destruct (@CtxExtra.create_rejects (Demo.host 2097152) {[ ""%string := Demo.f_xy ]} [] true)
    as (Hempty & _).
  destruct (@CtxExtra.create_rejects (Demo.host 2097152) {[ ""%string := Demo.f_xy ]}
              Demo.batch22 false) as (_ & Hmany & _).
  split; [apply Hempty; reflexivity | apply Hmany; [reflexivity | simpl; lia]].
Defined.

End CtxExtraWitness.

Module OutputExtra.
Import Manager.

Lemma put_outputs_requests_sent {A : Type} (g : A -> list FunctionPutOutputsItem) (l : list A) :
  put_outputs_requests (map (fun i => Rpc (FunctionPutOutputs (g i))) l) = map g l.
Proof.
  unfold put_outputs_requests. induction l as [|x l IH]; [reflexivity|].
  simpl. f_equal. exact IH.
Qed.

Lemma range_step_below (n i : nat) :
  In i (range_step n 20) -> (i < n)%nat.
Proof.
  unfold range_step. intros Hi. apply in_map_iff in Hi as (k & <- & Hk).
  apply in_seq in Hk.
  pose proof (Nat.div_mod_eq (n + 20 - 1) 20) as Hdiv.
  pose proof (Nat.mod_upper_bound (n + 20 - 1) 20 ltac:(lia)) as Hmod.
  nia.
Qed.

Section WithHost.
Context `{Host}.

(** X9. [_push_outputs] sends the outputs in requests of at most 20: every
    FunctionPutOutputs request carries between 1 and 20 outputs, there
    are ceil(N / 20) requests for N outputs, the requests put end to end
    are the outputs in order, and nothing else is sent. *)
Theorem push_outputs_in_batches_of_20 (c : Ctx.IOContext) (t : Q) (fmt : Z)
    (results : list GenericResult) (m : manager) :
  exists new,
    _push_outputs c t fmt results m
      = (Ok tt, set_trace (trace m ++ new) (set_readings (S (readings m)) m)) /\
    new = map (fun r => Rpc (FunctionPutOutputs r)) (put_outputs_requests new) /\
    Forall (fun r => (1 <= length r <= 20)%nat) (put_outputs_requests new) /\
    length (put_outputs_requests new)
      = ((length (zip3 (Ctx.input_ids c) (Ctx.retry_counts c) results) + 19) / 20)%nat /\
    concat (put_outputs_requests new) =
      map (fun x => mkItem x.1.1 t (clock m (readings m)) x.2 fmt x.1.2)
          (zip3 (Ctx.input_ids c) (Ctx.retry_counts c) results).
Proof.
  unfold _push_outputs. run_M.
  set (outputs := map _ (zip3 _ _ results)).
  pose proof (OutputFacts.for_each_emit
                (fun i => Rpc (FunctionPutOutputs (slice i 20 outputs)))) as Hemit.
  run_M. rewrite Hemit.
  eexists. split; [destruct m; reflexivity|].
  rewrite put_outputs_requests_sent.
  split; [rewrite map_map; reflexivity|]. split; [|split].
  - apply Forall_map. apply Forall_forall. intros i Hi.
    apply list_elem_of_In, range_step_below in Hi. unfold slice.
    rewrite length_take, length_drop. lia.
  - rewrite length_map. unfold range_step. rewrite length_map, length_seq.
    unfold outputs. rewrite length_map. f_equal. lia.
  - rewrite OutputFacts.concat_slices by lia.
    unfold outputs. destruct m; simpl. apply map_ext. intros [[id retry] r]. reflexivity.
Qed.

(** X10. When the processing of an input is cancelled ([InputCancellation] or
    [asyncio.CancelledError]), [handle_input_exception] sends one output
    per input id of the context, each with status TERMINATED, no
    exception text and the input's retry count, and sends nothing
    else. *)
Theorem cancellation_terminates_every_input (c : Ctx.IOContext) (t : Q)
    (by_user : bool) (body : M manager unit) (m m1 : manager) :
  length (Ctx.retry_counts c) = length (Ctx.input_ids c) ->
  body m = (Raise (if by_user then InputCancellation else CancelledError), m1) ->
  exists new,
    trace (handle_input_exception c t body m).2 = trace m1 ++ new /\
    put_outputs_items new =
      map (fun p => mkItem p.1 t (clock m1 (readings m1)) terminated_result
                      DATA_FORMAT_PICKLE p.2)
          (zip (Ctx.input_ids c) (Ctx.retry_counts c)) /\
    map input_id (put_outputs_items new) = Ctx.input_ids c /\
    Forall (fun o => result_status (result o) = GENERIC_STATUS_TERMINATED /\
                     exception (result o) = ""%string)
           (put_outputs_items new).
Proof.
  intros Hlen Hbody.
  destruct (OutputFacts.push_outputs_sent c t DATA_FORMAT_PICKLE
              (map (fun _ => terminated_result) (Ctx.input_ids c)) m1)
    as (new & Hpush & Hitems).
  assert (Hnew : put_outputs_items new =
                 map (fun p => mkItem p.1 t (clock m1 (readings m1)) terminated_result
                                 DATA_FORMAT_PICKLE p.2)
                     (zip (Ctx.input_ids c) (Ctx.retry_counts c))).
  { rewrite Hitems, OutputFacts.zip3_const, map_map. reflexivity. }
  exists new. split; [|split; [exact Hnew|]].
  - unfold handle_input_exception. run_M. rewrite Hbody.
    destruct by_user; unfold on_input_exception; run_M; rewrite Hpush; cbv beta iota;
      match goal with
      | |- context [exit_context ?a ?b ?s] =>
          pose proof (OutputFacts.exit_context_trace a b s) as Hx;
          destruct (exit_context a b s) as [r m2]
      end; simpl in *; rewrite Hx; destruct m1; reflexivity.
  - rewrite Hnew. split.
    + rewrite map_map. simpl. apply OutputFacts.zip_fst. exact Hlen.
    + apply Forall_map. apply Forall_forall. intros p _. split; reflexivity.
Qed.

(** [handle_input_exception] lets [KeyboardInterrupt] and
    [GeneratorExit] through: it raises them again from the state the
    body left, having sent nothing, and without calling [exit_context];
    and when the body returns normally it does nothing at all. *)
Theorem interpreter_signals_pass_through (c : Ctx.IOContext) (t : Q)
    (generator_exit : bool) (body : M manager unit) (m m1 : manager) :
  (body m = (Raise (if generator_exit then GeneratorExit else KeyboardInterrupt), m1) ->
   handle_input_exception c t body m
   = (Raise (if generator_exit then GeneratorExit else KeyboardInterrupt), m1)) /\
  (body m = (Ok tt, m1) -> handle_input_exception c t body m = (Ok tt, m1)).
Proof.
  split; intros Hbody; unfold handle_input_exception; run_M; rewrite Hbody;
    [destruct generator_exit|]; reflexivity.
Qed.

End WithHost.

Lemma cancellation_terminates_every_input_witness :
  exists new,
    trace (@handle_input_exception (Demo.host 2097152) (Demo.ctx_of Demo.batch22) 0
             (raise InputCancellation)
             (Demo.with_context (Demo.ctx_of Demo.batch22) (Demo.manager0 1 1))).2
      = trace (Demo.with_context (Demo.ctx_of Demo.batch22) (Demo.manager0 1 1)) ++ new /\
    map input_id (put_outputs_items new) = ["in-000"; "in-001"]%string.
Proof.
  destruct (@cancellation_terminates_every_input (Demo.host 2097152)
              (Demo.ctx_of Demo.batch22) 0 true (raise InputCancellation)
              (Demo.with_context (Demo.ctx_of Demo.batch22) (Demo.manager0 1 1))
              (Demo.with_context (Demo.ctx_of Demo.batch22) (Demo.manager0 1 1)))
    as (new & Htrace & _ & Hids & _).
  - reflexivity.
  - reflexivity.
  - exists new. split; [exact Htrace | exact Hids].
Defined.

Lemma interpreter_signals_pass_through_witness :
  @handle_input_exception (Demo.host 2097152) (Demo.ctx_of Demo.batch22) 0
    (raise KeyboardInterrupt) (Demo.manager0 1 1)
  = (Raise KeyboardInterrupt, Demo.manager0 1 1).
Proof.
  apply (@interpreter_signals_pass_through (Demo.host 2097152) (Demo.ctx_of Demo.batch22) 0
           false (raise KeyboardInterrupt) (Demo.manager0 1 1) (Demo.manager0 1 1)).
  reflexivity.
Defined.

End OutputExtra.

Module RegistryExtra.
Import Manager.

Lemma register_ids (r : nat) (ids : list string) :
  forall m,
    exists ci,
      for_each ids
        (fun input_id =>
           modify (fun m => set_current_inputs (<[input_id := r]> (current_inputs m)) m)) m
      = (Ok tt, set_current_inputs ci m) /\
      forall k, ci !! k = if bool_decide (k ∈ ids) then Some r else current_inputs m !! k.
Proof.
  induction ids as [|id ids IH]; intros m; cbn [for_each]; run_M.
  - exists (current_inputs m). split; [destruct m; reflexivity|]. intros k.
    rewrite bool_decide_eq_false_2; [reflexivity | apply not_elem_of_nil].
  - destruct (IH (set_current_inputs (<[id:=r]> (current_inputs m)) m)) as (ci & Hrun & Hci).
    run_M. rewrite Hrun. exists ci. split; [destruct m; reflexivity|].
    intros k. rewrite Hci. destruct m; simpl.
    destruct (bool_decide (k ∈ ids)) eqn:Hk.
    + apply bool_decide_eq_true in Hk.
      rewrite bool_decide_eq_true_2; [reflexivity | right; exact Hk].
    + apply bool_decide_eq_false in Hk. destruct (decide (k = id)) as [-> | Hne].
      * rewrite lookup_insert_eq. rewrite bool_decide_eq_true_2; [reflexivity | left].
      * rewrite lookup_insert_ne by congruence.
        rewrite bool_decide_eq_false_2; [reflexivity|].
        intros Hin. apply elem_of_cons in Hin as [? | ?]; contradiction.
Qed.

(** Popping distinct registered ids succeeds and removes exactly them. *)
Lemma pop_registered (ids : list string) :
  forall m,
    NoDup ids ->
    (forall id, id ∈ ids -> is_Some (current_inputs m !! id)) ->
    exists ci,
      for_each ids pop_current_input m = (Ok tt, set_current_inputs ci m) /\
      forall k, ci !! k = if bool_decide (k ∈ ids) then None else current_inputs m !! k.
Proof.
  induction ids as [|id ids IH]; intros m Hnd Hreg; cbn [for_each]; run_M.
  - exists (current_inputs m). split; [destruct m; reflexivity|]. intros k.
    rewrite bool_decide_eq_false_2; [reflexivity | apply not_elem_of_nil].
  - apply NoDup_cons in Hnd as [Hnotin Hnd].
    unfold pop_current_input at 1. run_M.
    destruct (Hreg id ltac:(left)) as [r Hr]. rewrite Hr.
    destruct (IH (set_current_inputs (delete id (current_inputs m)) m) Hnd)
      as (ci & Hrun & Hci).
    { intros k Hk. destruct m; simpl. rewrite lookup_delete_ne.
      - apply Hreg. right. exact Hk.
      - intros ->. contradiction. }
    rewrite Hrun. exists ci. split; [destruct m; reflexivity|].
    intros k. rewrite Hci. destruct m; simpl.
    destruct (bool_decide (k ∈ ids)) eqn:Hk.
    + apply bool_decide_eq_true in Hk.
      rewrite bool_decide_eq_true_2; [reflexivity | right; exact Hk].
    + apply bool_decide_eq_false in Hk. destruct (decide (k = id)) as [-> | Hne].
      * rewrite lookup_delete_eq. rewrite bool_decide_eq_true_2; [reflexivity | left].
      * rewrite lookup_delete_ne by congruence.
        rewrite bool_decide_eq_false_2; [reflexivity|].
        intros Hin. apply elem_of_cons in Hin as [? | ?]; contradiction.
Qed.

(** An id that is not registered makes the loop of pops raise a
    [KeyError]; the pops only touch [current_inputs]. *)
Lemma pop_unregistered (ids : list string) :
  forall m,
    (exists id, id ∈ ids /\ current_inputs m !! id = None) ->
    exists k ci,
      for_each ids pop_current_input m = (Raise (KeyError k), set_current_inputs ci m) /\
      k ∈ ids.
Proof.
  induction ids as [|id ids IH]; intros m (bad & Hin & Hbad); cbn [for_each]; run_M.
  - apply elem_of_nil in Hin. destruct Hin.
  - unfold pop_current_input at 1. run_M.
    destruct (current_inputs m !! id) as [r|] eqn:Hr.
    + destruct (IH (set_current_inputs (delete id (current_inputs m)) m))
        as (k & ci & Hrun & Hk).
      { exists bad. apply elem_of_cons in Hin as [-> | Hin]; [congruence|].
        split; [exact Hin|]. destruct m; simpl.
        destruct (decide (bad = id)) as [-> | Hne];
          [apply lookup_delete_eq | rewrite lookup_delete_ne by congruence; exact Hbad]. }
      rewrite Hrun. exists k, ci. split; [destruct m; reflexivity | right; exact Hk].
    + exists id, (current_inputs m). split; [destruct m; reflexivity | left].
Qed.

Lemma release_returns (w : Slots.world) :
  Slots.reachable w -> exists w', Slots.release w = (Ok tt, w').
Proof.
  intros Hr. pose proof (SlotsFacts.slots_reachable_inv w Hr) as Hinv.
  unfold Slots.release. run_M.
  destruct (SlotsFacts.wake_waiter_inv
              (Slots.set_active (Slots.active (Slots.slots w) - 1) w)) as (w' & -> & _).
  - intros f Hf. destruct w as [[a v wt c] futs]; simpl in *. apply (Hinv f Hf).
  - exists w'. reflexivity.
Qed.

(** X11. Registration and [exit_context] undo each other on the table of
    current inputs. When a context with distinct input ids, none of them
    in use, is registered, every one of its ids maps to the one context
    object; [exit_context] on those ids then returns normally, leaves
    [current_inputs] as it was before the registration, counts one
    completed call, adds the elapsed time to the user time and releases
    one slot. *)
Theorem register_then_exit_context (c : Ctx.IOContext) (started_at : Q) (m : manager) :
  NoDup (Ctx.input_ids c) ->
  (forall id, id ∈ Ctx.input_ids c -> current_inputs m !! id = None) ->
  Slots.reachable (_input_slots m) ->
  exists m1 m2 w',
    register_context c m = (Ok (length (heap m)), m1) /\
    heap m1 !! length (heap m) = Some c /\
    (forall id, id ∈ Ctx.input_ids c -> current_inputs m1 !! id = Some (length (heap m))) /\
    exit_context started_at (Ctx.input_ids c) m1 = (Ok tt, m2) /\
    current_inputs m2 = current_inputs m /\
    calls_completed m2 = calls_completed m + 1 /\
    total_user_time m2
      = (total_user_time m + (clock m (readings m) - started_at))%Q /\
    Slots.release (_input_slots m) = (Ok tt, w') /\
    _input_slots m2 = w'.
Proof.
  intros Hnd Hfresh Hr.
  destruct (release_returns _ Hr) as (w' & Hrel).
  unfold register_context. run_M.
  destruct (register_ids (length (heap m)) (Ctx.input_ids c)
              (set_heap (heap m ++ [c]) m)) as (ci1 & Hreg & Hci1).
  run_M. rewrite Hreg. cbv beta iota.
  set (m1 := set_current_inputs ci1 (set_heap (heap m ++ [c]) m)).
  assert (Hm1 : forall id, id ∈ Ctx.input_ids c ->
                           current_inputs m1 !! id = Some (length (heap m))).
  { intros id Hid. unfold m1. destruct m; simpl. rewrite Hci1. simpl.
    rewrite bool_decide_eq_true_2; [reflexivity | exact Hid]. }
  assert (Hexit : exists m2,
             exit_context started_at (Ctx.input_ids c) m1 = (Ok tt, m2) /\
             current_inputs m2 = current_inputs m /\
             calls_completed m2 = calls_completed m + 1 /\
             total_user_time m2
               = (total_user_time m + (clock m (readings m) - started_at))%Q /\
             _input_slots m2 = w').
  { unfold exit_context. run_M.
    match goal with
    | |- context [for_each (Ctx.input_ids c) pop_current_input ?s] =>
        destruct (pop_registered (Ctx.input_ids c) s Hnd) as (ci2 & Hpop & Hci2);
          [|rewrite Hpop]
    end.
    { intros id Hid. exists (length (heap m)).
      specialize (Hm1 id Hid). unfold m1 in *. destruct m; simpl in *. exact Hm1. }
    cbv beta iota.
    assert (Hci : ci2 = current_inputs m).
    { apply map_eq. intros k. rewrite Hci2. unfold m1. destruct m; simpl.
      rewrite Hci1. simpl.
      destruct (bool_decide (k ∈ Ctx.input_ids c)) eqn:Hk; [|reflexivity].
      apply bool_decide_eq_true in Hk. symmetry. apply Hfresh. exact Hk. }
    unfold m1. destruct m; simpl in *. rewrite Hrel.
    eexists. split; [reflexivity|]. simpl. repeat split. exact Hci. }
  destruct Hexit as (m2 & Hexit & Hci & Hcalls & Htime & Hslots).
  exists m1, m2, w'. split; [reflexivity|]. split.
  { unfold m1. destruct m; simpl. rewrite lookup_app_r by lia.
    rewrite Nat.sub_diag. reflexivity. }
  repeat split; assumption.
Qed.

Lemma register_then_exit_context_witness :
  exists m1 m2 w',
    register_context (Demo.ctx_of Demo.batch22) (Demo.manager0 2 2) = (Ok 0%nat, m1) /\
    exit_context 0 ["in-000"; "in-001"]%string m1 = (Ok tt, m2) /\
    current_inputs m2 = ∅ /\
    calls_completed m2 = 1 /\
    Slots.release (Slots.init 2) = (Ok tt, w') /\
    _input_slots m2 = w'.
Proof.
  destruct (register_then_exit_context (Demo.ctx_of Demo.batch22) 0 (Demo.manager0 2 2))
    as (m1 & m2 & w' & Hreg & _ & _ & Hexit & Hci & Hcalls & _ & Hrel & Hslots).
  - apply NoDup_cons. split; [|apply NoDup_singleton].
    intros Hin. apply list_elem_of_singleton in Hin. discriminate Hin.
  - intros id _. reflexivity.
  - apply Slots.reach_init.
  - exists m1, m2, w'. repeat split; assumption.
Defined.

(** X12. [exit_context] on input ids of which one is not registered (for
    instance a second [exit_context] for the same input) raises a
    [KeyError] for one of the ids; the call has then been counted as
    completed, but no slot has been released. *)
Theorem exit_context_unregistered (started_at : Q) (ids : list string) (m : manager) :
  (exists id, id ∈ ids /\ current_inputs m !! id = None) ->
  exists k m',
    exit_context started_at ids m = (Raise (KeyError k), m') /\
    k ∈ ids /\
    _input_slots m' = _input_slots m /\
    calls_completed m' = calls_completed m + 1.
Proof.
  intros Hbad. unfold exit_context. run_M.
  match goal with
  | |- context [for_each ids pop_current_input ?s] =>
      destruct (pop_unregistered ids s) as (k & ci & Hrun & Hk);
        [destruct m; exact Hbad | rewrite Hrun]
  end.
  exists k. eexists. split; [reflexivity|]. split; [exact Hk|].
  destruct m; split; reflexivity.
Qed.

Lemma exit_context_unregistered_witness :
  exists k m',
    exit_context 0 ["in-000"%string] (Demo.manager0 2 2) = (Raise (KeyError k), m') /\
    k ∈ ["in-000"%string] /\
    _input_slots m' = Slots.init 2 /\
    calls_completed m' = 1.
Proof.
  apply (exit_context_unregistered 0 ["in-000"%string] (Demo.manager0 2 2)).
  exists "in-000"%string. split; [left | reflexivity].
Defined.

Section WithHost.
Context `{Host}.

Lemma cancel_unregistered (ids : list string) (m : manager) :
  (forall id, id ∈ ids -> current_inputs m !! id = None) ->
  for_each ids cancel_input m = (Ok tt, m).
Proof.
  induction ids as [|id ids IH]; intros Hnone; simpl; run_M; [reflexivity|].
  unfold cancel_input at 1. run_M. rewrite (Hnone id ltac:(left)).
  apply IH. intros k Hk. apply Hnone. right. exact Hk.
Qed.

(** X13. A cancellation for inputs that are not (or no longer) in
    [current_inputs], such as inputs whose [exit_context] has run, is a
    no-op: the manager is left exactly as it was, nothing is called and
    nothing is logged; the heartbeat only reports that an event was
    received. *)
Theorem cancel_for_finished_input_is_noop (ids : list string) (m : manager) :
  (forall id, id ∈ ids -> current_inputs m !! id = None) ->
  _heartbeat_handle_cancellations (Ok (mkHeartbeatResponse (Some ids))) m = (Ok true, m).
Proof.
  intros Hnone. unfold _heartbeat_handle_cancellations. run_M. cbn [cancel_input_event].
  destruct ids as [|id ids]; [reflexivity|].
  rewrite (cancel_unregistered (id :: ids) m Hnone). reflexivity.
Qed.

(** X14. All the ids of a cancel event that belong to one batch reach the
    same context object, so its callback runs once however many of its
    ids the event names: the only things done are the warning and one
    call of the callback, and afterwards the context is marked as
    cancelled. *)
Theorem batch_cancel_runs_callback_once (ids : list string) (r cb : nat)
    (c : Ctx.IOContext) (m : manager) :
  ids <> [] ->
  (forall id, id ∈ ids -> current_inputs m !! id = Some r) ->
  heap m !! r = Some c ->
  Ctx._cancel_issued c = false ->
  Ctx._cancel_callback c = Some cb ->
  exists m',
    _heartbeat_handle_cancellations (Ok (mkHeartbeatResponse (Some ids))) m = (Ok true, m') /\
    trace m' = trace m ++ [Effect (Ctx.WarnCancellation (Ctx.input_ids c));
                           Effect (Ctx.Called cb)] /\
    heap m' = <[r := (Ctx.cancel c).1]> (heap m) /\
    Ctx._cancel_issued (Ctx.cancel c).1 = true /\
    current_inputs m' = current_inputs m.
Proof.
  intros Hne Hreg Hheap Hissued Hcb.
  assert (Hcancel : Ctx.cancel c =
                    (Ctx.mkCtx (Ctx.input_ids c) (Ctx.retry_counts c)
                       (Ctx.function_call_ids c) (Ctx.function_inputs c)
                       (Ctx.finalized_function c) (Ctx._is_batched c) true (Some cb),
                     [Ctx.WarnCancellation (Ctx.input_ids c); Ctx.Called cb])).
  { unfold Ctx.cancel. rewrite Hissued, Hcb. reflexivity. }
  set (c' := Ctx.mkCtx (Ctx.input_ids c) (Ctx.retry_counts c)
               (Ctx.function_call_ids c) (Ctx.function_inputs c)
               (Ctx.finalized_function c) (Ctx._is_batched c) true (Some cb)) in *.
  assert (Hrest : forall l m1,
             (forall id, id ∈ l -> current_inputs m1 !! id = Some r) ->
             heap m1 !! r = Some c' ->
             for_each l cancel_input m1 = (Ok tt, m1)).
  { induction l as [|id l IH]; intros m1 Hreg1 Hheap1; simpl; run_M; [reflexivity|].
    unfold cancel_input at 1. run_M.
    rewrite (Hreg1 id ltac:(left)), Hheap1. simpl.
    assert (Hsame : set_trace (trace m1 ++ [])
                      (set_heap (<[r:=c']> (heap m1)) m1) = m1).
    { destruct m1; simpl in *. rewrite app_nil_r.
      rewrite (list_insert_id _ _ _ Hheap1). reflexivity. }
    rewrite Hsame. apply IH; [|exact Hheap1]. intros k Hk. apply Hreg1. right. exact Hk. }
  destruct ids as [|id ids]; [congruence|].
  unfold _heartbeat_handle_cancellations. run_M. cbn [cancel_input_event].
  simpl. run_M. unfold cancel_input at 1. run_M.
  rewrite (Hreg id ltac:(left)), Hheap, Hcancel. cbv beta iota.
  rewrite Hrest.
  - eexists. split; [reflexivity|]. destruct m; simpl. repeat split.
  - intros k Hk. destruct m; simpl. apply Hreg. right. exact Hk.
  - destruct m; simpl in *. apply list_lookup_insert_eq.
    apply lookup_lt_Some in Hheap. exact Hheap.
Qed.

End WithHost.

Lemma cancel_for_finished_input_is_noop_witness :
  @_heartbeat_handle_cancellations
    (Ok (mkHeartbeatResponse (Some ["in-000"%string]))) (Demo.manager0 1 1)
  = (Ok true, Demo.manager0 1 1).
Proof.
  apply (cancel_for_finished_input_is_noop ["in-000"%string] (Demo.manager0 1 1)).
  intros id _. reflexivity.
Defined.

Lemma batch_cancel_runs_callback_once_witness :
  exists m',
    _heartbeat_handle_cancellations
      (Ok (mkHeartbeatResponse (Some ["in-000"; "in-001"]%string)))
      (Demo.with_context (Ctx.set_cancel_callback 7 (Demo.ctx_of Demo.batch22))
         (Demo.manager0 2 2))
    = (Ok true, m') /\
    trace m' = [Effect (Ctx.WarnCancellation ["in-000"; "in-001"]%string);
                Effect (Ctx.Called 7)].
Proof.
  destruct (batch_cancel_runs_callback_once ["in-000"; "in-001"]%string 0 7
              (Ctx.set_cancel_callback 7 (Demo.ctx_of Demo.batch22))
              (Demo.with_context (Ctx.set_cancel_callback 7 (Demo.ctx_of Demo.batch22))
                 (Demo.manager0 2 2)))
    as (m' & Hrun & Htrace & _).
  - discriminate.
  - intros id Hid. apply elem_of_cons in Hid as [-> | Hid]; [reflexivity|].
    apply list_elem_of_singleton in Hid as ->. reflexivity.
  - reflexivity.
  - reflexivity.
  - reflexivity.
  - exists m'. split; [exact Hrun | exact Htrace].
Defined.

End RegistryExtra.

Module LoopExtra.
Import Manager.

Lemma sleeps_app (e1 e2 : list event) : sleeps (e1 ++ e2) = sleeps e1 ++ sleeps e2.
Proof. unfold sleeps. apply omap_app. Qed.

Lemma sleeps_effects (effects : list Ctx.effect) : sleeps (map Effect effects) = [].
Proof. induction effects as [|e effects IH]; [reflexivity | exact IH]. Qed.

Section WithHost.
Context `{Host}.

(** A tick whose attempt returned, or failed with an [Exception] other
    than [ClientClosed], ends with exactly one sleep and lets the loop go
    on. *)
Lemma tick_goes_on (response : res ContainerHeartbeatResponse) (t : Q) (m : manager) :
  match response with
  | Ok _ => True
  | Raise e => is_Exception e = true /\ e <> ClientClosed
  end ->
  exists new t' m',
    heartbeat_tick response t m = (Ok (Continue, t'), m') /\
    trace m' = trace m ++ new /\
    length (sleeps new) = 1%nat.
Proof.
  intros Hok. destruct response as [[[ids|]] | e].
  - unfold heartbeat_tick. run_M.
    destruct (HeartbeatFacts.handle_cancellations_event ids
                (set_readings (S (readings m)) m)) as (effects & heap' & ->).
    simpl. exists (map Effect effects ++ [Sleep 1]). do 2 eexists.
    split; [reflexivity|]. split.
    + destruct m; simpl. rewrite <- app_assoc. reflexivity.
    + rewrite sleeps_app, sleeps_effects. reflexivity.
  - unfold heartbeat_tick, _heartbeat_handle_cancellations. run_M. simpl.
    eexists [_]. do 2 eexists. split; [reflexivity|]. split; [destruct m|]; reflexivity.
  - destruct Hok as [Hexc Hnot].
    destruct e; try discriminate Hexc; try congruence;
      unfold heartbeat_tick, _heartbeat_handle_cancellations; run_M; simpl;
      destruct (Qle_bool _ _); simpl;
      eexists; do 2 eexists; (split; [reflexivity|]);
      (split; [simpl; rewrite <- ?app_assoc; reflexivity | reflexivity]).
Qed.

(** X15. The heartbeat loop does not stop on failures. As long as the
    attempts return, or fail with an [Exception] other than
    [ClientClosed], the loop runs one tick per attempt and sleeps exactly
    once after each; the first [ClientClosed] ends it, without a sleep,
    and what would have followed does not happen. *)
Theorem heartbeat_loop_survives_failures
    (attempts after : list (res ContainerHeartbeatResponse)) (closed : bool)
    (t : Q) (m : manager) :
  Forall (fun r => match r with
                   | Ok _ => True
                   | Raise e => is_Exception e = true /\ e <> ClientClosed
                   end) attempts ->
  exists new m',
    heartbeat_loop (attempts ++ (if closed then Raise ClientClosed :: after else [])) t m
      = (Ok tt, m') /\
    trace m' = trace m ++ new /\
    length (sleeps new) = length attempts.
Proof.
  intros Hall. revert t m. induction Hall as [|r attempts Hr Hall IH]; intros t m.
  - destruct closed; simpl.
    + unfold heartbeat_tick, _heartbeat_handle_cancellations. run_M. simpl.
      exists []. eexists. split; [reflexivity|]. split; [|reflexivity].
      destruct m; simpl. rewrite app_nil_r. reflexivity.
    + run_M. exists [], m. split; [reflexivity|]. split; [|reflexivity].
      rewrite app_nil_r. reflexivity.
  - destruct (tick_goes_on r t m Hr) as (new1 & t' & m1 & Htick & Htrace1 & Hs1).
    destruct (IH t' m1) as (new2 & m2 & Hloop & Htrace2 & Hs2).
    exists (new1 ++ new2), m2. split.
    + cbn [app heartbeat_loop]. run_M. rewrite Htick. simpl. exact Hloop.
    + split.
      * rewrite Htrace2, Htrace1, app_assoc. reflexivity.
      * rewrite sleeps_app, length_app, Hs1, Hs2. reflexivity.
Qed.

End WithHost.

Lemma heartbeat_loop_survives_failures_witness :
  exists new m',
    @heartbeat_loop (Demo.host 2097152)
      ([Raise (RuntimeError "oops"); Ok (mkHeartbeatResponse None)]
         ++ [Raise ClientClosed; Ok (mkHeartbeatResponse None)]) 0 (Demo.manager0 1 1)
      = (Ok tt, m') /\
    trace m' = trace (Demo.manager0 1 1) ++ new /\
    length (sleeps new) = 2%nat.
Proof.
  apply (@heartbeat_loop_survives_failures (Demo.host 2097152)
           [Raise (RuntimeError "oops"); Ok (mkHeartbeatResponse None)]
           [Ok (mkHeartbeatResponse None)] true 0 (Demo.manager0 1 1)).
  repeat constructor. discriminate.
Defined.

(** X16. The concurrency control loop does not stop on failures either: while
    the stop flag is down, rounds whose request fails with an
    [Exception] change nothing in the manager; the loop just sleeps 3
    seconds after each and goes on. *)
Theorem concurrency_loop_survives_failures (responses : list (res Z)) (m : manager) :
  _stop_concurrency_loop m = false ->
  Forall (fun r => match r with
                   | Ok _ => False
                   | Raise e => is_Exception e = true
                   end) responses ->
  _dynamic_concurrency_loop responses m
  = (Ok tt, set_trace (trace m ++ replicate (length responses)
                                   (Sleep DYNAMIC_CONCURRENCY_INTERVAL_SECS)) m).
Proof.
  intros Hflag Hall. revert m Hflag.
  induction Hall as [|r responses Hr Hall IH]; intros m Hflag.
  - simpl. run_M. destruct m; simpl. rewrite app_nil_r. reflexivity.
  - destruct r as [c | e]; [destruct Hr|].
    cbn [_dynamic_concurrency_loop]. unfold dynamic_concurrency_update. run_M.
    rewrite Hflag. simpl. rewrite Hr.
    rewrite IH by (destruct m; exact Hflag).
    destruct m; simpl. rewrite <- app_assoc. reflexivity.
Qed.

Lemma concurrency_loop_survives_failures_witness :
  _dynamic_concurrency_loop [Raise (RuntimeError "unavailable"); Raise ClientClosed]
    (Demo.manager0 2 4)
  = (Ok tt,
     set_trace (trace (Demo.manager0 2 4)
                  ++ replicate 2 (Sleep DYNAMIC_CONCURRENCY_INTERVAL_SECS))
       (Demo.manager0 2 4)).
Proof.
  apply (concurrency_loop_survives_failures
           [Raise (RuntimeError "unavailable"); Raise ClientClosed] (Demo.manager0 2 4)).
  - reflexivity.
  - repeat constructor.
Defined.

(** X17. A manager as [_init] makes it can always take its first input:
    both concurrency settings are at least 1, the semaphore starts empty
    with the target concurrency as its capacity, so the first
    [acquire()] takes a slot without parking; the
    reported input concurrency is the target, and concurrency counts as
    enabled exactly when there is no PTY shell and one of the two
    settings of the function exceeds 1. *)
Theorem fresh_manager_takes_first_input (pty_shell : bool)
    (max_concurrent_inputs target_concurrent_inputs : N) (host_clock : nat -> Q) :
  1 <= _max_concurrency (_init pty_shell max_concurrent_inputs target_concurrent_inputs
                           host_clock) /\
  1 <= _target_concurrency (_init pty_shell max_concurrent_inputs target_concurrent_inputs
                              host_clock) /\
  (on_slots Slots.acquire
     (_init pty_shell max_concurrent_inputs target_concurrent_inputs host_clock)).1
    = Ok Slots.Entered /\
  (get_input_concurrency
     (Some (_init pty_shell max_concurrent_inputs target_concurrent_inputs host_clock))).1
    = Ok (_target_concurrency
            (_init pty_shell max_concurrent_inputs target_concurrent_inputs host_clock)) /\
  (input_concurrency_enabled
     (_init pty_shell max_concurrent_inputs target_concurrent_inputs host_clock) = true <->
   pty_shell = false /\
   (1 < Z.of_N max_concurrent_inputs \/ 1 < Z.of_N target_concurrent_inputs)).
Proof.
  assert (Hs : 1 <= (concurrency_settings pty_shell max_concurrent_inputs
                       target_concurrent_inputs).1 /\
               1 <= (concurrency_settings pty_shell max_concurrent_inputs
                       target_concurrent_inputs).2).
  { unfold concurrency_settings. destruct pty_shell; simpl; [lia|].
    destruct (N.eqb_spec max_concurrent_inputs 0), (N.eqb_spec target_concurrent_inputs 0);
      simpl; lia. }
  destruct Hs as [Hmax Htarget].
  split; [exact Hmax|]. split; [exact Htarget|]. split; [|split].
  - unfold _init, on_slots, Slots.acquire. run_M. simpl.
    destruct (Z.ltb_spec 0 (concurrency_settings pty_shell max_concurrent_inputs
                              target_concurrent_inputs).2); [reflexivity | lia].
  - unfold _init, get_input_concurrency. simpl. f_equal. lia.
  - unfold _init, input_concurrency_enabled, concurrency_settings. simpl.
    destruct pty_shell; simpl.
    + split; [discriminate | intros [Hf _]; discriminate Hf].
    + destruct (N.eqb_spec max_concurrent_inputs 0), (N.eqb_spec target_concurrent_inputs 0);
        simpl; rewrite Z.gtb_ltb, Z.ltb_lt; split; try (intros ?; split; [reflexivity|]); lia.
Qed.

End LoopExtra.

Module GeneratorExtra.
Import Manager.

Section WithHost.
Context `{Host}.


(** X19. No request of the generator output task grows without bound: the
    messages of a request, its last one apart, have an estimated size
    (their lengths plus 512 bytes of framing each) below 16 MiB. The
    requests carry the messages in order, one chunk per message. *)
Theorem generator_request_size_bound (fcid : string) (fmt : Z)
    (reads : list queue_item) (m : manager) :
  exists new batches outcome,
    generator_output_task fcid fmt reads m = (Ok outcome, set_trace (trace m ++ new) m) /\
    concat batches
    = map (fun msg => serialize_data_format msg fmt) (messages_before_stop reads) /\
    map (map chunk_data) (data_out_requests new) = map (map chunk_payload) batches /\
    Forall (fun b => b <> [] /\ estimated_size (removelast b) < 16 * 1024 * 1024) batches.
Proof.
  unfold generator_output_task.
  destruct (GeneratorFacts.generator_output_loop_sends fcid fmt reads 1 m ltac:(lia))
    as (new & batches & outcome & Hrun & _ & _ & Hcat & _ & Hreq & _ & Hb & _).
  exists new, batches, outcome. repeat split; assumption.
Qed.

End WithHost.

End GeneratorExtra.

Module FetchExtra.
Import Manager Fetcher.

Lemma collect_spec (items : list FunctionGetInputsItem) :
  forall acc,
    collect items acc =
    if existsb kill_switch (until_final items) then None
    else Some (acc ++ map as_input (until_final items),
               existsb (fun item => Ctx.final_input (item_input item)) items).
Proof.
  induction items as [|item items IH]; intros acc.
  - simpl. rewrite app_nil_r. reflexivity.
  - cbn [collect until_final existsb].
    destruct (kill_switch item) eqn:Hk, (Ctx.final_input (item_input item)) eqn:Hf;
      cbn [existsb map orb]; rewrite ?Hk; cbn [orb]; try reflexivity.
    rewrite IH. destruct (existsb kill_switch (until_final items)); [reflexivity|].
    rewrite <- app_assoc. reflexivity.
Qed.

Lemma until_final_length (items : list FunctionGetInputsItem) :
  (length (until_final items) <= length items)%nat /\
  (items <> [] -> until_final items <> []).
Proof.
  induction items as [|item items [IH _]]; [split; [reflexivity | congruence]|].
  simpl. destruct (Ctx.final_input (item_input item)); simpl; split; try lia; discriminate.
Qed.

Lemma take_and_return (w : Slots.world) :
  Slots.reachable w ->
  Slots.active (Slots.slots w) < Slots.value (Slots.slots w) ->
  Slots.acquire w = (Ok Slots.Entered, Slots.set_active (Slots.active (Slots.slots w) + 1) w) /\
  Slots.release (Slots.set_active (Slots.active (Slots.slots w) + 1) w) = (Ok tt, w).
Proof.
  intros Hr Hlt. pose proof (SlotsFacts.slots_reachable_inv w Hr) as Hinv.
  destruct w as [[a v wt c] futs]; simpl in *.
  assert (wt = None) as ->.
  { destruct wt as [f|]; [|reflexivity]. destruct (Hinv f eq_refl) as [Hge _].
    simpl in Hge. lia. }
  apply Z.ltb_lt in Hlt.
  unfold Slots.acquire, Slots.release, Slots._wake_waiter. run_M. simpl. rewrite Hlt.
  unfold Slots.set_active. simpl. replace (a + 1 - 1) with a by lia.
  split; reflexivity.
Qed.

(** X20. What a response that is neither rate limited nor empty, and passes
    the size assertion, makes the fetcher do: the inputs up to and
    including the first final one are yielded in the order received, and
    what follows a final input is dropped; but a kill switch on any of
    these items makes the generator return with nothing yielded, the
    inputs received before the kill switch included. The manager is not
    touched. *)
Theorem response_yields_inputs_up_to_final (batch_max_size max_inputs : Z)
    (response : FunctionGetInputsResponse) (m : manager) :
  Qeq_bool (rate_limit_sleep_duration response) 0 = true ->
  inputs response <> [] ->
  len (inputs response) <= Z.max 1 batch_max_size ->
  fetch_try batch_max_size max_inputs (Ok response) m
  = (Ok (if existsb kill_switch (until_final (inputs response)) then Return
         else Yield (map as_input (until_final (inputs response)))
                (existsb (fun item => Ctx.final_input (item_input item)) (inputs response)
                 || (max_inputs =? 1))),
     m).
Proof.
  intros Hrate Hne Hlen. unfold fetch_try. run_M. rewrite Hrate. cbn [negb].
  destruct (inputs response) as [|item items] eqn:Hitems; [congruence|].
  assert (Hpos : (0 <? len (item :: items)) = true).
  { apply Z.ltb_lt. unfold len. simpl. lia. }
  apply Z.leb_le in Hlen. rewrite Hpos, Hlen. cbn [andb negb].
  rewrite collect_spec. destruct (existsb kill_switch _); reflexivity.
Qed.

(** X21. The slot taken for a fetch is kept exactly when the fetch yields
    inputs and the consumer resumes the generator. With a free slot,
    [acquire] does not park; if the iteration ends without a yield (the
    request failed, the response was rate limited or empty, the size
    assertion failed, or a kill switch made the generator return) the
    semaphore is left exactly as it was before the iteration. If it
    yields, the inputs yielded are at least one and at most
    [max(1, batch_max_size)], and while the generator is suspended at the
    [yield] one more slot is active; resumed, the generator goes round or
    returns with the slot still taken and the manager untouched; closed
    at the [yield], it leaves with [GeneratorExit] and the semaphore is
    again exactly as it was before the iteration. *)
Theorem slot_kept_only_when_yield_is_resumed (batch_max_size max_inputs : Z)
    (response : res FunctionGetInputsResponse) (m : manager) :
  Slots.reachable (_input_slots m) ->
  Slots.active (Slots.slots (_input_slots m)) < Slots.value (Slots.slots (_input_slots m)) ->
  match fetch_once batch_max_size max_inputs response m with
  | (Ok (Yield yielded then_return), m1) =>
      yielded <> [] /\
      len yielded <= Z.max 1 batch_max_size /\
      _input_slots m1
      = Slots.set_active (Slots.active (Slots.slots (_input_slots m)) + 1) (_input_slots m) /\
      resume_iteration then_return Resumes m1
      = (Ok (if then_return then GeneratorReturns else GoesRound), m1) /\
      exists m2,
        resume_iteration then_return Closes m1 = (Raise GeneratorExit, m2) /\
        _input_slots m2 = _input_slots m
  | (Ok (Suspended _), _) => False
  | (_, m') => _input_slots m' = _input_slots m
  end.
Proof.
  intros Hr Hlt. destruct (take_and_return _ Hr Hlt) as [Hacq Hrel].
  unfold fetch_once. run_M. rewrite Hacq. cbv beta iota.
  unfold fetch_iteration, fetch_try. run_M.
  destruct response as [response | e]; cbv beta iota.
  2: { cbn [_input_slots set_input_slots]. destruct m; simpl in *. rewrite Hrel. reflexivity. }
  destruct (Qeq_bool (rate_limit_sleep_duration response) 0); cbn [negb].
  2: { destruct m; simpl in *. rewrite Hrel. reflexivity. }
  destruct (inputs response) as [|item items] eqn:Hitems.
  { destruct m; simpl in *. rewrite Hrel. reflexivity. }
  destruct ((0 <? len (item :: items)) && (len (item :: items) <=? Z.max 1 batch_max_size))
    eqn:Hassert; cbn [negb].
  2: { destruct m; simpl in *. rewrite Hrel. reflexivity. }
  rewrite collect_spec.
  destruct (existsb kill_switch (until_final (item :: items))).
  { destruct m; simpl in *. rewrite Hrel. reflexivity. }
  cbn [fst snd app].
  apply andb_prop in Hassert as [_ Hle]. apply Z.leb_le in Hle.
  destruct (until_final_length (item :: items)) as [Hlen Hne].
  split; [|split; [|split; [|split]]].
  - intros Hnil. apply map_eq_nil in Hnil. apply Hne; [discriminate | exact Hnil].
  - unfold len in *. rewrite length_map. lia.
  - destruct m; reflexivity.
  - reflexivity.
  - unfold resume_iteration. run_M. destruct m; simpl in *. rewrite Hrel.
    eexists. split; reflexivity.
Qed.

Lemma response_yields_inputs_up_to_final_witness :
  fetch_try 2 0
    (Ok (mkGetInputs 0
           [mkGetItem "in-000" 0 "fc-0" (Ctx.mkInput (Ctx.Args [Byte.x01]) "" true) false;
            mkGetItem "in-001" 0 "fc-0" (Demo.input [Byte.x02]) true]))
    (Demo.manager0 1 1)
  = (Ok (Yield [("in-000", 0, "fc-0", Ctx.mkInput (Ctx.Args [Byte.x01]) "" true)]%string true),
     Demo.manager0 1 1).
Proof.
  apply (response_yields_inputs_up_to_final 2 0
           (mkGetInputs 0
              [mkGetItem "in-000" 0 "fc-0" (Ctx.mkInput (Ctx.Args [Byte.x01]) "" true) false;
               mkGetItem "in-001" 0 "fc-0" (Demo.input [Byte.x02]) true])
           (Demo.manager0 1 1)).
  - reflexivity.
  - discriminate.
  - unfold len. simpl. lia.
Defined.

Lemma slot_kept_only_when_yield_is_resumed_witness :
  exists m1 m2,
    fetch_once 0 0
      (Ok (mkGetInputs 0 [mkGetItem "in-000" 0 "fc-0" (Demo.input [Byte.x01]) false]))
      (Demo.manager0 1 1)
    = (Ok (Yield [("in-000", 0, "fc-0", Demo.input [Byte.x01])]%string false), m1) /\
    Slots.active (Slots.slots (_input_slots m1)) = 1 /\
    resume_iteration false Closes m1 = (Raise GeneratorExit, m2) /\
    _input_slots m2 = _input_slots (Demo.manager0 1 1).
Proof.
  pose proof (slot_kept_only_when_yield_is_resumed 0 0
                (Ok (mkGetInputs 0
                       [mkGetItem "in-000" 0 "fc-0" (Demo.input [Byte.x01]) false]))
                (Demo.manager0 1 1) (Slots.reach_init 1) ltac:(simpl; lia)) as Hkept.
  destruct (fetch_once 0 0
              (Ok (mkGetInputs 0
                     [mkGetItem "in-000" 0 "fc-0" (Demo.input [Byte.x01]) false]))
              (Demo.manager0 1 1)) as [r m1] eqn:Hfetch.
  assert (Hr : r = Ok (Yield [("in-000", 0, "fc-0", Demo.input [Byte.x01])]%string false)).
  { vm_compute in Hfetch. injection Hfetch as <- _. reflexivity. }
  subst r. destruct Hkept as (_ & _ & Hslots & _ & m2 & Hclose & Hback).
  exists m1, m2. split; [reflexivity|]. split; [rewrite Hslots; reflexivity|].
  split; [exact Hclose | exact Hback].
Defined.

End FetchExtra.

Module InteractiveExtra.
Import Interactive.

Lemma interact_enabled (pty_type : N) (calls : list (bool * res unit)) (s : state) :
  _is_interactivity_enabled s = true ->
  interact_all pty_type calls s = (map (fun _ => Ok tt) calls, s).
Proof.
  intros Hon. induction calls as [|[from_breakpoint started] calls IH]; [reflexivity|].
  cbn [interact_all]. unfold interact. run_M. rewrite Hon. rewrite IH. reflexivity.
Qed.

(** X22. Interactivity is enabled by the first call of [interact], whatever
    becomes of that call. The first call raises [InvalidError] when the
    function has no PTY, and otherwise sends one FunctionStartPtyShell
    request and returns or raises as the request does; every later call
    returns at once and sends nothing, also when the first call failed. *)
Theorem only_first_interact_acts (pty_type : N) (from_breakpoint : bool)
    (started : res unit) (later : list (bool * res unit)) (s : state) :
  _is_interactivity_enabled s = false ->
  interact_all pty_type ((from_breakpoint, started) :: later) s
  = ((if (pty_type =? 0)%N
      then Raise (InvalidError
                    ("Cannot use "
                       ++ (if from_breakpoint then "breakpoint()" else "modal.interact()")
                       ++ " without running Modal in interactive mode."))
      else started) :: map (fun _ => Ok tt) later,
     mkState true (if (pty_type =? 0)%N then pty_shell_requests s
                   else S (pty_shell_requests s))).
Proof.
  intros Hoff. cbn [interact_all]. unfold interact. run_M. rewrite Hoff.
  destruct (pty_type =? 0)%N; cbv beta iota.
  - rewrite interact_enabled by reflexivity. destruct from_breakpoint; reflexivity.
  - destruct started as [[]|e]; simpl; rewrite interact_enabled by reflexivity; reflexivity.
Qed.

Lemma only_first_interact_acts_witness :
  interact_all 1 [(false, Raise (RuntimeError "no shell")); (true, Ok tt)] (mkState false 0)
  = ([Raise (RuntimeError "no shell"); Ok tt], mkState true 1).
Proof.
  apply (only_first_interact_acts 1 false (Raise (RuntimeError "no shell")) [(true, Ok tt)]
           (mkState false 0)).
  reflexivity.
Defined.

End InteractiveExtra.

Module InterlockExtra.
Import Interlock.

Lemma section_flag (s : state) :
  reachable s ->
  sn s = SnCheckpointing \/ sn s = SnClosing \/ sn s = SnRestoring ->
  _waiting_for_memory_snapshot s = true.
Proof.
  induction 1 as [b | a s s' sent Hs IH Hexec]; intros Hsec.
  - simpl in Hsec. destruct Hsec as [|[|]]; discriminate.
  - destruct s as [flag l h n]. simpl in *.
    destruct a; simpl in Hexec; unfold hb_step, sn_step, hb_check_and_send in Hexec;
      simpl in Hexec;
      destruct h; try discriminate Hexec;
      destruct n; try discriminate Hexec;
      destruct l as [[|]|]; try discriminate Hexec;
      try destruct gpu_ok; destruct flag;
      simpl in Hexec; try discriminate Hexec;
      injection Hexec as <- <-; simpl in *;
      first [ reflexivity
            | destruct Hsec as [|[|]]; discriminate
            | apply IH; intuition congruence ].
Qed.

(** X23. While [memory_snapshot] is between taking the condition and leaving
    it (awaiting ContainerCheckpoint, the closing of the client, or the
    restore), the flag is up, the snapshot holds the lock, and no
    heartbeat request is in flight. *)
Theorem snapshot_section_excludes_heartbeat (s : state) :
  reachable s ->
  sn s = SnCheckpointing \/ sn s = SnClosing \/ sn s = SnRestoring ->
  _waiting_for_memory_snapshot s = true /\
  lock s = Some Snapshot /\
  on_wire s = false.
Proof.
  intros Hr Hsec. pose proof (section_flag s Hr Hsec) as Hflag.
  destruct (InterlockFacts.interlock_reachable_inv s Hr) as (Hlock & Hwire & _).
  assert (Hoff : on_wire s = false).
  { destruct (on_wire s); [|reflexivity]. rewrite (Hwire eq_refl) in Hflag. discriminate. }
  split; [exact Hflag|]. split; [|exact Hoff].
  rewrite Hlock. unfold holds_lock, on_wire in *.
  destruct (hb s); try discriminate Hoff; destruct Hsec as [-> | [-> | ->]]; reflexivity.
Qed.

Lemma snapshot_section_excludes_heartbeat_witness :
  _waiting_for_memory_snapshot (mkState true (Some Snapshot) HbNotified SnCheckpointing) = true /\
  lock (mkState true (Some Snapshot) HbNotified SnCheckpointing) = Some Snapshot /\
  on_wire (mkState true (Some Snapshot) HbNotified SnCheckpointing) = false.
Proof.
  apply (snapshot_section_excludes_heartbeat
           (mkState true (Some Snapshot) HbNotified SnCheckpointing)).
  - apply (reach_exec (SnEnter true) (mkState true None HbWaiting SnNotStarted) _ false).
    + apply (reach_exec HbEnter (init true) _ false); [apply reach_init | reflexivity].
    + reflexivity.
  - left. reflexivity.
Defined.

Lemma paused_step (a : action) (s s' : state) (sent : bool) :
  match a with
  | HbEnter | HbWake | HbResume | HbRetry | HbReturn | HbCancel => True
  | _ => False
  end ->
  _waiting_for_memory_snapshot s = true -> on_wire s = false ->
  exec a s = Some (s', sent) ->
  sent = false /\ _waiting_for_memory_snapshot s' = true /\ on_wire s' = false.
Proof.
  intros Ha Hflag Hoff Hexec. destruct s as [flag l h n]. simpl in Hflag. subst flag.
  unfold on_wire in *. simpl in *.
  destruct a; try destruct Ha; simpl in Hexec; unfold hb_step, hb_check_and_send in Hexec;
    simpl in Hexec;
    destruct h; try discriminate Hexec; try discriminate Hoff;
    destruct l; try discriminate Hexec;
    injection Hexec as <- <-; simpl; repeat split; reflexivity.
Qed.

(** X24. The flag is lowered only at the end of a snapshot that succeeded.
    When the request, the closing of the client or the restore raises
    inside [memory_snapshot], the flag stays up, and from then on the
    heartbeat task, whatever it does and however often it is woken, sends
    no heartbeat. *)
Theorem failed_snapshot_pauses_heartbeats (s s' : state) (sent : bool)
    (actions : list action) (steps : list (state * bool * state)) :
  reachable s ->
  exec SnRaise s = Some (s', sent) ->
  Forall (fun a => match a with
                   | HbEnter | HbWake | HbResume | HbRetry | HbReturn | HbCancel => True
                   | _ => False
                   end) actions ->
  run actions s' = Some steps ->
  sn s' = SnFailed /\
  Forall (fun step => step.1.2 = false /\ _waiting_for_memory_snapshot step.2 = true) steps.
Proof.
  intros Hr Hraise Hhb Hrun.
  assert (Hsec : sn s = SnCheckpointing \/ sn s = SnClosing \/ sn s = SnRestoring).
  { simpl in Hraise. unfold sn_step in Hraise. destruct (sn s); try discriminate Hraise; tauto. }
  destruct (InterlockFacts.interlock_reachable_inv s Hr) as (_ & Hwire & _).
  pose proof (section_flag s Hr Hsec) as Hflag.
  assert (Hoff : on_wire s = false).
  { destruct (on_wire s); [|reflexivity]. rewrite (Hwire eq_refl) in Hflag. discriminate. }
  assert (Hs' : sn s' = SnFailed /\ _waiting_for_memory_snapshot s' = true /\ on_wire s' = false).
  { simpl in Hraise. unfold sn_step in Hraise. unfold on_wire in *.
    destruct (sn s); try discriminate Hraise; injection Hraise as <- <-; simpl; tauto. }
  destruct Hs' as (Hfailed & Hflag' & Hoff'). split; [exact Hfailed|].
  clear Hr Hraise Hsec Hwire Hflag Hoff Hfailed. revert s' steps Hflag' Hoff' Hrun.
  induction Hhb as [|a actions Ha Hhb IH]; intros s' steps Hflag' Hoff' Hrun; simpl in Hrun.
  - injection Hrun as <-. constructor.
  - destruct (exec a s') as [[s'' b]|] eqn:Hexec; [|discriminate].
    destruct (run actions s'') as [tl|] eqn:Htl; [|discriminate].
    injection Hrun as <-.
    destruct (paused_step a s' s'' b Ha Hflag' Hoff' Hexec) as (-> & Hflag'' & Hoff'').
    constructor; [split; [reflexivity | exact Hflag'']|].
    apply (IH s'' tl Hflag'' Hoff'' Htl).
Qed.

Lemma failed_snapshot_pauses_heartbeats_witness :
  sn (mkState true None HbNotified SnFailed) = SnFailed /\
  Forall (fun step => step.1.2 = false /\ _waiting_for_memory_snapshot step.2 = true)
    [(mkState true None HbNotified SnFailed, false, mkState true None HbWaiting SnFailed);
     (mkState true None HbWaiting SnFailed, false, mkState true None HbNotified SnFailed)].
Proof.
  apply (failed_snapshot_pauses_heartbeats
           (mkState true (Some Snapshot) HbNotified SnCheckpointing)
           (mkState true None HbNotified SnFailed) false [HbResume; HbWake]).
  - apply (reach_exec (SnEnter true) (mkState true None HbWaiting SnNotStarted) _ false).
    + apply (reach_exec HbEnter (init true) _ false); [apply reach_init | reflexivity].
    + reflexivity.
  - reflexivity.
  - repeat constructor.
  - reflexivity.
Defined.

End InterlockExtra.

Module BatchExtra.
Import Ctx.

Lemma dict_set_fresh {V : Type} (k : string) (v : V) (d : dict V) :
  k ∉ map fst d -> dict_set k v d = d ++ [(k, v)].
Proof.
  induction d as [|[k0 v0] d IH]; intros Hk; simpl; [reflexivity|].
  simpl in Hk. apply not_elem_of_cons in Hk as [Hne Hk].
  destruct (String.eqb_spec k k0) as [->|_]; [congruence|].
  rewrite IH by exact Hk. reflexivity.
Qed.

Lemma set_positional_zip (i : nat) (args : list pyval) :
  forall (done todo : list string) (d : dict pyval) (kbi : list (dict pyval)),
    NoDup (done ++ todo) ->
    kbi !! i = Some d ->
    map fst d = done ->
    (length args <= length todo)%nat ->
    set_positional (done ++ todo) i (length done) args kbi
    = Ok (<[i := d ++ zip todo args]> kbi).
Proof.
  induction args as [|arg rest IH]; intros done todo d kbi Hnd Hd Hkeys Hlen;
    cbn [set_positional].
  - replace (zip todo ([] : list pyval)) with ([] : dict pyval)
      by (destruct todo; reflexivity).
    rewrite app_nil_r. f_equal. symmetry. apply list_insert_id. exact Hd.
  - destruct todo as [|p todo]; [simpl in Hlen; lia|]. simpl in Hlen.
    rewrite list_lookup_middle by reflexivity.
    unfold kwargs_set. rewrite Hd. unfold mbind, res_bind.
    assert (Hfresh : p ∉ map fst d).
    { rewrite Hkeys. apply NoDup_app in Hnd as (_ & Hdis & _).
      intros Hin. apply (Hdis p Hin). left. }
    rewrite (dict_set_fresh _ _ _ Hfresh).
    replace (done ++ p :: todo) with ((done ++ [p]) ++ todo)
      by (rewrite <- app_assoc; reflexivity).
    replace (S (length done)) with (length (done ++ [p]))
      by (rewrite length_app; simpl; lia).
    rewrite (IH (done ++ [p]) todo (d ++ [(p, arg)])).
    + rewrite list_insert_insert_eq, <- app_assoc. reflexivity.
    + rewrite <- app_assoc. exact Hnd.
    + apply list_lookup_insert_eq. apply lookup_lt_Some in Hd. exact Hd.
    + rewrite map_app, Hkeys. reflexivity.
    + lia.
Qed.

Lemma aggregate_zip (func_name : string) (param_names : list string)
    (das : list (list pyval * dict pyval)) :
  NoDup param_names ->
  Forall (fun ak => ak.2 = [] /\ length ak.1 = length param_names) das ->
  forall pre,
    aggregate func_name param_names (length pre) das
      (pre ++ replicate (length das) ([] : dict pyval))
    = Ok (pre ++ map (fun ak => zip param_names ak.1) das).
Proof.
  intros Hnd Hall. induction Hall as [|[args kwargs] das [Hkw Hlen] Hall IH]; intros pre.
  - simpl. reflexivity.
  - simpl in Hkw, Hlen. subst kwargs. cbn [aggregate length replicate].
    assert (Hcount : (len args + len ([] : dict pyval) =? len param_names) = true).
    { apply Z.eqb_eq. unfold len. simpl. lia. }
    rewrite Hcount. cbn [negb].
    match goal with
    | |- context [set_positional ?pn ?i 0%nat ?a ?kbi] =>
        pose proof (set_positional_zip i a [] pn [] kbi) as Hpos
    end.
    cbn [app length] in Hpos. rewrite Hpos; [|exact Hnd| |reflexivity|lia].
    + unfold mbind, res_bind. cbn [set_keyword map].
      assert (Hins : forall (p r : list (dict pyval)) (x y : dict pyval),
                 <[length p := x]> (p ++ y :: r) = (p ++ [x]) ++ r).
      { intros p r x y. rewrite <- app_assoc. cbn [app].
        rewrite <- (Nat.add_0_r (length p)) at 1. rewrite insert_app_r. reflexivity. }
      rewrite Hins.
      replace (S (length pre)) with (length (pre ++ [zip param_names args]))
        by (rewrite length_app; simpl; lia).
      rewrite IH, <- app_assoc. reflexivity.
    + rewrite lookup_app_r by lia. rewrite Nat.sub_diag. reflexivity.
Qed.

Lemma dict_get_zip (param_names : list string) :
  NoDup param_names ->
  forall args j p,
    param_names !! j = Some p -> length args = length param_names ->
    dict_get p (zip param_names args) = Ok (nth j args PyNone).
Proof.
  induction 1 as [|q ps Hq Hnd IH]; intros args j p Hp Hlen; [discriminate|].
  destruct args as [|a args]; [discriminate|]. simpl in Hlen.
  destruct j as [|j]; simpl in *.
  - injection Hp as ->. rewrite String.eqb_refl. reflexivity.
  - destruct (String.eqb_spec p q) as [->|_].
    + exfalso. apply Hq. apply (list_elem_of_lookup_2 _ _ _ Hp).
    + apply IH; [exact Hp | lia].
Qed.

Lemma mapM_res_imap {A B : Type} (f : A -> res B) (l : list A) :
  forall g : nat -> A -> B,
    (forall j x, l !! j = Some x -> f x = Ok (g j x)) ->
    mapM f l = Ok (imap g l).
Proof.
  induction l as [|x l IH]; intros g Hg; [reflexivity|].
  change (mapM f (x :: l)) with (y ← f x; k ← mapM f l; mret (y :: k)).
  rewrite (Hg 0%nat x eq_refl), (IH (fun j => g (S j))); [reflexivity|].
  intros j y Hy. apply (Hg (S j) y Hy).
Qed.

Lemma mapM_res_map {A B C : Type} (f : B -> res C) (g : A -> B) (h : A -> C)
    (l : list A) :
  Forall (fun x => f (g x) = Ok (h x)) l -> mapM f (map g l) = Ok (map h l).
Proof.
  induction 1 as [|x l Hx Hl IH]; [reflexivity|]. cbn [map].
  change (mapM f (g x :: map g l)) with (y ← f (g x); k ← mapM f (map g l); mret (y :: k)).
  rewrite Hx, IH. reflexivity.
Qed.

Lemma dict_of_items_fresh {V : Type} (items : list (string * V)) :
  forall acc,
    NoDup (map fst acc ++ map fst items) ->
    foldl (fun d kv => dict_set kv.1 kv.2 d) acc items = acc ++ items.
Proof.
  induction items as [|[k v] items IH]; intros acc Hnd; simpl.
  - rewrite app_nil_r. reflexivity.
  - rewrite dict_set_fresh.
    + rewrite IH; [rewrite <- app_assoc; reflexivity|].
      rewrite map_app. simpl. rewrite <- app_assoc. exact Hnd.
    + apply NoDup_app in Hnd as (_ & Hdis & _). intros Hin. apply (Hdis k Hin). left.
Qed.

Lemma imap_keys {V : Type} (g : nat -> string -> V) (l : list string) :
  map fst (imap (fun j p => (p, g j p)) l) = l.
Proof.
  revert g. induction l as [|p l IH]; intros g; simpl; [reflexivity|].
  f_equal. apply (IH (fun j => g (S j))).
Qed.

Section WithHost.
Context `{Host}.

(** X25. A batch whose invocations all pass their arguments by position, as
    many as the function declares parameters, is turned into one call by
    keyword: no positional arguments, and for each parameter, in the
    order of the signature, the list of the values the invocations gave it,
    in the order of the inputs. *)
Theorem positional_batch_becomes_lists (c : IOContext)
    (das : list (list pyval * dict pyval)) :
  _is_batched c = true ->
  length (function_inputs c) = length (input_ids c) ->
  NoDup (parameters (finalized_function c)) ->
  deserialized_args c = Ok das ->
  Forall (fun ak => ak.2 = [] /\ length ak.1 = length (parameters (finalized_function c)))
         das ->
  _args_and_kwargs c
  = Ok ([], imap (fun j p => (p, PyList (map (fun ak => nth j ak.1 PyNone) das)))
                 (parameters (finalized_function c))) /\
  call_finalized_function c
  = callable (finalized_function c) []
      (imap (fun j p => (p, PyList (map (fun ak => nth j ak.1 PyNone) das)))
            (parameters (finalized_function c))).
Proof.
  intros Hb Hlen Hnd Hdas Hall.
  assert (Hargs : _args_and_kwargs c
                  = Ok ([], imap (fun j p =>
                                    (p, PyList (map (fun ak => nth j ak.1 PyNone) das)))
                                 (parameters (finalized_function c)))).
  { unfold _args_and_kwargs. rewrite Hdas. unfold mbind at 1, res_bind at 1.
    rewrite Hb. cbn [negb].
    pose proof (BatchFacts.mapM_res_length _ _ _ Hdas) as Hn.
    rewrite <- Hlen, <- Hn.
    pose proof (aggregate_zip (callable_name (finalized_function c))
                  (parameters (finalized_function c)) das Hnd Hall []) as Hagg.
    simpl in Hagg. rewrite Hagg. unfold mbind at 1, res_bind at 1.
    rewrite (mapM_res_imap _ _
               (fun j p => (p, PyList (map (fun ak => nth j ak.1 PyNone) das)))).
    - unfold mbind, res_bind, mret, res_ret. do 2 f_equal.
      unfold dict_of_items. rewrite dict_of_items_fresh; [reflexivity|].
      simpl. rewrite imap_keys. exact Hnd.
    - intros j p Hp.
      assert (Hl : mapM (dict_get p)
                     (map (fun ak => zip (parameters (finalized_function c)) ak.1) das)
                   = Ok (map (fun ak => nth j ak.1 PyNone) das)).
      { apply mapM_res_map. apply (Forall_impl _ _ _ Hall).
        intros ak [_ Hak]. apply (dict_get_zip _ Hnd _ _ _ Hp Hak). }
      rewrite Hl. reflexivity. }
  split; [exact Hargs|]. unfold call_finalized_function. rewrite Hargs. reflexivity.
Qed.

End WithHost.

Lemma positional_batch_becomes_lists_witness :
  @_args_and_kwargs (Demo.host 2097152)
    (new ["in-000"; "in-001"]%string [0; 0] ["fc-1"; "fc-1"]%string Demo.f_xy
       [Demo.input [Byte.x01; Byte.x02]; Demo.input [Byte.x03; Byte.x04]] true)
  = Ok ([], [("x"%string, PyList [PyInt 1; PyInt 3]);
             ("y"%string, PyList [PyInt 2; PyInt 4])]).
Proof.
  apply (@positional_batch_becomes_lists (Demo.host 2097152)
           (new ["in-000"; "in-001"]%string [0; 0] ["fc-1"; "fc-1"]%string Demo.f_xy
              [Demo.input [Byte.x01; Byte.x02]; Demo.input [Byte.x03; Byte.x04]] true)
           [([PyInt 1; PyInt 2], []); ([PyInt 3; PyInt 4], [])]).
  - reflexivity.
  - reflexivity.
  - apply NoDup_cons. split; [|apply NoDup_singleton].
    intros Hin. apply list_elem_of_singleton in Hin. discriminate Hin.
  - reflexivity.
  - repeat constructor.
Defined.

End BatchExtra.
